(** * New-Year-Sparkler: particle engine and emitter state machine

    A shallow embedding of [utils/particleEngine.ts], [constants.ts],
    [types.ts] and of the frame loop of [components/SparklerRecorder.tsx]
    ([animate] and [updateEmitter]).

    A JavaScript [number] is an IEEE 754 binary64 value: it is modelled by
    Rocq's primitive [float], whose operations are the same binary64
    operations with round-to-nearest-even, so that every definition below
    evaluates to the very value the program computes.  [Math.random],
    [Math.cos] and [Math.sin] are the only ambient functions the engine
    calls whose results the language leaves open; they are section
    variables.  The k-th call of [Math.random] returns [Math_random k], and
    the world state counts the calls made so far. *)

From Stdlib Require Import ZArith Lia Bool Floats Ascii.
From stdpp Require Import gmap strings list fin_maps pretty.

Set Warnings "-inexact-float,-clear-no-such-hyp".

Local Open Scope float_scope.

(** ** JavaScript numbers *)

Abbreviation number := float.

(** [a > b] on numbers; false as soon as one side is NaN. *)
Notation "a >? b" := (PrimFloat.ltb b a) (at level 70, no associativity) : float_scope.

Definition is_neg_zero (a : number) : bool :=
  match classify a with NZero => true | _ => false end.

(** [Math.max(a, b)]: NaN if either argument is NaN, and [+0] is larger
    than [-0]. *)
Definition Math_max (a b : number) : number :=
  if is_nan a || is_nan b then nan
  else if a <? b then b
  else if b <? a then a
  else if is_neg_zero a then b else a.

(** [Math.min(a, b)]: NaN if either argument is NaN, and [-0] is smaller
    than [+0]. *)
Definition Math_min (a b : number) : number :=
  if is_nan a || is_nan b then nan
  else if a <? b then a
  else if b <? a then b
  else if is_neg_zero a then a else b.

Definition Math_sqrt (a : number) : number := sqrt a.

Definition Math_PI : number := 3.141592653589793.

(** [Math.floor(a)] as an integer; [None] for NaN and the infinities, which
    [Math.floor] returns unchanged and which index no array element.
    [Z.shiftl] by a negative amount is the floor division by a power of
    two. *)
Definition Math_floor (a : number) : option Z :=
  match Prim2SF a with
  | S754_zero _ => Some 0%Z
  | S754_finite s m e => Some (Z.shiftl (cond_Zopp s (Zpos m)) e)
  | _ => None
  end.

(** [arr[i]] for a number [i] that is the result of [Math.floor]:
    [undefined] ([None]) out of range. *)
Definition array_get {A} (arr : list A) (i : option Z) : option A :=
  match i with
  | Some z => if (z <? 0)%Z then None else arr !! Z.to_nat z
  | None => None
  end.

(** [arr.length] as a number. *)
Definition array_length {A} (arr : list A) : number :=
  of_uint63 (Uint63.of_Z (Z.of_nat (length arr))).

(** ** constants.ts *)

Definition INERTIA_FACTOR : number := 0.25.
Definition DRAW_SPEED_THRESHOLD : number := 3.0.
Definition BURST_ARM_SPEED : number := 15.0.
Definition BURST_TRIGGER_SPEED : number := 5.0.

Definition TRAIL_COLOR : string := "255, 215, 0".
Definition TRAIL_PARTICLE_COUNT : nat := 3.
Definition BURST_PARTICLE_COUNT : nat := 60.
Definition BURST_COLORS : list string :=
  [ "255, 100, 50";
    "255, 215, 0";
    "255, 255, 255";
    "100, 200, 255" ].

(** ** types.ts *)

Module Point.
Record t := mk { x : number; y : number }.
End Point.

Inductive ParticleType := trail | burst.

Module Particle.
Record t := mk {
  x : number;
  y : number;
  vx : number;
  vy : number;
  life : number;
  decay : number;
  color : string;
  size : number;
  type : ParticleType;
  gravity : number
}.
End Particle.

(** ** SparklerRecorder.tsx: module-level data *)

Definition FINGER_INDICES : list nat := [4; 8; 12; 16; 20]%nat.

Definition FINGER_COLORS : list string :=
  [ "255, 120, 80";
    "255, 215, 0";
    "255, 240, 150";
    "255, 200, 50";
    "255, 160, 100" ].

Module EmitterState.
Record t := mk {
  x : number;
  y : number;
  vx : number;
  vy : number;
  isBurstArmed : bool
}.
End EmitterState.

(** What the frame loop reads and writes between frames: [particlesRef],
    [emittersRef], [lightingIntensityRef], and the number of calls of
    [Math.random] made so far. *)
Record World := mkWorld {
  particlesRef : list Particle.t;
  emittersRef : gmap string EmitterState.t;
  lightingIntensityRef : number;
  randomCalls : nat
}.

Definition initialWorld : World :=
  {| particlesRef := []; emittersRef := ∅; lightingIntensityRef := 0; randomCalls := 0 |}.

(** What a frame puts on the canvas.  A fill style [rgba(c, a)] is kept as
    the pair of its colour text and its alpha. *)
Inductive DrawOp :=
  | DrawVideo
  | FillRect (colour : string) (alpha : number) (width height : number)
  | Arc (colour : string) (alpha : number) (cx cy radius : number).

(** One frame's inputs: whether video, canvas, landmarker and 2D context are
    all there; whether the video is playing; the canvas size; and the hands
    of [results.landmarks], each a list of normalized landmarks. *)
Record Frame := mkFrame {
  ready : bool;
  playing : bool;
  canvasWidth : number;
  canvasHeight : number;
  landmarks : list (list Point.t)
}.

Section Engine.

Variable Math_cos Math_sin : number -> number.
Variable Math_random : nat -> number.

(** ** particleEngine.ts *)

(** [n] is the number of [Math.random] calls made before the call; a trail
    particle makes four: angle, speed, decay, size. *)
Definition createTrailParticle (x y : number) (velocity : Point.t)
    (color : string) (n : nat) : Particle.t :=
  let angle := Math_random n * Math_PI * 2 in
  let speed := Math_random (n + 1) * 2 in
  let vx := (Math_cos angle * speed) + (Point.x velocity * 0.1) in
  let vy := (Math_sin angle * speed) + (Point.y velocity * 0.1) in
  {| Particle.x := x;
     Particle.y := y;
     Particle.vx := vx;
     Particle.vy := vy;
     Particle.life := 1.0;
     Particle.decay := 0.02 + Math_random (n + 2) * 0.03;
     Particle.color := "rgba(" +:+ color +:+ ",";
     Particle.size := 2 + Math_random (n + 3) * 3;
     Particle.type := trail;
     Particle.gravity := 0.1 |}.

Definition trailDraws : nat := 4.

(** One iteration of the loop of [createBurstParticles]: five calls of
    [Math.random]: angle, speed, colour, decay, size. *)
Definition createBurstParticle (x y : number) (n : nat) : Particle.t :=
  let angle := Math_random n * Math_PI * 2 in
  let speed := 2 + Math_random (n + 1) * 10 in
  let vx := Math_cos angle * speed in
  let vy := Math_sin angle * speed in
  let colorBase :=
    array_get BURST_COLORS
      (Math_floor (Math_random (n + 2) * array_length BURST_COLORS)) in
  {| Particle.x := x;
     Particle.y := y;
     Particle.vx := vx;
     Particle.vy := vy;
     Particle.life := 1.0;
     Particle.decay := 0.01 + Math_random (n + 3) * 0.02;
     Particle.color := "rgba(" +:+ default "undefined" colorBase +:+ ",";
     Particle.size := 3 + Math_random (n + 4) * 4;
     Particle.type := burst;
     Particle.gravity := 0.3 |}.

Definition burstDraws : nat := 5.

Definition createBurstParticles (x y : number) (n : nat) : list Particle.t :=
  map (fun i => createBurstParticle x y (n + burstDraws * i))
      (seq 0 BURST_PARTICLE_COUNT).

(** The body of the loop of [updateParticles] on one particle: the
    particle object after the iteration, and whether it was pushed on
    [aliveParticles]. *)
Definition stepParticle (height : number) (p : Particle.t) : Particle.t * bool :=
  let life := Particle.life p - Particle.decay p in
  if life >? 0 then
    let x := Particle.x p + Particle.vx p in
    let y := Particle.y p + Particle.vy p in
    let vy := Particle.vy p + Particle.gravity p in
    let bounce := (y >? height) && (vy >? 0) in
    ({| Particle.x := x;
        Particle.y := if bounce then height else y;
        Particle.vx := Particle.vx p;
        Particle.vy := if bounce then vy * -0.6 else vy;
        Particle.life := life;
        Particle.decay := Particle.decay p;
        Particle.color := Particle.color p;
        Particle.size := Particle.size p;
        Particle.type := Particle.type p;
        Particle.gravity := Particle.gravity p |}, true)
  else
    ({| Particle.x := Particle.x p;
        Particle.y := Particle.y p;
        Particle.vx := Particle.vx p;
        Particle.vy := Particle.vy p;
        Particle.life := life;
        Particle.decay := Particle.decay p;
        Particle.color := Particle.color p;
        Particle.size := Particle.size p;
        Particle.type := Particle.type p;
        Particle.gravity := Particle.gravity p |}, false).

Definition updateParticles (particles : list Particle.t) (width height : number)
    : list Particle.t :=
  omap (fun p => let '(p', alive) := stepParticle height p in
                 if alive then Some p' else None) particles.

(** [drawParticles]: one filled circle per particle, fill style
    [p.color ++ p.life ++ ")"], radius [p.size * p.life]. *)
Definition drawParticles (particles : list Particle.t) : list DrawOp :=
  map (fun p => Arc (Particle.color p) (Particle.life p)
                    (Particle.x p) (Particle.y p)
                    (Particle.size p * Particle.life p)) particles.

(** ** SparklerRecorder.tsx: [updateEmitter] *)

Definition pushParticles (ps : list Particle.t) (w : World) : World :=
  {| particlesRef := particlesRef w ++ ps;
     emittersRef := emittersRef w;
     lightingIntensityRef := lightingIntensityRef w;
     randomCalls := randomCalls w |}.

Definition setLighting (l : number) (w : World) : World :=
  {| particlesRef := particlesRef w;
     emittersRef := emittersRef w;
     lightingIntensityRef := l;
     randomCalls := randomCalls w |}.

Definition setEmitter (key : string) (e : EmitterState.t) (w : World) : World :=
  {| particlesRef := particlesRef w;
     emittersRef := <[key := e]> (emittersRef w);
     lightingIntensityRef := lightingIntensityRef w;
     randomCalls := randomCalls w |}.

Definition drawn (k : nat) (w : World) : World :=
  {| particlesRef := particlesRef w;
     emittersRef := emittersRef w;
     lightingIntensityRef := lightingIntensityRef w;
     randomCalls := randomCalls w + k |}.

Definition setArmed (b : bool) (e : EmitterState.t) : EmitterState.t :=
  {| EmitterState.x := EmitterState.x e;
     EmitterState.y := EmitterState.y e;
     EmitterState.vx := EmitterState.vx e;
     EmitterState.vy := EmitterState.vy e;
     EmitterState.isBurstArmed := b |}.

(** The inertia step: the emitter after [emitter.x += dx * INERTIA_FACTOR]
    and the velocity update, and the speed of this tick. *)
Definition smoothed (emitter : EmitterState.t) (targetX targetY : number)
    : EmitterState.t :=
  let dx := targetX - EmitterState.x emitter in
  let dy := targetY - EmitterState.y emitter in
  {| EmitterState.x := EmitterState.x emitter + dx * INERTIA_FACTOR;
     EmitterState.y := EmitterState.y emitter + dy * INERTIA_FACTOR;
     EmitterState.vx := dx * INERTIA_FACTOR;
     EmitterState.vy := dy * INERTIA_FACTOR;
     EmitterState.isBurstArmed := EmitterState.isBurstArmed emitter |}.

Definition speedOf (emitter : EmitterState.t) (targetX targetY : number) : number :=
  let vx := (targetX - EmitterState.x emitter) * INERTIA_FACTOR in
  let vy := (targetY - EmitterState.y emitter) * INERTIA_FACTOR in
  Math_sqrt (vx * vx + vy * vy).

(** Step 1 of the state machine: arming. *)
Definition arm (speed : number) (e : EmitterState.t) : EmitterState.t :=
  if speed >? BURST_ARM_SPEED then setArmed true e else e.

(** Step 2: triggering the burst. *)
Definition trigger (speed : number) (ew : EmitterState.t * World)
    : EmitterState.t * World :=
  let '(e, w) := ew in
  if EmitterState.isBurstArmed e && (speed <? BURST_TRIGGER_SPEED) then
    let burstParticles :=
      createBurstParticles (EmitterState.x e) (EmitterState.y e) (randomCalls w) in
    let w := drawn (burstDraws * BURST_PARTICLE_COUNT) (pushParticles burstParticles w) in
    let w := setLighting (Math_min (lightingIntensityRef w + 0.5) 1.0) w in
    (setArmed false e, w)
  else (e, w).

(** Step 3: emitting trails.  The second [Math.random] is only called
    when [speed > DRAW_SPEED_THRESHOLD * 2], as [&&] short-circuits. *)
Definition emitTrails (speed particleChance : number) (color : string)
    (e : EmitterState.t) (w : World) : World :=
  if speed >? DRAW_SPEED_THRESHOLD then
    let velocity := Point.mk (EmitterState.vx e) (EmitterState.vy e) in
    let mk w := createTrailParticle (EmitterState.x e) (EmitterState.y e)
                  velocity color (randomCalls w) in
    let w :=
      let r := Math_random (randomCalls w) in
      let w := drawn 1 w in
      if r <? particleChance then drawn trailDraws (pushParticles [mk w] w) else w in
    if speed >? DRAW_SPEED_THRESHOLD * 2 then
      let r := Math_random (randomCalls w) in
      let w := drawn 1 w in
      if r <? particleChance then drawn trailDraws (pushParticles [mk w] w) else w
    else w
  else w.

Definition updateEmitter (key : string) (targetX targetY particleChance : number)
    (color : string) (w : World) : World :=
  match emittersRef w !! key with
  | None =>
      setEmitter key
        {| EmitterState.x := targetX; EmitterState.y := targetY;
           EmitterState.vx := 0; EmitterState.vy := 0;
           EmitterState.isBurstArmed := false |} w
  | Some emitter =>
      let speed := speedOf emitter targetX targetY in
      let e := arm speed (smoothed emitter targetX targetY) in
      let '(e, w) := trigger speed (e, w) in
      let w := emitTrails speed particleChance color e w in
      setEmitter key e w
  end.

(** ** SparklerRecorder.tsx: [animate] *)

Definition setParticles (ps : list Particle.t) (w : World) : World :=
  {| particlesRef := ps;
     emittersRef := emittersRef w;
     lightingIntensityRef := lightingIntensityRef w;
     randomCalls := randomCalls w |}.

Definition setEmitters (m : gmap string EmitterState.t) (w : World) : World :=
  {| particlesRef := particlesRef w;
     emittersRef := m;
     lightingIntensityRef := lightingIntensityRef w;
     randomCalls := randomCalls w |}.

(** [arr.forEach((a, i) => ...)] on a state. *)
Definition forEach {A S} (arr : list A) (body : A -> nat -> S -> S) (s : S) : S :=
  foldl (fun s ia => body ia.2 ia.1 s) s (zip (seq 0 (length arr)) arr).

(** [a || b] on strings: [b] when [a] is undefined or empty. *)
Definition or_else (a : option string) (b : string) : string :=
  match a with
  | Some c => if decide (c = "") then b else c
  | None => b
  end.

(** The density multiplier, from [totalActiveEmitters]. *)
Definition particleMultiplierOf (totalActiveEmitters : number) : number :=
  1 / Math_max 1 (totalActiveEmitters * 0.5).

Definition emitterKey (handIndex fingerIndex : nat) : string :=
  pretty handIndex +:+ "-" +:+ pretty fingerIndex.

(** The body of the inner [forEach]; [None] is the TypeError of reading
    [tip.x] when [hand[tipIdx]] is undefined. *)
Definition trackFinger (f : Frame) (particleMultiplier : number)
    (hand : list Point.t) (handIndex : nat) (tipIdx fingerIndex : nat)
    (st : option (gset string * World)) : option (gset string * World) :=
  st ← st;
  tip ← hand !! tipIdx;
  let targetX := (1 - Point.x tip) * canvasWidth f in
  let targetY := Point.y tip * canvasHeight f in
  let key := emitterKey handIndex fingerIndex in
  Some ({[ key ]} ∪ st.1,
        updateEmitter key targetX targetY particleMultiplier
          (or_else (FINGER_COLORS !! fingerIndex) TRAIL_COLOR) st.2).

(** The emission phase: the two nested [forEach] loops. *)
Definition trackHands (f : Frame) (st : option (gset string * World))
    : option (gset string * World) :=
  let totalActiveEmitters := array_length (landmarks f) * 5 in
  let particleMultiplier := particleMultiplierOf totalActiveEmitters in
  forEach (landmarks f) (fun hand handIndex =>
    forEach FINGER_INDICES (trackFinger f particleMultiplier hand handIndex)) st.

(** The cleanup loop: delete every key that is not in [activeKeys]. *)
Definition cleanup (activeKeys : gset string) (w : World) : World :=
  setEmitters (filter (fun kv => kv.1 ∈ activeKeys) (emittersRef w)) w.

(** Step 3 of [animate]: process tracking. *)
Definition processTracking (f : Frame) (w : World) : option World :=
  if playing f then
    st ← (if (0 <? length (landmarks f))%nat
          then trackHands f (Some (∅, w)) else Some (∅, w));
    Some (cleanup st.1 st.2)
  else Some w.

(** Step 4: the lighting overlay and its decay. *)
Definition drawLighting (f : Frame) (w : World) : World * list DrawOp :=
  if lightingIntensityRef w >? 0.01 then
    (setLighting (lightingIntensityRef w * 0.85) w,
     [FillRect "255, 120, 50" (lightingIntensityRef w * 0.4)
               (canvasWidth f) (canvasHeight f)])
  else (w, []).

(** One frame: the world after it and what it drew.  Without video,
    canvas, landmarker or context nothing happens. *)
Definition animate (f : Frame) (w : World) : option (World * list DrawOp) :=
  if ready f then
    w ← processTracking f w;
    let '(w, overlay) := drawLighting f w in
    let w := setParticles
               (updateParticles (particlesRef w) (canvasWidth f) (canvasHeight f)) w in
    Some (w, DrawVideo :: overlay ++ drawParticles (particlesRef w))
  else Some (w, []).

(** A run of frames, from a world. *)
Fixpoint frames (fs : list Frame) (w : World) : option World :=
  match fs with
  | [] => Some w
  | f :: fs => r ← animate f w; frames fs r.1
  end.

End Engine.

(** ** Observations the statements are about *)

(** The particles a step pushed: what [w'] holds after the particles of [w]. *)
Definition spawned (w w' : World) : list Particle.t :=
  drop (length (particlesRef w)) (particlesRef w').

(** The speed [updateEmitter] computes for [key] in [w], when the emitter
    is there. *)
Definition tickSpeed (key : string) (targetX targetY : number) (w : World)
    : option number :=
  e ← emittersRef w !! key; Some (speedOf e targetX targetY).

Definition armedAt (key : string) (w : World) : option bool :=
  EmitterState.isBurstArmed <$> emittersRef w !! key.

(** [n] simulation ticks with no emission in between. *)
Fixpoint ticks (n : nat) (particles : list Particle.t) (width height : number)
    : list Particle.t :=
  match n with
  | O => particles
  | S n => ticks n (updateParticles particles width height) width height
  end.

(** A live particle: [life] in [(0, 1]]. *)
Definition alive (p : Particle.t) : Prop :=
  (0 <? Particle.life p) = true /\ (Particle.life p <=? 1) = true.

(** What emission guarantees of a particle, and simulation keeps:
    [life <= 1] and [decay >= 2^-7 = 0.0078125]. *)
Definition sound (p : Particle.t) : Prop :=
  (Particle.life p <=? 1) = true /\ (0.0078125 <=? Particle.decay p) = true.

(** A number of [[0, 1]]. *)
Definition unit_interval (a : number) : Prop :=
  (0 <=? a) = true /\ (a <=? 1) = true.

Definition WorldOk (w : World) : Prop :=
  Forall sound (particlesRef w) /\ unit_interval (lightingIntensityRef w).

(** The state between two frames: every particle is live and sound, and
    the flash is in [[0, 1]]. *)
Definition WorldLive (w : World) : Prop :=
  Forall (fun p => alive p /\ sound p) (particlesRef w) /\
  unit_interval (lightingIntensityRef w).

(** The world without the emitter [key]. *)
Definition forget (key : string) (w : World) : World :=
  setEmitters (delete key (emittersRef w)) w.

(** Every hand of the frame has its 21 landmarks. *)
Definition wellFormed (f : Frame) : Prop :=
  Forall (fun hand : list Point.t => (21 <= length hand)%nat) (landmarks f).

(** The keys of the fingertips tracked in a frame. *)
Definition trackedKeys (f : Frame) : gset string :=
  list_to_set
    (handIndex ← seq 0 (length (landmarks f));
     fingerIndex ← seq 0 (length FINGER_INDICES);
     [emitterKey handIndex fingerIndex]).

(** ** Sample inputs

    A random source that always draws 0.125, an angle-independent cosine
    and sine, a hand whose 21 landmarks coincide, and a run of frames in
    which one hand appears, flicks to the side and comes to rest, and then
    leaves. *)

Definition sampleCos (a : number) : number := 1.
Definition sampleSin (a : number) : number := 0.
Definition sampleRandom (k : nat) : number := 0.125.

Definition handAt (x y : number) : list Point.t := replicate 21 (Point.mk x y).

Definition frameOf (hands : list (list Point.t)) : Frame :=
  {| ready := true; playing := true; canvasWidth := 1280; canvasHeight := 720;
     landmarks := hands |}.

Definition flickFrames : list Frame :=
  [frameOf [handAt 0.5 0.5]] ++ replicate 12 (frameOf [handAt 0.25 0.5]).

Definition idleFrames : list Frame := replicate 40 (frameOf []).

Definition restingEmitter : EmitterState.t :=
  {| EmitterState.x := 0; EmitterState.y := 0; EmitterState.vx := 0;
     EmitterState.vy := 0; EmitterState.isBurstArmed := false |}.

(** A trail particle on the floor of a 720-pixel canvas, falling. *)
Definition fallingParticle : Particle.t :=
  {| Particle.x := 5; Particle.y := 720; Particle.vx := 0; Particle.vy := 1;
     Particle.life := 1.0; Particle.decay := 0.02; Particle.color := "rgba(255, 215, 0,";
     Particle.size := 2; Particle.type := trail; Particle.gravity := 0.1 |}.

(** The first particle of a burst at (10, 20) under the sample draws. *)
Definition sampleBurstParticle : Particle.t :=
  createBurstParticle sampleCos sampleSin sampleRandom 10 20 0.

(** ** Binary64 values and powers of two

    The properties of the arithmetic that the engine relies on are bounds
    by powers of two, read off the specification [SpecFloat] of the
    primitive operations. *)

Local Open Scope Z_scope.

(** What [binary_round_aux] returns, for a non-negative mantissa. *)

Inductive rounded (s : bool) (m2 e2 : Z) : spec_float -> Prop :=
  | rounded_zero : m2 = 0 -> rounded s m2 e2 (S754_zero s)
  | rounded_finite m : m2 = Zpos m -> e2 <= 971 -> rounded s m2 e2 (S754_finite s m e2)
  | rounded_infinity : 0 < m2 -> 971 < e2 -> rounded s m2 e2 (S754_infinity s).

(** A finite result below a power of two. *)

Definition below (s : bool) (k : Z) (x : spec_float) : Prop :=
  (exists s', x = S754_zero s') \/ exists m e, x = S754_finite s m e /\ Zpos m <= 2 ^ (k - e).

Definition strictly_below (s : bool) (k : Z) (x : spec_float) : Prop :=
  (exists s', x = S754_zero s') \/ exists m e, x = S754_finite s m e /\ Zpos m < 2 ^ (k - e).

Definition inexact (l : location) : Z :=
  match l with loc_Exact => 0 | _ => 1 end.

Definition pow2F (k : Z) : spec_float := S754_finite false 4503599627370496 (k - 52).

(** A value of sign [s]: never NaN. *)

Definition signed (s : bool) (x : spec_float) : Prop :=
  match x with
  | S754_zero _ => True
  | S754_infinity s' | S754_finite s' _ _ => s' = s
  | S754_nan => False
  end.

(** [x <= 2^k], on specifications. *)

Definition at_most (k : Z) (x : spec_float) : Prop :=
  match x with
  | S754_nan => False
  | S754_infinity s => s = true
  | S754_zero _ => True
  | S754_finite true _ _ => True
  | S754_finite false m e => Zpos m <= 2 ^ (k - e)
  end.

(** [x >= 2^k], for a positive value. *)

Definition at_least (k : Z) (x : spec_float) : Prop :=
  match x with
  | S754_infinity false => True
  | S754_finite false m e => 2 ^ (k - e) <= Zpos m
  | _ => False
  end.

(** A positive finite constant. *)

Definition positive_finite (c : float) : Prop :=
  exists m e, Prim2SF c = S754_finite false m e.

(** The exact value of a finite number, in units of [2^-1074]. *)
Definition scaled (x : spec_float) : Z :=
  match x with
  | S754_finite s m e => cond_Zopp s (Zpos m * 2 ^ (e + 1074))
  | _ => 0
  end.

Definition scaledF (a : number) : Z := scaled (Prim2SF a).

(** The ceiling of [1 / d], for the exact value of [d]. *)
Definition ceil_reciprocal (d : number) : nat :=
  Z.to_nat ((2 ^ 1074 + scaledF d - 1) / scaledF d).

(** [life] after [k] decay steps. *)
Fixpoint lifeAfter (k : nat) (life decay : number) : number :=
  match k with
  | O => life
  | S k => lifeAfter k (life - decay)%float decay
  end.

(** ** Further notions the statements are about *)

(** [x >= ma * 2^ea], for a positive value. *)
Definition reaches (ma : positive) (ea : Z) (x : spec_float) : Prop :=
  match x with
  | S754_infinity false => True
  | S754_finite false m e =>
      -1074 <= e /\ Zpos ma * 2 ^ (ea + 1074) <= Zpos m * 2 ^ (e + 1074)
  | _ => False
  end.

(** [0 <= x <= mc * 2^ec]. *)
Definition under (mc : positive) (ec : Z) (x : spec_float) : Prop :=
  match x with
  | S754_zero _ => True
  | S754_finite false m e =>
      -1074 <= e <= ec /\ Zpos m <= Zpos mc * 2 ^ (ec - e)
  | _ => False
  end.

Local Open Scope float_scope.

(** A text without the separator of emitter keys. *)
Fixpoint dashFree (s : string) : Prop :=
  match s with
  | EmptyString => True
  | String c s => c <> "-"%char /\ dashFree s
  end.

(** The emitter [updateEmitter] makes for a key it has not seen. *)
Definition seedEmitter (targetX targetY : number) : EmitterState.t :=
  {| EmitterState.x := targetX; EmitterState.y := targetY;
     EmitterState.vx := 0; EmitterState.vy := 0;
     EmitterState.isBurstArmed := false |}.

(** Whether a call of [updateEmitter] on the emitter [e] fires a burst. *)
Definition fires (e : EmitterState.t) (targetX targetY : number) : bool :=
  EmitterState.isBurstArmed e && (speedOf e targetX targetY <? BURST_TRIGGER_SPEED).

(** The emitter [e] after a call of [updateEmitter] with the given
    target. *)
Definition updated (e : EmitterState.t) (targetX targetY : number) : EmitterState.t :=
  setArmed
    (negb (fires e targetX targetY) &&
     (EmitterState.isBurstArmed e || (speedOf e targetX targetY >? BURST_ARM_SPEED)))
    (smoothed e targetX targetY).

(** The target of a fingertip on the canvas: mirrored in [x]. *)
Definition targetOf (f : Frame) (tip : Point.t) : number * number :=
  ((1 - Point.x tip) * canvasWidth f, Point.y tip * canvasHeight f).

(** The colour of the trail of a finger. *)
Definition fingerColor (fingerIndex : nat) : string :=
  or_else (FINGER_COLORS !! fingerIndex) TRAIL_COLOR.

(** The fingertip landmark of finger [fingerIndex] of hand [handIndex]. *)
Definition fingertip (f : Frame) (handIndex fingerIndex : nat) : option Point.t :=
  hand ← landmarks f !! handIndex;
  tipIdx ← FINGER_INDICES !! fingerIndex;
  hand !! tipIdx.

(** The fingertips the emission phase of a frame visits, in the order of
    its two loops: hand after hand, finger after finger. *)
Definition fingertipCalls (f : Frame) : list (nat * nat * Point.t) :=
  handIndex ← seq 0 (length (landmarks f));
  fingerIndex ← seq 0 (length FINGER_INDICES);
  match fingertip f handIndex fingerIndex with
  | Some tip => [(handIndex, fingerIndex, tip)]
  | None => []
  end.

(** A particle as one of the two factories returns it, the trail factory
    being called with the colour of a finger. *)
Definition made (Math_cos Math_sin : number -> number) (Math_random : nat -> number)
    (p : Particle.t) : Prop :=
  (exists x y n, p = createBurstParticle Math_cos Math_sin Math_random x y n) \/
  (exists x y velocity fingerIndex n,
     (fingerIndex < 5)%nat /\
     p = createTrailParticle Math_cos Math_sin Math_random x y velocity
           (fingerColor fingerIndex) n).

(** What a particle keeps of its making for as long as it lives: a size
    in [[2, 8]], a decay of at most 1/16, and the gravity and a colour of
    its type. *)
Definition wellMade (p : Particle.t) : Prop :=
  (2 <=? Particle.size p) = true /\ (Particle.size p <=? 8) = true /\
  (Particle.decay p <=? 0.0625) = true /\
  match Particle.type p with
  | trail =>
      Particle.gravity p = 0.1 /\
      exists c, c ∈ FINGER_COLORS /\ Particle.color p = "rgba(" +:+ c +:+ ","
  | burst =>
      Particle.gravity p = 0.3 /\
      exists c, c ∈ BURST_COLORS /\ Particle.color p = "rgba(" +:+ c +:+ ","
  end.

(** A frame that runs and emits nothing: the video is not playing, or no
    hand is detected. *)
Definition idle (f : Frame) : Prop :=
  ready f = true /\ (playing f = false \/ landmarks f = []).

(** A particle that [k] decay steps ago had a life of at most 1, and has
    been alive after each of them. *)
Definition aged (k : nat) (q : Particle.t) : Prop :=
  exists l0,
    (l0 <=? 1) = true /\ (0.0078125 <=? Particle.decay q) = true /\
    Particle.life q = lifeAfter k l0 (Particle.decay q) /\
    forall j, (1 <= j <= k)%nat -> (0 <? lifeAfter j l0 (Particle.decay q)) = true.

(** An emitter one of whose coordinates is NaN. *)
Definition poisoned (e : EmitterState.t) : Prop :=
  is_nan (EmitterState.x e) = true \/ is_nan (EmitterState.y e) = true.

Local Open Scope Z_scope.

(** * Properties *)

(** ** Rounding, after [SpecFloat] *)



Lemma fexp_eq e : fexp prec emax e = Z.max (e - 53) (-1074).
Proof. reflexivity. Qed.

Lemma iter_pos_iter {A} (f : A -> A) p : forall x, SpecFloat.iter_pos f p x = Pos.iter f x p.
Proof.
  induction p as [p IH|p IH|]; intros x; simpl.
  - rewrite !IH. rewrite <- !Pos.iter_swap. reflexivity.
  - rewrite !IH. reflexivity.
  - reflexivity.
Qed.

Lemma shr_1_m mrs : 0 <= shr_m mrs -> shr_m (shr_1 mrs) = shr_m mrs / 2.
Proof.
  destruct mrs as [m r s]; simpl. intros Hm.
  destruct m as [|[p|p|]|p]; cbn [shr_1 shr_m] in *; try lia.
  - reflexivity.
  - apply Z.div_unique with (r := 1); lia.
  - apply Z.div_unique with (r := 0); lia.
  - reflexivity.
Qed.

Lemma shr_1_r mrs : 0 <= shr_m mrs -> shr_r (shr_1 mrs) = Z.odd (shr_m mrs).
Proof.
  destruct mrs as [m r s]; simpl. intros Hm.
  destruct m as [|[p|p|]|p]; cbn [shr_1 shr_m shr_r] in *; try reflexivity; lia.
Qed.

Lemma shr_iter_m p mrs :
  0 <= shr_m mrs -> shr_m (SpecFloat.iter_pos shr_1 p mrs) = shr_m mrs / 2 ^ Zpos p.
Proof.
  intros Hm. rewrite iter_pos_iter. induction p using Pos.peano_ind.
  - simpl. rewrite shr_1_m by assumption. reflexivity.
  - rewrite Pos.iter_succ, shr_1_m.
    + rewrite IHp, Pos2Z.inj_succ, Z.pow_succ_r by lia.
      rewrite Z.div_div by lia. f_equal. lia.
    + rewrite IHp. apply Z.div_pos; lia.
Qed.

Lemma shr_iter_r p mrs :
  0 <= shr_m mrs ->
  shr_r (SpecFloat.iter_pos shr_1 p mrs) = Z.odd (shr_m mrs / 2 ^ (Zpos p - 1)).
Proof.
  intros Hm. destruct (Pos.eq_dec p 1%positive) as [->|Hp].
  - simpl. rewrite shr_1_r by assumption. rewrite Z.div_1_r. reflexivity.
  - destruct (Pos.succ_pred_or p) as [|E]; [contradiction|].
    rewrite <- E at 1. rewrite iter_pos_iter, Pos.iter_succ, <- iter_pos_iter.
    rewrite shr_1_r.
    + rewrite shr_iter_m by assumption. do 3 f_equal. lia.
    + rewrite shr_iter_m by assumption. apply Z.div_pos; lia.
Qed.

Lemma rne_bounds m l : m <= round_nearest_even m l <= m + 1.
Proof. destruct l as [|[]]; simpl; try lia. destruct (Z.even m); lia. Qed.

Lemma rne_up m mrs :
  round_nearest_even m (loc_of_shr_record mrs) <> m -> shr_r mrs = true.
Proof. destruct mrs as [m' [] []]; simpl; congruence. Qed.

Lemma rne_exact m : round_nearest_even m loc_Exact = m.
Proof. reflexivity. Qed.

Lemma loc_of_shr_record_of_loc m l : loc_of_shr_record (shr_record_of_loc m l) = l.
Proof. destruct l as [|[]]; reflexivity. Qed.

Lemma shr_m_of_loc m l : shr_m (shr_record_of_loc m l) = m.
Proof. destruct l as [|[]]; reflexivity. Qed.

(** The first shift-and-round of [binary_round_aux]. *)

Lemma shr_fexp_round mx ex lx :
  0 <= mx ->
  let n := fexp prec emax (Zdigits2 mx + ex) - ex in
  let r := shr_fexp prec emax mx ex lx in
  let m1 := round_nearest_even (shr_m (fst r)) (loc_of_shr_record (fst r)) in
  (n <= 0 /\ snd r = ex /\ mx <= m1 <= mx + 1 /\ (lx = loc_Exact -> m1 = mx)) \/
  (0 < n /\ snd r = ex + n /\ mx / 2 ^ n <= m1 <= mx / 2 ^ n + 1 /\
   (m1 = mx / 2 ^ n + 1 -> Z.odd (mx / 2 ^ (n - 1)) = true)).
Proof.
  intros Hm n r m1. subst r m1. unfold shr_fexp. fold n.
  destruct n as [|p|p] eqn:En; unfold shr; cbn [fst snd].
  - left. rewrite shr_m_of_loc, loc_of_shr_record_of_loc.
    pose proof (rne_bounds mx lx). repeat split; try lia. intros ->. reflexivity.
  - right. pose proof (shr_iter_m p (shr_record_of_loc mx lx)) as Hq.
    pose proof (shr_iter_r p (shr_record_of_loc mx lx)) as Hr.
    rewrite shr_m_of_loc in Hq, Hr. specialize (Hq Hm). specialize (Hr Hm).
    set (mrs := SpecFloat.iter_pos shr_1 p (shr_record_of_loc mx lx)) in *.
    pose proof (rne_bounds (shr_m mrs) (loc_of_shr_record mrs)) as Hb.
    rewrite Hq in *. repeat split; try lia.
    intros Hup. rewrite <- Hr. apply (rne_up (mx / 2 ^ Z.pos p)).
    rewrite <- Hq in *. lia.
  - left. rewrite shr_m_of_loc, loc_of_shr_record_of_loc.
    pose proof (rne_bounds mx lx). repeat split; try lia. intros ->. reflexivity.
Qed.

(** The second shift: no rounding, the mantissa can only shrink. *)

Lemma shr_fexp_exact m1 e1 :
  0 <= m1 ->
  let r := shr_fexp prec emax m1 e1 loc_Exact in
  0 <= shr_m (fst r) /\ e1 <= snd r /\ shr_m (fst r) * 2 ^ (snd r - e1) <= m1.
Proof.
  intros Hm r. subst r. unfold shr_fexp.
  destruct (fexp prec emax (Zdigits2 m1 + e1) - e1) as [|p|p] eqn:En;
    unfold shr; cbn [fst snd shr_record_of_loc shr_m];
    try (rewrite Z.sub_diag; change (2 ^ 0) with 1; lia).
  rewrite shr_iter_m by (cbn [shr_m]; lia). cbn [shr_m].
  replace (e1 + Z.pos p - e1) with (Z.pos p) by lia.
  split; [apply Z.div_pos; lia|]. split; [lia|].
  rewrite Z.mul_comm. apply Z.mul_div_le. lia.
Qed.

Lemma binary_round_aux_spec s mx ex lx :
  0 <= mx ->
  let n := fexp prec emax (Zdigits2 mx + ex) - ex in
  exists m1 e1 m2 e2,
    rounded s m2 e2 (binary_round_aux prec emax s mx ex lx) /\
    0 <= m2 /\ e1 <= e2 /\ m2 * 2 ^ (e2 - e1) <= m1 /\
    ((n <= 0 /\ e1 = ex /\ mx <= m1 <= mx + 1 /\ (lx = loc_Exact -> m1 = mx)) \/
     (0 < n /\ e1 = ex + n /\ mx / 2 ^ n <= m1 <= mx / 2 ^ n + 1 /\
      (m1 = mx / 2 ^ n + 1 -> Z.odd (mx / 2 ^ (n - 1)) = true))).
Proof.
  intros Hm n. pose proof (shr_fexp_round mx ex lx Hm) as H1. fold n in H1.
  unfold binary_round_aux.
  destruct (shr_fexp prec emax mx ex lx) as [mrs' e'] eqn:E1. simpl in H1.
  set (m1 := round_nearest_even (shr_m mrs') (loc_of_shr_record mrs')) in *.
  assert (0 <= m1) as Hm1.
  { destruct H1 as [(_ & _ & ? & _)|(Hn & _ & ? & _)]; [lia|].
    assert (0 <= mx / 2 ^ n) by (apply Z.div_pos; lia). lia. }
  pose proof (shr_fexp_exact m1 e' Hm1) as H2.
  destruct (shr_fexp prec emax m1 e' loc_Exact) as [mrs'' e''] eqn:E2. simpl in H2.
  exists m1, e', (shr_m mrs''), e''.
  split; [|split; [lia|split; [lia|split; [lia|exact H1]]]].
  destruct (shr_m mrs'') as [|m|m] eqn:Em.
  - constructor; reflexivity.
  - change (Z.sub emax prec) with 971. destruct (Z.leb_spec e'' 971).
    + constructor; [reflexivity|assumption].
    + constructor; lia.
  - lia.
Qed.

(** Bounds *)

Lemma digits2_pos_bounds p :
  2 ^ (Zpos (digits2_pos p) - 1) <= Zpos p < 2 ^ Zpos (digits2_pos p).
Proof.
  induction p as [p IH|p IH|]; cbn [digits2_pos].
  - rewrite Pos2Z.inj_succ, Z.pow_succ_r by lia.
    replace (Z.succ (Zpos (digits2_pos p)) - 1) with (Z.succ (Zpos (digits2_pos p) - 1)) by lia.
    rewrite Z.pow_succ_r by lia. lia.
  - rewrite Pos2Z.inj_succ, Z.pow_succ_r by lia.
    replace (Z.succ (Zpos (digits2_pos p)) - 1) with (Z.succ (Zpos (digits2_pos p) - 1)) by lia.
    rewrite Z.pow_succ_r by lia. lia.
  - simpl. lia.
Qed.

Lemma digits_le_of_lt_pow2 p k : Zpos p < 2 ^ k -> Zpos (digits2_pos p) <= k.
Proof.
  intros H. pose proof (digits2_pos_bounds p) as [Hl _].
  destruct (Z.le_gt_cases (Zpos (digits2_pos p)) k) as [|Hk]; [assumption|exfalso].
  assert (2 ^ k <= 2 ^ (Zpos (digits2_pos p) - 1)) by (apply Z.pow_le_mono_r; lia).
  lia.
Qed.

Lemma pow2_pos k : 0 <= k -> 0 < 2 ^ k.
Proof. intros. apply Z.pow_pos_nonneg; lia. Qed.

Lemma pow2_neg k : k < 0 -> 2 ^ k = 0.
Proof. intros. apply Z.pow_neg_r. assumption. Qed.

Lemma pow2_split a b : 0 <= a -> 0 <= b -> 2 ^ (a + b) = 2 ^ a * 2 ^ b.
Proof. intros. apply Z.pow_add_r; assumption. Qed.

(** [a * 2^d <= 2^c] gives [a <= 2^(c-d)]. *)

Lemma le_pow2_shift a c d : 0 < a -> 0 <= d -> a * 2 ^ d <= 2 ^ c -> a <= 2 ^ (c - d).
Proof.
  intros Ha Hd H. pose proof (pow2_pos d Hd).
  destruct (Z.lt_ge_cases c d) as [Hc|Hc].
  - exfalso. destruct (Z.lt_ge_cases c 0) as [Hc0|Hc0].
    + rewrite (pow2_neg c) in H by assumption. nia.
    + assert (2 ^ c < 2 ^ d) by (apply Z.pow_lt_mono_r; lia). nia.
  - replace c with ((c - d) + d) in H by lia. rewrite pow2_split in H by lia.
    pose proof (pow2_pos (c - d)). nia.
Qed.

Lemma lt_pow2_shift a c d : 0 < a -> 0 <= d -> a * 2 ^ d < 2 ^ c -> a < 2 ^ (c - d).
Proof.
  intros Ha Hd H. pose proof (pow2_pos d Hd).
  destruct (Z.lt_ge_cases c d) as [Hc|Hc].
  - exfalso. destruct (Z.lt_ge_cases c 0) as [Hc0|Hc0].
    + rewrite (pow2_neg c) in H by assumption. nia.
    + assert (2 ^ c < 2 ^ d) by (apply Z.pow_lt_mono_r; lia). nia.
  - replace c with ((c - d) + d) in H by lia. rewrite pow2_split in H by lia.
    pose proof (pow2_pos (c - d)). nia.
Qed.

Lemma rounded_below s m2 e2 e1 m1 k x :
  rounded s m2 e2 x -> 0 <= m2 -> e1 <= e2 -> k <= 971 ->
  m2 * 2 ^ (e2 - e1) <= m1 -> (0 < m1 -> m1 <= 2 ^ (k - e1)) -> below s k x.
Proof.
  intros Hr Hm2 He Hk H21 H1.
  assert (0 < m2 -> m2 <= 2 ^ (k - e2)) as Hb.
  { intros Hpos. replace (k - e2) with ((k - e1) - (e2 - e1)) by lia.
    pose proof (pow2_pos (e2 - e1)).
    assert (0 < m1) by nia. apply le_pow2_shift; lia. }
  destruct Hr as [|m -> He2|Hpos He2].
  - left; eexists; reflexivity.
  - right. exists m, e2. split; [reflexivity|]. apply Hb. lia.
  - exfalso. specialize (Hb Hpos). rewrite pow2_neg in Hb by lia. lia.
Qed.

Lemma rounded_strictly_below s m2 e2 e1 m1 k x :
  rounded s m2 e2 x -> 0 <= m2 -> e1 <= e2 -> k <= 971 ->
  m2 * 2 ^ (e2 - e1) <= m1 -> (0 < m1 -> m1 < 2 ^ (k - e1)) -> strictly_below s k x.
Proof.
  intros Hr Hm2 He Hk H21 H1.
  assert (0 < m2 -> m2 < 2 ^ (k - e2)) as Hb.
  { intros Hpos. replace (k - e2) with ((k - e1) - (e2 - e1)) by lia.
    pose proof (pow2_pos (e2 - e1)).
    assert (0 < m1) by nia. apply lt_pow2_shift; lia. }
  destruct Hr as [|m -> He2|Hpos He2].
  - left; eexists; reflexivity.
  - right. exists m, e2. split; [reflexivity|]. apply Hb. lia.
  - exfalso. specialize (Hb Hpos). rewrite pow2_neg in Hb by lia. lia.
Qed.

Lemma Zdigits2_le_of_le_pow2 mx K : 0 < mx -> mx <= 2 ^ K -> Zdigits2 mx <= K + 1.
Proof.
  intros Hpos H. destruct mx as [|p|p]; try lia. cbn [Zdigits2].
  apply digits_le_of_lt_pow2.
  destruct (Z.lt_ge_cases K 0); [rewrite pow2_neg in H by lia; lia|].
  replace (K + 1) with (Z.succ K) by lia. rewrite Z.pow_succ_r by lia. lia.
Qed.

(** Rounding a value that is at most [2^k] gives at most [2^k]. *)

Lemma binary_round_aux_below s mx ex lx k :
  0 <= mx -> -1074 <= k <= 971 ->
  mx + inexact lx <= 2 ^ (k - ex) ->
  below s k (binary_round_aux prec emax s mx ex lx).
Proof.
  intros Hm Hk Hb.
  destruct (binary_round_aux_spec s mx ex lx Hm) as (m1 & e1 & m2 & e2 & Hr & Hm2 & He & H21 & Hc).
  apply (rounded_below s m2 e2 e1 m1 k _ Hr Hm2 He); try lia. intros _.
  destruct Hc as [(Hn & -> & Hm1 & Hex)|(Hn & -> & Hm1 & Hup)].
  - destruct lx; [rewrite Hex by reflexivity; simpl in Hb; lia|simpl in Hb; lia].
  - set (n := fexp prec emax (Zdigits2 mx + ex) - ex) in *.
    destruct (Z.eq_dec mx 0) as [->|Hnz].
    + rewrite Z.div_0_l in * by (pose proof (pow2_pos n); lia).
      assert (m1 = 0) as ->.
      { destruct (Z.eq_dec m1 0); [assumption|].
        assert (m1 = 0 + 1) as E by lia. apply Hup in E.
        rewrite Z.div_0_l in E by (pose proof (pow2_pos (n - 1)); lia). discriminate. }
      apply Z.pow_nonneg. lia.
    + assert (0 <= k - ex) as HK.
      { destruct (Z.lt_ge_cases (k - ex) 0); [|assumption].
        rewrite pow2_neg in Hb by assumption. destruct lx; simpl in Hb; lia. }
      assert (n <= k - ex) as HnK.
      { assert (mx <= 2 ^ (k - ex)) by (destruct lx; simpl in Hb; lia).
        pose proof (Zdigits2_le_of_le_pow2 mx (k - ex)). subst n.
        rewrite fexp_eq in *. lia. }
      replace (k - (ex + n)) with ((k - ex) - n) by lia.
      pose proof (pow2_pos n) as Hpn. pose proof (pow2_pos (k - ex - n)) as HpK.
      assert (2 ^ (k - ex) = 2 ^ (k - ex - n) * 2 ^ n) as Esplit.
      { rewrite <- pow2_split by lia. f_equal. lia. }
      pose proof (Z.mul_div_le mx (2 ^ n)) as Hfloor.
      pose proof (Z.mod_pos_bound mx (2 ^ n)) as Hmod.
      pose proof (Z.div_mod mx (2 ^ n)) as Hdm.
      destruct (Z.eq_dec m1 (mx / 2 ^ n + 1)) as [Eup|Eno].
      * specialize (Hup Eup).
        assert (mx / 2 ^ n < 2 ^ (k - ex - n)); [|lia].
        destruct (Z.lt_ge_cases (mx / 2 ^ n) (2 ^ (k - ex - n))) as [|Hge]; [assumption|exfalso].
        assert (mx = 2 ^ (k - ex)) as Emx by (destruct lx; simpl in Hb; nia).
        rewrite Emx in Hup.
        replace (k - ex) with ((k - ex - n + 1) + (n - 1)) in Hup by lia.
        rewrite pow2_split in Hup by lia.
        rewrite Z.div_mul in Hup by (pose proof (pow2_pos (n - 1)); lia).
        replace (k - ex - n + 1) with (Z.succ (k - ex - n)) in Hup by lia.
        rewrite Z.pow_succ_r, Z.odd_mul in Hup by lia. discriminate.
      * assert (m1 = mx / 2 ^ n) as -> by lia.
        assert (mx <= 2 ^ (k - ex)) by (destruct lx; simpl in Hb; lia).
        apply Z.div_le_upper_bound; lia.
Qed.

(** An exact value on the grid, strictly below [2^k], stays strictly below. *)

Lemma binary_round_aux_strictly_below s mx ex k :
  0 <= mx -> k <= 971 ->
  mx < 2 ^ (k - ex) ->
  (forall n, n = fexp prec emax (Zdigits2 mx + ex) - ex -> 0 < n -> mx mod 2 ^ n = 0) ->
  strictly_below s k (binary_round_aux prec emax s mx ex loc_Exact).
Proof.
  intros Hm Hk Hb Hgrid.
  destruct (binary_round_aux_spec s mx ex loc_Exact Hm) as (m1 & e1 & m2 & e2 & Hr & Hm2 & He & H21 & Hc).
  apply (rounded_strictly_below s m2 e2 e1 m1 k _ Hr Hm2 He); try lia. intros Hm1pos.
  destruct Hc as [(Hn & -> & Hm1 & Hex)|(Hn & -> & Hm1 & Hup)].
  - rewrite Hex by reflexivity. assumption.
  - set (n := fexp prec emax (Zdigits2 mx + ex) - ex) in *.
    specialize (Hgrid n eq_refl Hn). pose proof (pow2_pos n) as Hpn.
    pose proof (Z.div_mod mx (2 ^ n)) as Hdm.
    assert (m1 = mx / 2 ^ n) as ->.
    { destruct (Z.eq_dec m1 (mx / 2 ^ n + 1)) as [Eup|]; [exfalso|lia].
      apply Hup in Eup.
      assert (mx = 2 * (2 ^ (n - 1) * (mx / 2 ^ n))) as Emx.
      { replace (2 * (2 ^ (n - 1) * (mx / 2 ^ n))) with (2 ^ (Z.succ (n - 1)) * (mx / 2 ^ n))
          by (rewrite Z.pow_succ_r by lia; ring).
        replace (Z.succ (n - 1)) with n by lia. lia. }
      rewrite Emx in Eup at 1.
      replace (2 * (2 ^ (n - 1) * (mx / 2 ^ n))) with ((2 * (mx / 2 ^ n)) * 2 ^ (n - 1)) in Eup by ring.
      rewrite Z.div_mul in Eup by (pose proof (pow2_pos (n - 1)); lia).
      rewrite Z.odd_mul in Eup. discriminate. }
    replace (k - (ex + n)) with ((k - ex) - n) by lia.
    apply lt_pow2_shift; lia.
Qed.

(** ** Validity and the order of binary64 values *)

Lemma SFleb_finite m e c ec :
  SFleb (S754_finite false m e) (S754_finite false c ec) = true <->
  e < ec \/ (e = ec /\ Zpos m <= Zpos c).
Proof.
  unfold SFleb, SFcompare.
  destruct (Z.compare_spec e ec) as [E|E|E].
  - change (Pos.compare_cont Eq m c) with (Pos.compare m c).
    destruct (Pos.compare_spec m c); split; try discriminate; try reflexivity; lia.
  - split; [lia|reflexivity].
  - split; [discriminate|lia].
Qed.

Lemma SFltb_finite m e c ec :
  SFltb (S754_finite false m e) (S754_finite false c ec) = true <->
  e < ec \/ (e = ec /\ Zpos m < Zpos c).
Proof.
  unfold SFltb, SFcompare.
  destruct (Z.compare_spec e ec) as [E|E|E].
  - change (Pos.compare_cont Eq m c) with (Pos.compare m c).
    destruct (Pos.compare_spec m c); split; try discriminate; try reflexivity; lia.
  - split; [lia|reflexivity].
  - split; [discriminate|lia].
Qed.

Lemma bounded_canonical m e :
  bounded prec emax m e = true ->
  Zpos (digits2_pos m) <= 53 /\ -1074 <= e <= 971 /\
  (Zpos (digits2_pos m) = 53 \/ e = -1074).
Proof.
  unfold bounded, canonical_mantissa. rewrite fexp_eq. change (Z.sub emax prec) with 971.
  intros H. apply andb_true_iff in H as [H1 H2].
  apply Z.eqb_eq in H1. apply Z.leb_le in H2. lia.
Qed.

Lemma pow2_52 : 2 ^ 52 = 4503599627370496.
Proof. reflexivity. Qed.

(** A canonical mantissa at an exponent above [k - 52] is at least
    [2^52], so its value is above [2^k]. *)

Lemma canonical_above m e k :
  bounded prec emax m e = true -> -1022 <= k -> k - 52 < e -> 2 ^ (k - e) < Zpos m.
Proof.
  intros Hv Hk He. apply bounded_canonical in Hv as (Hd & Hr & Hc).
  pose proof (digits2_pos_bounds m) as [Hlo Hhi].
  destruct (Z.lt_ge_cases (k - e) 0) as [Hn|Hn]; [rewrite pow2_neg by assumption; lia|].
  assert (2 ^ (k - e) < 2 ^ 52) by (apply Z.pow_lt_mono_r; lia).
  assert (Zpos (digits2_pos m) = 53) as E53 by lia.
  rewrite E53 in Hlo. change (53 - 1) with 52 in Hlo. lia.
Qed.

Lemma canonical_under m e k :
  bounded prec emax m e = true -> e < k - 52 -> Zpos m < 2 ^ (k - e).
Proof.
  intros Hv He. apply bounded_canonical in Hv as (Hd & Hr & Hc).
  pose proof (digits2_pos_bounds m) as [Hlo Hhi].
  assert (2 ^ Zpos (digits2_pos m) <= 2 ^ (k - e)) by (apply Z.pow_le_mono_r; lia).
  lia.
Qed.

Lemma below_SFleb m e k :
  bounded prec emax m e = true -> -1022 <= k ->
  Zpos m <= 2 ^ (k - e) -> SFleb (S754_finite false m e) (pow2F k) = true.
Proof.
  intros Hv Hk Hb. apply SFleb_finite.
  destruct (Z.lt_trichotomy e (k - 52)) as [E|[E|E]].
  - left; assumption.
  - right. split; [assumption|]. rewrite <- pow2_52. subst e.
    replace (k - (k - 52)) with 52 in Hb by lia. assumption.
  - pose proof (canonical_above m e k Hv Hk E). lia.
Qed.

Lemma strictly_below_SFltb m e k :
  bounded prec emax m e = true -> -1022 <= k ->
  Zpos m < 2 ^ (k - e) -> SFltb (S754_finite false m e) (pow2F k) = true.
Proof.
  intros Hv Hk Hb. apply SFltb_finite.
  destruct (Z.lt_trichotomy e (k - 52)) as [E|[E|E]].
  - left; assumption.
  - right. split; [assumption|]. rewrite <- pow2_52. subst e.
    replace (k - (k - 52)) with 52 in Hb by lia. assumption.
  - pose proof (canonical_above m e k Hv Hk E). lia.
Qed.

Lemma SFleb_below m e k :
  bounded prec emax m e = true ->
  SFleb (S754_finite false m e) (pow2F k) = true -> Zpos m <= 2 ^ (k - e).
Proof.
  intros Hv H. apply SFleb_finite in H as [E|[E H]].
  - pose proof (canonical_under m e k Hv E). lia.
  - rewrite <- pow2_52 in H. subst e. replace (k - (k - 52)) with 52 by lia. assumption.
Qed.

Lemma SFltb_strictly_below m e k :
  bounded prec emax m e = true ->
  SFltb (S754_finite false m e) (pow2F k) = true -> Zpos m < 2 ^ (k - e).
Proof.
  intros Hv H. apply SFltb_finite in H as [E|[E H]].
  - apply canonical_under; assumption.
  - rewrite <- pow2_52 in H. subst e. replace (k - (k - 52)) with 52 by lia. assumption.
Qed.

(** ** Signs *)

Lemma rounded_signed s m2 e2 x : rounded s m2 e2 x -> signed s x.
Proof. destruct 1; subst; simpl; auto. Qed.

Lemma binary_round_aux_signed s mx ex lx :
  0 <= mx -> signed s (binary_round_aux prec emax s mx ex lx).
Proof.
  intros Hm. destruct (binary_round_aux_spec s mx ex lx Hm) as (? & ? & ? & ? & Hr & _).
  eapply rounded_signed, Hr.
Qed.

Lemma binary_round_signed s m e : signed s (binary_round prec emax s m e).
Proof.
  unfold binary_round. destruct (shl_align _ _ _) as [mz ez].
  apply binary_round_aux_signed. lia.
Qed.

Lemma below_signed s k x : below s k x -> signed s x.
Proof. intros [[s' ->]|(m & e & -> & _)]; simpl; auto. Qed.

Lemma strictly_below_signed s k x : strictly_below s k x -> signed s x.
Proof. intros [[s' ->]|(m & e & -> & _)]; simpl; auto. Qed.

Lemma strictly_below_below s k x : strictly_below s k x -> below s k x.
Proof. intros [[s' ->]|(m & e & -> & ?)]; [left; eexists; reflexivity|right; exists m, e; split; [reflexivity|lia]]. Qed.

Lemma signed_nonneg x : signed false x -> SFleb (S754_zero false) x = true.
Proof. destruct x as [s|s| |s m e]; simpl; intros H; try contradiction; subst; reflexivity. Qed.

Lemma signed_nonpos_le x m e : signed true x -> SFleb x (S754_finite false m e) = true.
Proof. destruct x as [|[]| |[]]; simpl; try contradiction; try discriminate; reflexivity. Qed.

Lemma nonneg_signed x : SFleb (S754_zero false) x = true -> signed false x.
Proof. destruct x as [|[]| |[]]; simpl; try discriminate; auto. Qed.

(** [shl_align] keeps the value. *)

Lemma iter_xO m d : Zpos (Pos.iter xO m d) = Zpos m * 2 ^ Zpos d.
Proof.
  induction d using Pos.peano_ind.
  - simpl. lia.
  - rewrite Pos.iter_succ, Pos2Z.inj_xO, IHd, Pos2Z.inj_succ, Z.pow_succ_r by lia. ring.
Qed.

Lemma shl_align_spec m e e' :
  let r := shl_align m e e' in
  snd r <= e /\ Zpos (fst r) = Zpos m * 2 ^ (e - snd r) /\ (e' <= e -> snd r = e').
Proof.
  unfold shl_align. destruct (e' - e) as [|d|d] eqn:E; cbn [fst snd].
  - rewrite Z.sub_diag. simpl. lia.
  - rewrite Z.sub_diag. simpl. lia.
  - rewrite iter_xO. replace (e - e') with (Zpos d) by lia. lia.
Qed.

Lemma binary_round_below s m e k :
  -1074 <= k <= 971 -> Zpos m <= 2 ^ (k - e) ->
  below s k (binary_round prec emax s m e).
Proof.
  intros Hk Hb. unfold binary_round.
  pose proof (shl_align_spec m e (fexp prec emax (Zpos (digits2_pos m) + e))) as (H1 & H2 & _).
  destruct (shl_align _ _ _) as [mz ez]. cbn [fst snd] in *.
  apply binary_round_aux_below; try lia. cbn [inexact]. rewrite H2, Z.add_0_r.
  destruct (Z.lt_ge_cases (k - e) 0) as [Hn|Hn]; [rewrite pow2_neg in Hb by assumption; lia|].
  replace (k - ez) with ((k - e) + (e - ez)) by lia. rewrite pow2_split by lia.
  pose proof (pow2_pos (e - ez)). nia.
Qed.

(** ** Bounds on the results of the operations *)

Lemma below_at_most s k x : below s k x -> at_most k x.
Proof.
  intros [[s' ->]|(m & e & -> & H)]; simpl; [trivial|]. destruct s; [trivial|assumption].
Qed.

Lemma signed_at_most k x : signed true x -> at_most k x.
Proof. destruct x as [| | |[]]; simpl; auto; discriminate. Qed.

Lemma at_most_SFleb k x :
  valid_binary x = true -> -1022 <= k ->
  at_most k x -> SFleb x (pow2F k) = true.
Proof.
  intros Hv Hk H. destruct x as [s|s| |[] m e]; simpl in H; try contradiction; subst; try reflexivity.
  apply below_SFleb; assumption.
Qed.

Lemma SFleb_at_most k x :
  valid_binary x = true -> SFleb x (pow2F k) = true -> at_most k x.
Proof.
  intros Hv H. destruct x as [s|[]| |[] m e]; simpl; try discriminate; trivial.
  apply SFleb_below; assumption.
Qed.

Lemma binary_normalize_signed_pos m e : 0 <= m -> signed false (binary_normalize prec emax m e false).
Proof.
  destruct m as [|p|p]; simpl; intros H; [trivial|apply binary_round_signed|lia].
Qed.

Lemma SFadd_signed x y :
  signed false x -> signed false y -> signed false (SFadd prec emax x y).
Proof.
  destruct x as [[]|sx| |sx mx ex], y as [[]|sy| |sy my ey]; simpl; intros Hx Hy;
    try contradiction; subst; simpl; auto.
  apply binary_round_signed.
Qed.

Lemma SFmul_signed x s m e :
  signed false x -> s = false -> signed false (SFmul prec emax x (S754_finite s m e)).
Proof.
  intros Hx ->. destruct x as [sx|sx| |sx mx ex]; simpl in *; try contradiction; subst; simpl; auto.
  apply binary_round_aux_signed. lia.
Qed.

(** Subtracting a non-negative value does not exceed a bound of the form [2^k]. *)

Lemma SFsub_at_most k x d :
  -1074 <= k <= 971 -> at_most k x -> signed false d ->
  at_most k (SFsub prec emax x d).
Proof.
  intros Hk Hx Hd.
  destruct x as [sx|sx| |sx mx ex], d as [sd|sd| |sd md ed]; simpl in Hx, Hd;
    try contradiction; subst; cbn [SFsub negb at_most]; auto.
  - destruct sx, sd; simpl; trivial.
  - pose proof (shl_align_spec mx ex (Z.min ex ed)) as (_ & Hvx & Hex).
    pose proof (shl_align_spec md ed (Z.min ex ed)) as (_ & Hvd & Hed).
    specialize (Hex ltac:(lia)). specialize (Hed ltac:(lia)).
    set (ez := Z.min ex ed) in *.
    destruct (shl_align mx ex ez) as [mx' ex']. destruct (shl_align md ed ez) as [md' ed'].
    cbn [fst snd cond_Zopp] in *. subst ex' ed'.
    destruct (cond_Zopp sx (Z.pos mx') - Z.pos md') as [|p|p] eqn:E; cbn [binary_normalize].
    + exact I.
    + apply (below_at_most false). apply binary_round_below; [assumption|].
      destruct sx; cbn [cond_Zopp] in E; [lia|].
      destruct (Z.lt_ge_cases (k - ex) 0) as [Hn|Hn]; [rewrite pow2_neg in Hx by assumption; lia|].
      replace (k - ez) with ((k - ex) + (ex - ez)) by lia. rewrite pow2_split by lia.
      pose proof (pow2_pos (ex - ez)). nia.
    + apply signed_at_most, binary_round_signed.
Qed.

(** The product of a value of [[0, 2^k1]] and a positive one of at most
    [2^k2] is in [[0, 2^(k1+k2)]]. *)

Lemma SFmul_at_most k1 k2 x m e :
  -1074 <= k1 + k2 <= 971 ->
  signed false x -> at_most k1 x -> Zpos m <= 2 ^ (k2 - e) ->
  below false (k1 + k2) (SFmul prec emax x (S754_finite false m e)).
Proof.
  intros Hk Hs Hx Hm.
  destruct x as [sx|sx| |sx mx ex]; simpl in Hs, Hx; try contradiction; subst; try discriminate.
  - left. eexists. reflexivity.
  - cbn [SFmul xorb]. apply binary_round_aux_below; [lia|assumption|].
    cbn [inexact]. rewrite Z.add_0_r, Pos2Z.inj_mul.
    destruct (Z.lt_ge_cases (k1 - ex) 0) as [Hn|Hn]; [rewrite pow2_neg in Hx by assumption; lia|].
    destruct (Z.lt_ge_cases (k2 - e) 0) as [Hn'|Hn']; [rewrite pow2_neg in Hm by assumption; lia|].
    replace (k1 + k2 - (ex + e)) with ((k1 - ex) + (k2 - e)) by lia. rewrite pow2_split by lia.
    pose proof (pow2_pos (k1 - ex)). nia.
Qed.

(** ** The same bounds on numbers *)

Lemma Prim2SF_0 : Prim2SF 0%float = S754_zero false.
Proof. reflexivity. Qed.

Lemma Prim2SF_1 : Prim2SF 1%float = pow2F 0.
Proof. reflexivity. Qed.

Lemma leb_0_signed x : (0 <=? x)%float = true <-> signed false (Prim2SF x).
Proof.
  rewrite FloatAxioms.leb_spec, Prim2SF_0. split; [apply nonneg_signed|apply signed_nonneg].
Qed.

Lemma leb_1_at_most x : (x <=? 1)%float = true <-> at_most 0 (Prim2SF x).
Proof.
  rewrite FloatAxioms.leb_spec, Prim2SF_1. pose proof (Prim2SF_valid x). split.
  - apply SFleb_at_most; assumption.
  - apply at_most_SFleb; [assumption|lia].
Qed.

Lemma sub_le_1 x d :
  (x <=? 1)%float = true -> (0 <=? d)%float = true -> (x - d <=? 1)%float = true.
Proof.
  rewrite !leb_1_at_most, leb_0_signed, FloatAxioms.sub_spec. apply SFsub_at_most. lia.
Qed.

Lemma add_nonneg x y :
  (0 <=? x)%float = true -> (0 <=? y)%float = true -> (0 <=? x + y)%float = true.
Proof. rewrite !leb_0_signed, FloatAxioms.add_spec. apply SFadd_signed. Qed.

Lemma mul_nonneg x c :
  (0 <=? x)%float = true -> positive_finite c -> (0 <=? x * c)%float = true.
Proof.
  intros Hx (m & e & Hc). rewrite leb_0_signed in *. rewrite FloatAxioms.mul_spec, Hc.
  apply SFmul_signed; [assumption|reflexivity].
Qed.

(** A factor in [(0, 1]] keeps a number of [[0, 1]] in [[0, 1]]. *)

Lemma mul_unit x c :
  positive_finite c -> (c <=? 1)%float = true ->
  (0 <=? x)%float = true -> (x <=? 1)%float = true ->
  (0 <=? x * c)%float = true /\ (x * c <=? 1)%float = true.
Proof.
  intros (m & e & Hc) Hc1 Hx0 Hx1.
  rewrite leb_1_at_most in Hc1, Hx1. rewrite leb_0_signed in Hx0.
  rewrite Hc in Hc1. cbn [at_most] in Hc1.
  pose proof (SFmul_at_most 0 0 (Prim2SF x) m e ltac:(lia) Hx0 Hx1 Hc1) as Hb.
  rewrite leb_0_signed, leb_1_at_most, FloatAxioms.mul_spec, Hc. split.
  - eapply below_signed, Hb.
  - eapply below_at_most, Hb.
Qed.

Lemma is_nan_signed s x : signed s (Prim2SF x) -> is_nan x = false.
Proof.
  unfold is_nan. rewrite FloatAxioms.eqb_spec. unfold SFeqb, SFcompare.
  destruct (Prim2SF x) as [s'|s'| |s' m e]; simpl; try contradiction; intros _.
  - reflexivity.
  - destruct s'; reflexivity.
  - rewrite Z.compare_refl, Pos.compare_cont_refl. destruct s'; reflexivity.
Qed.

Lemma ltb_leb x y : (x <? y)%float = true -> (x <=? y)%float = true.
Proof.
  rewrite FloatAxioms.ltb_spec, FloatAxioms.leb_spec. unfold SFltb, SFleb.
  destruct (SFcompare _ _) as [[]|]; congruence.
Qed.

Lemma is_neg_zero_spec x : is_neg_zero x = true -> Prim2SF x = S754_zero true.
Proof.
  unfold is_neg_zero. rewrite FloatAxioms.classify_spec. unfold SF64classify, SFclassify.
  destruct (Prim2SF x) as [[]|[]| |[] m e]; try discriminate; try reflexivity;
    destruct (Z.eqb _ _); discriminate.
Qed.

(** [Math.min(a, 1)] of a non-negative number is in [[0, 1]]. *)

Lemma Math_min_unit a :
  (0 <=? a)%float = true ->
  (0 <=? Math_min a 1)%float = true /\ (Math_min a 1 <=? 1)%float = true.
Proof.
  intros Ha. unfold Math_min.
  rewrite (is_nan_signed false a) by (apply leb_0_signed; assumption).
  change (is_nan 1) with false. cbn [orb].
  destruct (a <? 1)%float eqn:E1; [split; [assumption|apply ltb_leb; assumption]|].
  destruct (1 <? a)%float eqn:E2; [split; reflexivity|].
  destruct (is_neg_zero a) eqn:E3; [|split; reflexivity].
  split; [assumption|]. apply is_neg_zero_spec in E3.
  rewrite FloatAxioms.leb_spec, E3. reflexivity.
Qed.

(** [Math.max(1, y)] is at least 1 unless [y] is NaN. *)

Lemma Math_max_one y :
  is_nan y = false -> (1 <=? Math_max 1 y)%float = true.
Proof.
  intros Hy. unfold Math_max. rewrite Hy. change (is_nan 1) with false. cbn [orb].
  destruct (1 <? y)%float eqn:E1; [apply ltb_leb; assumption|].
  destruct (y <? 1)%float eqn:E2; [reflexivity|].
  change (is_neg_zero 1) with false. reflexivity.
Qed.

(** ** Order *)

Lemma SFltb_trans x y z :
  SFltb x y = true -> SFltb y z = true -> SFltb x z = true.
Proof.
  unfold SFltb, SFcompare. intros Hxy Hyz.
  destruct x as [[]|[]| |[] mx ex], y as [[]|[]| |[] my ey], z as [[]|[]| |[] mz ez];
    try discriminate; try reflexivity;
    repeat match goal with
           | H : context [Z.compare ?a ?b] |- _ => destruct (Z.compare_spec a b)
           | |- context [Z.compare ?a ?b] => destruct (Z.compare_spec a b)
           | H : context [Pos.compare_cont Eq ?a ?b] |- _ =>
               change (Pos.compare_cont Eq a b) with (Pos.compare a b) in *;
               destruct (Pos.compare_spec a b)
           | |- context [Pos.compare_cont Eq ?a ?b] =>
               change (Pos.compare_cont Eq a b) with (Pos.compare a b) in *;
               destruct (Pos.compare_spec a b)
           end; cbn [CompOpp] in *; try discriminate; try reflexivity; lia.
Qed.

Lemma ltb_trans x y z :
  (x <? y)%float = true -> (y <? z)%float = true -> (x <? z)%float = true.
Proof. rewrite !FloatAxioms.ltb_spec. apply SFltb_trans. Qed.

(** ** Multiplying a number of [[0, 1)] by 4 *)

Lemma digits2_pos_unique p d :
  2 ^ (d - 1) <= Zpos p < 2 ^ d -> Zpos (digits2_pos p) = d.
Proof.
  intros [Hlo Hhi]. pose proof (digits2_pos_bounds p) as [Hlo' Hhi'].
  destruct (Z.lt_trichotomy (Zpos (digits2_pos p)) d) as [H|[H|H]]; [exfalso|assumption|exfalso].
  - assert (2 ^ Zpos (digits2_pos p) <= 2 ^ (d - 1)) by (apply Z.pow_le_mono_r; lia). lia.
  - assert (2 ^ d <= 2 ^ (Zpos (digits2_pos p) - 1)) by (apply Z.pow_le_mono_r; lia). lia.
Qed.

Lemma digits2_pos_shift m :
  Zpos (digits2_pos (m * 4503599627370496)) = Zpos (digits2_pos m) + 52.
Proof.
  apply digits2_pos_unique. pose proof (digits2_pos_bounds m) as [Hlo Hhi].
  rewrite Pos2Z.inj_mul, <- pow2_52.
  replace (Zpos (digits2_pos m) + 52 - 1) with ((Zpos (digits2_pos m) - 1) + 52) by lia.
  rewrite !pow2_split by lia. pose proof (pow2_pos 52). nia.
Qed.

Lemma SFmul_4_strict u :
  valid_binary u = true -> signed false u -> SFltb u (pow2F 0) = true ->
  strictly_below false 2 (SFmul prec emax u (pow2F 2)).
Proof.
  intros Hv Hs Hlt.
  destruct u as [s|s| |s m e]; simpl in Hs; try contradiction; subst; try discriminate.
  - left. eexists. reflexivity.
  - cbn [valid_binary] in Hv. pose proof (SFltb_strictly_below m e 0 Hv Hlt) as Hb.
    pose proof (bounded_canonical m e Hv) as (Hd & He & Hc).
    unfold pow2F. cbn [SFmul xorb].
    assert (0 <= - e) as Hne.
    { destruct (Z.lt_ge_cases (- e) 0); [|assumption]. rewrite pow2_neg in Hb by lia. lia. }
    apply binary_round_aux_strictly_below; try lia.
    + rewrite Pos2Z.inj_mul, <- pow2_52.
      replace (2 - (e + (2 - 52))) with ((0 - e) + 52) by lia.
      rewrite pow2_split by lia. pose proof (pow2_pos 52). nia.
    + cbn [Zdigits2]. rewrite digits2_pos_shift, fexp_eq. intros n En Hn.
      assert (n <= 52) as Hn52 by lia.
      rewrite Pos2Z.inj_mul, <- pow2_52.
      replace 52 with ((52 - n) + n) at 1 by lia. rewrite pow2_split by lia.
      rewrite Z.mul_assoc. apply Z.mod_mul. pose proof (pow2_pos n). lia.
Qed.

Lemma Math_floor_mul_4 u :
  (0 <=? u)%float = true -> (u <? 1)%float = true ->
  exists z, Math_floor (u * 4)%float = Some z /\ 0 <= z < 4.
Proof.
  intros H0 H1. rewrite leb_0_signed in H0. rewrite FloatAxioms.ltb_spec, Prim2SF_1 in H1.
  pose proof (SFmul_4_strict (Prim2SF u) (Prim2SF_valid u) H0 H1) as Hb.
  unfold Math_floor. rewrite FloatAxioms.mul_spec. change (Prim2SF 4) with (pow2F 2).
  unfold SF64mul. destruct Hb as [[s ->]|(m & e & -> & Hb)].
  - exists 0. split; [reflexivity|lia].
  - exists (Z.shiftl (Zpos m) e). split; [reflexivity|]. cbn [cond_Zopp].
    split; [apply Z.shiftl_nonneg; lia|].
    destruct (Z.lt_ge_cases e 0) as [He|He].
    + rewrite Z.shiftl_div_pow2 by lia. apply Z.div_lt_upper_bound; [apply pow2_pos; lia|].
      replace (2 - e) with ((- e) + 2) in Hb by lia. rewrite pow2_split in Hb by lia.
      change (2 ^ 2) with 4 in Hb. lia.
    + rewrite Z.shiftl_mul_pow2 by lia.
      destruct (Z.lt_ge_cases (2 - e) 0) as [Hn|Hn]; [rewrite pow2_neg in Hb by assumption; lia|].
      assert (2 ^ (2 - e) * 2 ^ e = 4) as E4.
      { rewrite <- pow2_split by lia. replace (2 - e + e) with 2 by lia. reflexivity. }
      pose proof (pow2_pos e). nia.
Qed.

(** ** The reciprocal of a number that is at least 1 *)

Lemma inexact_new_location nb r :
  inexact (new_location nb r) = 0 \/ (inexact (new_location nb r) = 1 /\ r <> 0).
Proof.
  unfold new_location, new_location_even, new_location_odd.
  destruct (Z.eqb_spec r 0) as [->|Hr].
  - left. destruct (Z.even nb); reflexivity.
  - right. split; [|assumption]. apply Z.eqb_neq in Hr.
    destruct (Z.even nb); rewrite Hr; reflexivity.
Qed.

Lemma SFdiv_one_below z :
  valid_binary z = true -> SFleb (pow2F 0) z = true ->
  below false 0 (SFdiv prec emax (pow2F 0) z).
Proof.
  intros Hv Hle. unfold pow2F in *.
  destruct z as [s|[]| |[] m2 e2]; try discriminate.
  - left. eexists. reflexivity.
  - cbn [valid_binary] in Hv. apply SFleb_finite in Hle.
    pose proof (bounded_canonical m2 e2 Hv) as (Hd & He & Hc).
    pose proof (digits2_pos_bounds m2) as [Hlo Hhi].
    assert (2 ^ (0 - e2) <= Zpos m2) as HA.
    { destruct Hle as [E|[E H]].
      - pose proof (canonical_above m2 e2 0 Hv ltac:(lia) E). lia.
      - rewrite <- E. rewrite <- pow2_52 in H. exact H. }
    assert (1 <= Zpos (digits2_pos m2) + e2) as Hmag.
    { destruct (Z.lt_ge_cases 0 e2); [lia|].
      destruct (Z.lt_ge_cases (Zpos (digits2_pos m2) + e2) 1); [|assumption].
      assert (2 ^ Zpos (digits2_pos m2) <= 2 ^ (0 - e2)) by (apply Z.pow_le_mono_r; lia).
      lia. }
    cbn [SFdiv xorb]. unfold SFdiv_core_binary.
    change (Zdigits2 (Z.pos 4503599627370496)) with 53. cbn [Zdigits2].
    set (e' := Z.min _ _).
    assert (e' <= -53 /\ e' <= -52 - e2) as [He1 He2] by (subst e'; rewrite fexp_eq; lia).
    set (s := 0 - 52 - e2 - e').
    assert (0 <= s) as Hs by (subst s; lia).
    match goal with |- context [Z.div_eucl ?a _] => set (m' := a) end.
    assert (m' = 2 ^ (52 + s)) as Em'.
    { subst m'. destruct s as [|p|p] eqn:Es.
      - reflexivity.
      - rewrite Z.shiftl_mul_pow2 by lia. rewrite <- pow2_52, <- pow2_split by lia. reflexivity.
      - lia. }
    pose proof (Z_div_mod m' (Zpos m2) ltac:(lia)) as Hdm.
    destruct (Z.div_eucl m' (Zpos m2)) as [q r]. destruct Hdm as [Hdm Hr].
    assert (0 < m') as Hm' by (rewrite Em'; apply pow2_pos; lia).
    assert (0 <= q) as Hq by nia.
    apply binary_round_aux_below; [assumption|lia|].
    pose proof (pow2_pos (0 - e') ltac:(lia)) as HQ.
    destruct (Z.lt_ge_cases 0 e2) as [Hpos|Hneg].
    + assert (2 ^ (0 - e') = 2 ^ e2 * m') as EQ.
      { rewrite Em', <- pow2_split by lia. f_equal. subst s. lia. }
      assert (2 <= 2 ^ e2).
      { change 2 with (2 ^ 1) at 1. apply Z.pow_le_mono_r; lia. }
      destruct (inexact_new_location (Zpos m2) r) as [->|[-> _]]; nia.
    + assert (m' = 2 ^ (0 - e2) * 2 ^ (0 - e')) as EQ.
      { rewrite Em', <- pow2_split by lia. f_equal. subst s. lia. }
      pose proof (pow2_pos (0 - e2) ltac:(lia)) as HP.
      destruct (inexact_new_location (Zpos m2) r) as [->|[-> Hr0]]; nia.
Qed.

Lemma div_one x :
  (1 <=? x)%float = true ->
  (0 <=? 1 / x)%float = true /\ (1 / x <=? 1)%float = true.
Proof.
  intros H. rewrite FloatAxioms.leb_spec, Prim2SF_1 in H.
  pose proof (SFdiv_one_below (Prim2SF x) (Prim2SF_valid x) H) as Hb.
  rewrite leb_0_signed, leb_1_at_most, FloatAxioms.div_spec, Prim2SF_1. split.
  - eapply below_signed, Hb.
  - eapply below_at_most, Hb.
Qed.

(** ** Decay steps, exactly *)

Local Open Scope Z_scope.

Lemma shl_align_exp m e e' : snd (shl_align m e e') = Z.min e e'.
Proof.
  unfold shl_align. destruct (e' - e) as [|d|d] eqn:E; cbn [snd]; lia.
Qed.

(** Rounding a value below 1 adds at most [2^-53]. *)
Lemma binary_round_aux_error s mx ex m e :
  0 <= mx -> -1074 <= ex -> mx < 2 ^ (0 - ex) ->
  binary_round_aux prec emax s mx ex loc_Exact = S754_finite s m e ->
  Zpos m * 2 ^ (e + 1074) <= mx * 2 ^ (ex + 1074) + 2 ^ 1021.
Proof.
  intros Hm Hex Hb Hres.
  destruct (binary_round_aux_spec s mx ex loc_Exact Hm)
    as (m1 & e1 & m2 & e2 & Hr & Hm2 & He & H21 & Hc).
  rewrite Hres in Hr. inversion Hr as [|m' Em2 He2|]; subst m' e2. clear Hr.
  assert (0 <= 0 - ex) as Hnex.
  { destruct (Z.lt_ge_cases (0 - ex) 0); [|assumption]. rewrite pow2_neg in Hb by assumption. lia. }
  set (A := 2 ^ (ex + 1074)). assert (0 < A) as HA by (apply pow2_pos; lia).
  pose proof (pow2_pos (e - e1) ltac:(lia)) as Hp21.
  assert (ex <= e1) as Hee by (destruct Hc as [(?&?&?)|(?&?&?)]; lia).
  assert (2 ^ (e + 1074) = 2 ^ (e - e1) * 2 ^ (e1 - ex) * A) as Esplit.
  { unfold A. rewrite <- pow2_split by lia. rewrite <- pow2_split by lia. f_equal. lia. }
  rewrite Esplit, <- Em2.
  destruct Hc as [(Hn & -> & Hm1 & Hex')|(Hn & -> & Hm1 & Hup)].
  - rewrite (Hex' eq_refl) in H21. rewrite Z.sub_diag, Z.mul_1_r.
    pose proof (pow2_pos 1021). nia.
  - set (n := fexp prec emax (Zdigits2 mx + ex) - ex) in *.
    replace (ex + n - ex) with n by lia.
    pose proof (pow2_pos n ltac:(lia)) as Hpn.
    pose proof (Z.mul_div_le mx (2 ^ n) Hpn) as Hfloor.
    assert (2 ^ n * A <= 2 ^ 1021) as Herr.
    { unfold A. rewrite <- pow2_split by lia. apply Z.pow_le_mono_r; [lia|].
      assert (Zdigits2 mx + ex <= 0).
      { destruct mx as [|p|p]; [cbn; lia| |lia]. cbn [Zdigits2].
        pose proof (digits_le_of_lt_pow2 p (0 - ex) Hb). lia. }
      unfold n. rewrite fexp_eq. lia. }
    assert (m2 * 2 ^ (e - (ex + n)) * 2 ^ n <= mx + 2 ^ n) by nia.
    nia.
Qed.

Lemma binary_round_error s m0 e0 m e :
  -1074 <= e0 -> Zpos m0 < 2 ^ (0 - e0) ->
  binary_round prec emax s m0 e0 = S754_finite s m e ->
  Zpos m * 2 ^ (e + 1074) <= Zpos m0 * 2 ^ (e0 + 1074) + 2 ^ 1021.
Proof.
  intros He0 Hb. unfold binary_round.
  pose proof (shl_align_spec m0 e0 (fexp prec emax (Zpos (digits2_pos m0) + e0))) as (H1 & H2 & _).
  pose proof (shl_align_exp m0 e0 (fexp prec emax (Zpos (digits2_pos m0) + e0))) as H3.
  destruct (shl_align _ _ _) as [mz ez]. cbn [fst snd] in *.
  assert (-1074 <= ez) as Hez by (rewrite H3, fexp_eq; lia).
  assert (0 <= 0 - e0) as Hne.
  { destruct (Z.lt_ge_cases (0 - e0) 0); [|assumption]. rewrite pow2_neg in Hb by assumption. lia. }
  intros Hres.
  assert (Zpos mz * 2 ^ (ez + 1074) = Zpos m0 * 2 ^ (e0 + 1074)) as Eval.
  { rewrite H2. replace (e0 + 1074) with ((e0 - ez) + (ez + 1074)) by lia.
    rewrite (pow2_split (e0 - ez) (ez + 1074)) by lia. ring. }
  rewrite <- Eval. apply (binary_round_aux_error s); try lia; [|exact Hres].
  rewrite H2. replace (0 - ez) with ((0 - e0) + (e0 - ez)) by lia.
  rewrite pow2_split by lia. pose proof (pow2_pos (e0 - ez)). nia.
Qed.

Lemma signed_not_positive x : signed true x -> SFltb (S754_zero false) x = false.
Proof. destruct x as [s|s| |s m e]; simpl; try contradiction; intros H; subst; reflexivity. Qed.

Lemma SFsub_step x md ed :
  valid_binary x = true -> bounded prec emax md ed = true -> at_most 0 x ->
  valid_binary (SFsub prec emax x (S754_finite false md ed)) = true ->
  SFltb (S754_zero false) (SFsub prec emax x (S754_finite false md ed)) = true ->
  scaled (SFsub prec emax x (S754_finite false md ed)) <=
    scaled x - scaled (S754_finite false md ed) + 2 ^ 1021 /\
  0 < scaled (SFsub prec emax x (S754_finite false md ed)) /\
  scaled x <= 2 ^ 1074.
Proof.
  intros Hvx Hvd Hx Hvr Hpos.
  destruct x as [sx|sx| |sx mx ex]; cbn [at_most] in Hx; try contradiction;
    try (subst; discriminate Hpos).
  cbn [valid_binary] in Hvx.
  pose proof (bounded_canonical mx ex Hvx) as (_ & Hex & _).
  pose proof (bounded_canonical md ed Hvd) as (_ & Hed & _).
  cbn [SFsub] in *.
  pose proof (shl_align_spec mx ex (Z.min ex ed)) as (_ & Hvx' & Hex').
  pose proof (shl_align_spec md ed (Z.min ex ed)) as (_ & Hvd' & Hed').
  specialize (Hex' ltac:(lia)). specialize (Hed' ltac:(lia)).
  set (ez := Z.min ex ed) in *.
  destruct (shl_align mx ex ez) as [mx' ex']. destruct (shl_align md ed ez) as [md' ed'].
  cbn [fst snd cond_Zopp] in *. subst ex' ed'.
  destruct (cond_Zopp sx (Z.pos mx') - Z.pos md') as [|p|p] eqn:E; cbn [binary_normalize] in *.
  - discriminate Hpos.
  - destruct sx; cbn [cond_Zopp] in E; [lia|]. cbn [at_most] in Hx.
    assert (0 <= 0 - ex) as Hnex.
    { destruct (Z.lt_ge_cases (0 - ex) 0); [|assumption]. rewrite pow2_neg in Hx by assumption. lia. }
    assert (Zpos mx' <= 2 ^ (0 - ez)) as Hbx.
    { rewrite Hvx'. replace (0 - ez) with ((0 - ex) + (ex - ez)) by lia.
      rewrite pow2_split by lia. pose proof (pow2_pos (ex - ez)). nia. }
    destruct (binary_round_below false p ez 0 ltac:(lia) ltac:(lia)) as [[s' Hz]|(m & e & Hr & _)].
    + rewrite Hz in Hpos. discriminate Hpos.
    + rewrite Hr in *. cbn [valid_binary] in Hvr.
      pose proof (bounded_canonical m e Hvr) as (_ & He & _).
      pose proof (binary_round_error false p ez m e ltac:(lia) ltac:(lia) Hr) as Herr.
      cbn [scaled cond_Zopp].
      assert (Zpos mx' * 2 ^ (ez + 1074) = Zpos mx * 2 ^ (ex + 1074)) as Ex.
      { rewrite Hvx'. replace (ex + 1074) with ((ex - ez) + (ez + 1074)) by lia.
        rewrite (pow2_split (ex - ez) (ez + 1074)) by lia. ring. }
      assert (Zpos md' * 2 ^ (ez + 1074) = Zpos md * 2 ^ (ed + 1074)) as Ed.
      { rewrite Hvd'. replace (ed + 1074) with ((ed - ez) + (ez + 1074)) by lia.
        rewrite (pow2_split (ed - ez) (ez + 1074)) by lia. ring. }
      pose proof (pow2_pos (e + 1074) ltac:(lia)).
      split; [|split].
      * rewrite <- Ex, <- Ed. replace (Zpos p) with (Zpos mx' - Zpos md') in Herr by lia. lia.
      * lia.
      * assert (2 ^ 1074 = 2 ^ (0 - ex) * 2 ^ (ex + 1074)) as ->.
        { rewrite <- pow2_split by lia. f_equal. lia. }
        pose proof (pow2_pos (ex + 1074) ltac:(lia)). nia.
  - rewrite signed_not_positive in Hpos by apply binary_round_signed. discriminate Hpos.
Qed.

Lemma scaled_lower md ed :
  bounded prec emax md ed = true ->
  SFleb (pow2F (-7)) (S754_finite false md ed) = true ->
  2 ^ 1067 <= scaled (S754_finite false md ed).
Proof.
  intros Hv H. cbn [scaled cond_Zopp]. unfold pow2F in H. apply SFleb_finite in H.
  pose proof (bounded_canonical md ed Hv) as (_ & He & _).
  pose proof (pow2_pos (ed + 1074) ltac:(lia)) as Hp.
  destruct (Z.lt_ge_cases (-7) ed) as [Hbig|Hsmall].
  - assert (2 ^ 1067 <= 2 ^ (ed + 1074)) by (apply Z.pow_le_mono_r; lia). nia.
  - assert (2 ^ (-7 - ed) <= Zpos md) as Hm.
    { destruct H as [E|[E H]].
      - pose proof (canonical_above md ed (-7) Hv ltac:(lia) ltac:(lia)). lia.
      - rewrite <- pow2_52 in H. replace (-7 - ed) with 52 by lia. exact H. }
    assert (2 ^ 1067 = 2 ^ (-7 - ed) * 2 ^ (ed + 1074)) as ->.
    { rewrite <- pow2_split by lia. f_equal. lia. }
    nia.
Qed.

Lemma Prim2SF_pow2_m7 : Prim2SF 0.0078125%float = pow2F (-7).
Proof. reflexivity. Qed.

(** One decay step that leaves a positive life. *)
Lemma sub_step l d :
  (l <=? 1)%float = true -> (0.0078125 <=? d)%float = true ->
  (0 <? l - d)%float = true ->
  scaledF (l - d)%float <= scaledF l - scaledF d + 2 ^ 1021 /\
  0 < scaledF (l - d)%float /\ scaledF l <= 2 ^ 1074 /\ 2 ^ 1067 <= scaledF d.
Proof.
  intros Hl Hd Hpos. unfold scaledF.
  rewrite leb_1_at_most in Hl.
  rewrite FloatAxioms.leb_spec, Prim2SF_pow2_m7 in Hd.
  rewrite FloatAxioms.ltb_spec, Prim2SF_0 in Hpos.
  pose proof (Prim2SF_valid l) as Hvl. pose proof (Prim2SF_valid d) as Hvd.
  pose proof (Prim2SF_valid (l - d)%float) as Hvr.
  rewrite FloatAxioms.sub_spec in *. unfold SF64sub in *.
  destruct (Prim2SF d) as [sd|sd| |sd md ed]; try discriminate Hd.
  - exfalso. destruct sd; [discriminate Hd|].
    destruct (Prim2SF l) as [s|[]| |s m e]; cbn in Hl, Hpos; try contradiction; discriminate.
  - destruct sd; [discriminate Hd|]. cbn [valid_binary] in Hvd.
    destruct (SFsub_step (Prim2SF l) md ed Hvl Hvd Hl Hvr Hpos) as (H1 & H2 & H3).
    repeat split; try assumption. apply scaled_lower; assumption.
Qed.

Lemma ge_pow2_m7_nonneg d : (0.0078125 <=? d)%float = true -> (0 <=? d)%float = true.
Proof.
  rewrite FloatAxioms.leb_spec, Prim2SF_pow2_m7, leb_0_signed. unfold pow2F.
  destruct (Prim2SF d) as [s|[]| |[] m e]; simpl; try discriminate; auto.
Qed.

Lemma lifeAfter_bound d k : forall l,
  (l <=? 1)%float = true -> (0.0078125 <=? d)%float = true -> (1 <= k)%nat ->
  (forall j, (1 <= j <= k)%nat -> (0 <? lifeAfter j l d)%float = true) ->
  scaledF (lifeAfter k l d) <= scaledF l - Z.of_nat k * (scaledF d - 2 ^ 1021) /\
  0 < scaledF (lifeAfter k l d) /\ scaledF l <= 2 ^ 1074.
Proof.
  induction k as [|k IH]; intros l Hl Hd Hk Hpos; [lia|].
  assert ((0 <? l - d)%float = true) as H1 by (apply (Hpos 1%nat); lia).
  destruct (sub_step l d Hl Hd H1) as (Hs & Hp & Hu & _).
  cbn [lifeAfter]. destruct k as [|k'].
  - cbn [lifeAfter]. split; [|split]; [lia|assumption|assumption].
  - destruct (IH (l - d)%float) as (IH1 & IH2 & _).
    + apply sub_le_1; [exact Hl|apply ge_pow2_m7_nonneg; exact Hd].
    + exact Hd.
    + lia.
    + intros j Hj. apply (Hpos (S j)). lia.
    + split; [|split]; [|assumption|assumption].
      rewrite Nat2Z.inj_succ. rewrite Nat2Z.inj_succ in IH1. lia.
Qed.

Lemma bounded_search (b : nat -> bool) k :
  (forall j, (1 <= j <= k)%nat -> b j = true) \/
  (exists j, (1 <= j <= k)%nat /\ b j = false).
Proof.
  induction k as [|k [IH|(j & Hj & Hb)]].
  - left. intros j Hj. lia.
  - destruct (b (S k)) eqn:E.
    + left. intros j Hj. destruct (Nat.eq_dec j (S k)) as [->|]; [exact E|apply IH; lia].
    + right. exists (S k). split; [lia|exact E].
  - right. exists j. split; [lia|exact Hb].
Qed.

(** With [life <= 1] and [decay >= 2^-7], life is used up within
    [ceil (1 / decay) + 1] decay steps. *)
Lemma expiry_exists l d :
  (l <=? 1)%float = true -> (0.0078125 <=? d)%float = true ->
  exists j, (1 <= j <= ceil_reciprocal d + 1)%nat /\ (0 <? lifeAfter j l d)%float = false.
Proof.
  intros Hl Hd.
  destruct (bounded_search (fun j => (0 <? lifeAfter j l d)%float) (ceil_reciprocal d + 1))
    as [Hall|Hex]; [exfalso|exact Hex].
  destruct (lifeAfter_bound d (ceil_reciprocal d + 1) l Hl Hd ltac:(lia) Hall) as (Hb & Hp & Hu).
  assert (2 ^ 1067 <= scaledF d) as HD.
  { assert ((0 <? l - d)%float = true) as H1 by (apply (Hall 1%nat); lia).
    apply (sub_step l d Hl Hd H1). }
  unfold ceil_reciprocal in Hb, Hp. set (D := scaledF d) in *.
  assert (0 < 2 ^ 1021) as HP by (apply pow2_pos; lia).
  assert (2 ^ 1067 = 70368744177664 * 2 ^ 1021) as E67.
  { change 70368744177664 with (2 ^ 46). rewrite <- pow2_split by lia. reflexivity. }
  assert (2 ^ 1074 = 9007199254740992 * 2 ^ 1021) as E74.
  { change 9007199254740992 with (2 ^ 53). rewrite <- pow2_split by lia. reflexivity. }
  rewrite E67 in HD. rewrite E74 in Hb, Hp, Hu. clear E67 E74. set (P := 2 ^ 1021) in *.
  assert (0 < D) as HDpos by lia.
  pose proof (Z.div_mod (9007199254740992 * P + D - 1) D ltac:(lia)) as Hdm.
  pose proof (Z.mod_pos_bound (9007199254740992 * P + D - 1) D HDpos) as Hmod.
  set (q := (9007199254740992 * P + D - 1) / D) in *.
  assert (0 <= q <= 128) as Hq.
  { split; [apply Z.div_pos; lia|]. apply Z.lt_succ_r. apply Z.div_lt_upper_bound; lia. }
  rewrite Nat2Z.inj_add, Z2Nat.id in Hb by lia. change (Z.of_nat 1) with 1 in Hb.
  assert (q * P <= 128 * P) as HqP by nia.
  assert (9007199254740992 * P <= D * q) as HqD by lia.
  replace ((q + 1) * (D - P)) with (D * q - q * P + D - P) in Hb by ring.
  lia.
Qed.

(** ** Sums that stay above a power of two *)

Lemma Zdigits2_bounds mx : 0 < mx -> 2 ^ (Zdigits2 mx - 1) <= mx < 2 ^ Zdigits2 mx.
Proof. destruct mx as [|p|p]; try lia. intros _. apply digits2_pos_bounds. Qed.

(** The second shift of [binary_round_aux], exactly. *)
Lemma shr_fexp_exact_eq m1 e1 :
  0 <= m1 ->
  let n2 := Z.max 0 (fexp prec emax (Zdigits2 m1 + e1) - e1) in
  snd (shr_fexp prec emax m1 e1 loc_Exact) = e1 + n2 /\
  shr_m (fst (shr_fexp prec emax m1 e1 loc_Exact)) = m1 / 2 ^ n2.
Proof.
  intros Hm n2. subst n2. unfold shr_fexp.
  destruct (fexp prec emax (Zdigits2 m1 + e1) - e1) as [|p|p] eqn:En;
    unfold shr; cbn [fst snd shr_record_of_loc shr_m].
  - change (Z.max 0 0) with 0. rewrite Z.add_0_r, Z.div_1_r. split; reflexivity.
  - rewrite shr_iter_m by (cbn [shr_m]; lia). cbn [shr_m].
    replace (Z.max 0 (Z.pos p)) with (Z.pos p) by lia. split; reflexivity.
  - replace (Z.max 0 (Z.neg p)) with 0 by lia. rewrite Z.add_0_r, Z.div_1_r. split; reflexivity.
Qed.

(** Rounding a value that is at least [2^k] gives at least [2^k]. *)
Lemma binary_round_aux_above mx ex k :
  0 < mx -> -1074 <= ex -> 2 ^ (k - ex) <= mx ->
  at_least k (binary_round_aux prec emax false mx ex loc_Exact).
Proof.
  intros Hm Hex Hb.
  pose proof (shr_fexp_round mx ex loc_Exact ltac:(lia)) as H1.
  pose proof (Zdigits2_bounds mx Hm) as [Hdlo Hdhi].
  unfold binary_round_aux.
  destruct (shr_fexp prec emax mx ex loc_Exact) as [mrs' e'] eqn:E1.
  cbv zeta in H1. cbn [fst snd] in H1.
  set (m1 := round_nearest_even (shr_m mrs') (loc_of_shr_record mrs')) in *.
  rewrite fexp_eq in H1.
  assert (-1074 <= e' /\ 0 < m1 /\ 2 ^ (k - e') <= m1) as (He' & Hm1 & Hb1).
  { destruct H1 as [(Hn & -> & Hm1 & _)|(Hn & -> & Hm1 & _)].
    - repeat split; lia.
    - set (n := Z.max (Zdigits2 mx + ex - 53) (-1074) - ex) in *.
      assert (n = Zdigits2 mx - 53) as En by lia.
      pose proof (pow2_pos n ltac:(lia)) as Hpn.
      assert (2 ^ 52 <= mx / 2 ^ n) as Hq.
      { apply Z.div_le_lower_bound; [lia|]. rewrite <- pow2_split by lia.
        replace (n + 52) with (Zdigits2 mx - 1) by lia. lia. }
      pose proof (pow2_pos 52 ltac:(lia)).
      split; [lia|]. split; [lia|].
      destruct (Z.lt_ge_cases (k - (ex + n)) 0) as [Hneg|Hpos];
        [rewrite pow2_neg by assumption; lia|].
      assert (2 ^ (k - (ex + n)) <= mx / 2 ^ n); [|lia].
      apply Z.div_le_lower_bound; [lia|]. rewrite <- pow2_split by lia.
      replace (n + (k - (ex + n))) with (k - ex) by lia. exact Hb. }
  pose proof (shr_fexp_exact_eq m1 e' ltac:(lia)) as (H2e & H2m).
  destruct (shr_fexp prec emax m1 e' loc_Exact) as [mrs'' e''] eqn:E2.
  cbn [fst snd] in H2e, H2m. rewrite fexp_eq in H2e, H2m.
  pose proof (Zdigits2_bounds m1 Hm1) as [Hd1lo Hd1hi].
  assert (0 <= Z.max 0 (Z.max (Zdigits2 m1 + e' - 53) (-1074) - e')
          <= Z.max 0 (Zdigits2 m1 - 53)) as Hn2 by (clear - He'; lia).
  set (n2 := Z.max 0 (Z.max (Zdigits2 m1 + e' - 53) (-1074) - e')) in *.
  clearbody n2. clear H1 Hdlo Hdhi Hb E1 E2.
  pose proof (pow2_pos n2 ltac:(lia)) as Hpn2.
  assert (2 ^ n2 <= m1) as Hle.
  { destruct (Z.eq_dec n2 0) as [->|]; [change (2 ^ 0) with 1; lia|].
    assert (2 ^ n2 <= 2 ^ (Zdigits2 m1 - 1)) by (apply Z.pow_le_mono_r; lia). lia. }
  assert (1 <= m1 / 2 ^ n2) as Hq2.
  { apply Z.div_le_lower_bound; lia. }
  rewrite H2m. destruct (m1 / 2 ^ n2) as [|m|m] eqn:Em; try lia.
  change (Z.sub emax prec) with 971.
  destruct (e'' <=? 971); cbn [at_least]; [|exact I].
  destruct (Z.lt_ge_cases (k - e'') 0) as [Hneg|Hpos]; [rewrite pow2_neg by assumption; lia|].
  rewrite <- Em. apply Z.div_le_lower_bound; [lia|]. rewrite <- pow2_split by lia.
  replace (n2 + (k - e'')) with (k - e') by lia. exact Hb1.
Qed.

Lemma binary_round_above m0 e0 k :
  -1074 <= e0 -> 2 ^ (k - e0) <= Zpos m0 ->
  at_least k (binary_round prec emax false m0 e0).
Proof.
  intros He0 Hb. unfold binary_round.
  pose proof (shl_align_spec m0 e0 (fexp prec emax (Zpos (digits2_pos m0) + e0))) as (H1 & H2 & _).
  pose proof (shl_align_exp m0 e0 (fexp prec emax (Zpos (digits2_pos m0) + e0))) as H3.
  destruct (shl_align _ _ _) as [mz ez]. cbn [fst snd] in *.
  assert (-1074 <= ez) as Hez by (rewrite H3, fexp_eq; lia).
  apply binary_round_aux_above; [lia|exact Hez|].
  rewrite H2.
  destruct (Z.lt_ge_cases (k - ez) 0) as [Hneg|Hpos]; [rewrite pow2_neg by assumption; lia|].
  pose proof (pow2_pos (e0 - ez) ltac:(lia)).
  destruct (Z.lt_ge_cases (k - e0) 0) as [Hneg'|Hpos'].
  - assert (2 ^ (k - ez) <= 2 ^ (e0 - ez)) by (apply Z.pow_le_mono_r; lia). nia.
  - replace (k - ez) with ((k - e0) + (e0 - ez)) by lia. rewrite pow2_split by lia. nia.
Qed.

(** Adding a non-negative value to one that is at least [2^k]. *)
Lemma SFadd_at_least k mc ec t :
  bounded prec emax mc ec = true -> valid_binary t = true ->
  2 ^ (k - ec) <= Zpos mc -> signed false t ->
  at_least k (SFadd prec emax (S754_finite false mc ec) t).
Proof.
  intros Hvc Hvt Hc Ht.
  pose proof (bounded_canonical mc ec Hvc) as (_ & Hec & _).
  destruct t as [s|s| |s mt et]; cbn [signed] in Ht; try contradiction; subst;
    cbn [SFadd at_least]; try exact Hc; try exact I.
  cbn [valid_binary] in Hvt. pose proof (bounded_canonical mt et Hvt) as (_ & Het & _).
  pose proof (shl_align_spec mc ec (Z.min ec et)) as (_ & Hvc' & Hec').
  pose proof (shl_align_spec mt et (Z.min ec et)) as (_ & Hvt' & Het').
  specialize (Hec' ltac:(lia)). specialize (Het' ltac:(lia)).
  set (ez := Z.min ec et) in *.
  destruct (shl_align mc ec ez) as [mc' ec']. destruct (shl_align mt et ez) as [mt' et'].
  cbn [fst snd cond_Zopp] in *. subst ec' et'.
  change (Z.pos mc' + Z.pos mt') with (Z.pos (mc' + mt')). cbn [binary_normalize].
  apply binary_round_above; [lia|]. rewrite Pos2Z.inj_add, Hvc'.
  pose proof (pow2_pos (ec - ez) ltac:(lia)).
  destruct (Z.lt_ge_cases (k - ez) 0) as [Hneg|Hpos]; [rewrite pow2_neg by assumption; lia|].
  destruct (Z.lt_ge_cases (k - ec) 0) as [Hneg'|Hpos'].
  - assert (2 ^ (k - ez) <= 2 ^ (ec - ez)) by (apply Z.pow_le_mono_r; lia). nia.
  - replace (k - ez) with ((k - ec) + (ec - ez)) by lia. rewrite pow2_split by lia. nia.
Qed.

Lemma at_least_SFleb k x :
  valid_binary x = true -> at_least k x -> SFleb (pow2F k) x = true.
Proof.
  intros Hv H. destruct x as [s|[]| |[] m e]; cbn [at_least] in H; try contradiction;
    try reflexivity.
  cbn [valid_binary] in Hv. unfold pow2F.
  apply SFleb_finite.
  destruct (Z.lt_trichotomy (k - 52) e) as [E|[E|E]]; [left; exact E| |exfalso].
  - right. split; [exact E|]. rewrite <- pow2_52. replace 52 with (k - e) by lia. exact H.
  - pose proof (canonical_under m e k Hv E). lia.
Qed.

(** A positive constant that is at least [2^-7], plus a non-negative
    number, is at least [2^-7]. *)
Lemma add_at_least c t :
  positive_finite c -> (0.0078125 <=? c)%float = true -> (0 <=? t)%float = true ->
  (0.0078125 <=? c + t)%float = true.
Proof.
  intros (mc & ec & Hc) Hle Ht.
  rewrite leb_0_signed in Ht. rewrite FloatAxioms.leb_spec, Prim2SF_pow2_m7 in *.
  pose proof (Prim2SF_valid c) as Hvc. pose proof (Prim2SF_valid t) as Hvt.
  pose proof (Prim2SF_valid (c + t)%float) as Hvr.
  rewrite FloatAxioms.add_spec in *. unfold SF64add in *. rewrite Hc in *.
  cbn [valid_binary] in Hvc.
  apply at_least_SFleb; [exact Hvr|]. apply SFadd_at_least; try assumption.
  unfold pow2F in Hle. apply SFleb_finite in Hle.
  pose proof (bounded_canonical mc ec Hvc) as (_ & Hec & _).
  destruct (Z.lt_ge_cases (-7 - ec) 0) as [Hneg|Hpos]; [rewrite pow2_neg by assumption; lia|].
  destruct Hle as [E|[E H]].
  - pose proof (canonical_above mc ec (-7) Hvc ltac:(lia) ltac:(lia)). lia.
  - rewrite <- pow2_52 in H. replace (-7 - ec) with 52 by lia. exact H.
Qed.

(** ** The emitter state machine *)

Local Open Scope float_scope.

Section EmitterProperties.

Variable Math_cos Math_sin : number -> number.
Variable Math_random : nat -> number.

Local Abbreviation createTrailParticle := (createTrailParticle Math_cos Math_sin Math_random).
Local Abbreviation createBurstParticle := (createBurstParticle Math_cos Math_sin Math_random).
Local Abbreviation createBurstParticles := (createBurstParticles Math_cos Math_sin Math_random).
Local Abbreviation trigger := (trigger Math_cos Math_sin Math_random).
Local Abbreviation emitTrails := (emitTrails Math_cos Math_sin Math_random).
Local Abbreviation updateEmitter := (updateEmitter Math_cos Math_sin Math_random).

Lemma spawned_app w w' ps :
  particlesRef w' = particlesRef w ++ ps -> spawned w w' = ps.
Proof. unfold spawned. intros ->. apply drop_app_length. Qed.

Lemma createBurstParticles_length x y n :
  length (createBurstParticles x y n) = 60%nat.
Proof. unfold createBurstParticles. rewrite length_map, length_seq. reflexivity. Qed.

Lemma createBurstParticles_at x y n :
  Forall (fun p => Particle.type p = burst /\ Particle.x p = x /\ Particle.y p = y /\
                   Particle.life p = 1)
         (createBurstParticles x y n).
Proof.
  unfold createBurstParticles. apply Forall_forall. intros p Hp.
  apply list_elem_of_fmap in Hp as (i & -> & _). repeat split.
Qed.

Lemma arm_position speed e :
  EmitterState.x (arm speed e) = EmitterState.x e /\
  EmitterState.y (arm speed e) = EmitterState.y e /\
  EmitterState.vx (arm speed e) = EmitterState.vx e /\
  EmitterState.vy (arm speed e) = EmitterState.vy e.
Proof. unfold arm. destruct (_ <? _); repeat split. Qed.

Lemma arm_armed speed e :
  EmitterState.isBurstArmed (arm speed e) =
  (speed >? BURST_ARM_SPEED) || EmitterState.isBurstArmed e.
Proof. unfold arm. destruct (_ <? _); reflexivity. Qed.

(** Step 2 either fires, pushing one batch at the emitter and raising the
    flash, or changes nothing. *)
Lemma trigger_fired speed e w :
  EmitterState.isBurstArmed e = true -> (speed <? BURST_TRIGGER_SPEED) = true ->
  trigger speed (e, w) =
  (setArmed false e,
   {| particlesRef := particlesRef w ++
        createBurstParticles (EmitterState.x e) (EmitterState.y e) (randomCalls w);
      emittersRef := emittersRef w;
      lightingIntensityRef := Math_min (lightingIntensityRef w + 0.5) 1.0;
      randomCalls := randomCalls w + 300 |}).
Proof. intros Ha Hs. unfold trigger. rewrite Ha, Hs. reflexivity. Qed.

Lemma trigger_idle speed e w :
  EmitterState.isBurstArmed e && (speed <? BURST_TRIGGER_SPEED) = false ->
  trigger speed (e, w) = (e, w).
Proof. intros H. unfold trigger. rewrite H. reflexivity. Qed.

(** Step 3 pushes at most two trail particles, at the emitter, and touches
    neither the registry nor the flash. *)
Lemma emitTrails_spec speed chance color e w :
  exists ts,
    particlesRef (emitTrails speed chance color e w) = particlesRef w ++ ts /\
    (length ts <= 2)%nat /\
    Forall (fun p => Particle.type p = trail /\
                     Particle.x p = EmitterState.x e /\ Particle.y p = EmitterState.y e) ts /\
    emittersRef (emitTrails speed chance color e w) = emittersRef w /\
    lightingIntensityRef (emitTrails speed chance color e w) = lightingIntensityRef w /\
    ((speed >? DRAW_SPEED_THRESHOLD) = false -> ts = []) /\
    ((speed >? DRAW_SPEED_THRESHOLD * 2) = false -> (length ts <= 1)%nat).
Proof.
  unfold emitTrails.
  destruct (speed >? DRAW_SPEED_THRESHOLD) eqn:E1.
  2:{ exists []. rewrite app_nil_r. repeat split; auto with lia. }
  repeat match goal with
         | |- context [if ?b then _ else _] => destruct b eqn:?
         end;
    cbn [randomCalls drawn pushParticles particlesRef emittersRef lightingIntensityRef];
    rewrite <- ?app_assoc;
    eexists; (split; [reflexivity || (symmetry; apply app_nil_r)|]);
    cbn [length app]; repeat split; auto with lia; try congruence;
    repeat constructor.
Qed.

(** [updateEmitter] on an emitter that is there. *)
Lemma updateEmitter_existing key targetX targetY chance color w e :
  emittersRef w !! key = Some e ->
  updateEmitter key targetX targetY chance color w =
  (let speed := speedOf e targetX targetY in
   let ew := trigger speed (arm speed (smoothed e targetX targetY), w) in
   setEmitter key ew.1 (emitTrails speed chance color ew.1 ew.2)).
Proof.
  intros H. unfold updateEmitter. rewrite H. cbv zeta.
  destruct (trigger _ _) as [e' w']. reflexivity.
Qed.

(** C8.  An emitter key that is not in the registry is created at the raw
    target, at rest and not armed, and the call pushes no particle, leaves
    the flash alone and draws no random number, whatever the target. *)
Theorem C8_create_seeds_and_emits_nothing key targetX targetY chance color w :
  emittersRef w !! key = None ->
  let w' := updateEmitter key targetX targetY chance color w in
  emittersRef w' !! key =
    Some {| EmitterState.x := targetX; EmitterState.y := targetY;
            EmitterState.vx := 0; EmitterState.vy := 0;
            EmitterState.isBurstArmed := false |} /\
  particlesRef w' = particlesRef w /\
  spawned w w' = [] /\
  lightingIntensityRef w' = lightingIntensityRef w /\
  randomCalls w' = randomCalls w /\
  (forall k, k <> key -> emittersRef w' !! k = emittersRef w !! k).
Proof.
  intros H w'. subst w'. unfold updateEmitter. rewrite H.
  cbn [setEmitter emittersRef particlesRef lightingIntensityRef randomCalls].
  split; [apply lookup_insert_eq|]. split; [reflexivity|].
  split; [unfold spawned; cbn [particlesRef]; apply drop_all|].
  split; [reflexivity|]. split; [reflexivity|].
  intros k Hk. apply lookup_insert_ne. congruence.
Qed.

Lemma tickSpeed_Some key targetX targetY w s :
  tickSpeed key targetX targetY w = Some s ->
  exists e, emittersRef w !! key = Some e /\ speedOf e targetX targetY = s.
Proof.
  unfold tickSpeed. destruct (emittersRef w !! key) as [e|]; [|discriminate].
  intros [= <-]. exists e. split; reflexivity.
Qed.

(** A tick above the arming speed and not below the trigger speed: the
    emitter is armed afterwards and only trail particles can appear. *)
Lemma updateEmitter_arming key targetX targetY chance color w s :
  tickSpeed key targetX targetY w = Some s ->
  (s >? BURST_ARM_SPEED) = true -> (s <? BURST_TRIGGER_SPEED) = false ->
  let w' := updateEmitter key targetX targetY chance color w in
  armedAt key w' = Some true /\
  particlesRef w' = particlesRef w ++ spawned w w' /\
  Forall (fun p => Particle.type p = trail) (spawned w w') /\
  lightingIntensityRef w' = lightingIntensityRef w.
Proof.
  intros Hs Harm Htrig w'. subst w'.
  apply tickSpeed_Some in Hs as (e & He & Hs).
  rewrite (updateEmitter_existing _ _ _ _ _ _ _ He). cbv zeta. rewrite Hs.
  rewrite trigger_idle by (rewrite Htrig; apply andb_false_r). cbn [fst snd].
  destruct (emitTrails_spec s chance color (arm s (smoothed e targetX targetY)) w)
    as (ts & Hp & _ & Hts & _ & Hl & _).
  unfold armedAt. cbn [setEmitter emittersRef particlesRef lightingIntensityRef].
  rewrite lookup_insert_eq. cbn [fmap option_fmap option_map].
  rewrite arm_armed, Harm. split; [reflexivity|].
  unfold spawned. cbn [setEmitter particlesRef]. rewrite Hp, drop_app_length.
  split; [reflexivity|]. split; [|exact Hl].
  eapply Forall_impl; [exact Hts|]. intros p (Hty & _). exact Hty.
Qed.

(** A tick of an armed emitter below the trigger speed and not above the
    drawing threshold: exactly one burst batch, at the emitter, and the flag
    is reset. *)
Lemma updateEmitter_triggering key targetX targetY chance color w s :
  tickSpeed key targetX targetY w = Some s ->
  armedAt key w = Some true ->
  (s <? BURST_TRIGGER_SPEED) = true -> (s >? DRAW_SPEED_THRESHOLD) = false ->
  let w' := updateEmitter key targetX targetY chance color w in
  exists e',
    emittersRef w' !! key = Some e' /\
    EmitterState.isBurstArmed e' = false /\
    spawned w w' =
      createBurstParticles (EmitterState.x e') (EmitterState.y e') (randomCalls w) /\
    particlesRef w' = particlesRef w ++ spawned w w' /\
    lightingIntensityRef w' = Math_min (lightingIntensityRef w + 0.5) 1.0.
Proof.
  intros Hs Ha Htrig Hdraw w'. subst w'.
  apply tickSpeed_Some in Hs as (e & He & Hs).
  unfold armedAt in Ha. rewrite He in Ha. injection Ha as Ha.
  rewrite (updateEmitter_existing _ _ _ _ _ _ _ He). cbv zeta. rewrite Hs.
  set (e1 := arm s (smoothed e targetX targetY)).
  assert (EmitterState.isBurstArmed e1 = true) as Ha1.
  { subst e1. rewrite arm_armed. cbn [smoothed EmitterState.isBurstArmed].
    rewrite Ha. apply orb_true_r. }
  rewrite (trigger_fired s e1 w Ha1 Htrig). cbn [fst snd].
  destruct (emitTrails_spec s chance color (setArmed false e1)
              {| particlesRef := particlesRef w ++
                   createBurstParticles (EmitterState.x e1) (EmitterState.y e1) (randomCalls w);
                 emittersRef := emittersRef w;
                 lightingIntensityRef := Math_min (lightingIntensityRef w + 0.5) 1.0;
                 randomCalls := randomCalls w + 300 |})
    as (ts & Hp & _ & _ & _ & Hl & Hnone & _).
  rewrite (Hnone Hdraw), app_nil_r in Hp. cbn [particlesRef lightingIntensityRef] in Hp, Hl.
  exists (setArmed false e1).
  cbn [setEmitter emittersRef particlesRef lightingIntensityRef].
  rewrite lookup_insert_eq. split; [reflexivity|]. split; [reflexivity|].
  unfold spawned. cbn [setEmitter particlesRef]. rewrite Hp, drop_app_length.
  split; [reflexivity|]. split; [reflexivity|exact Hl].
Qed.

(** C1.  Three consecutive ticks of one emitter at speeds 20, 20, 3: the
    first two leave it armed and push trail particles only (no burst, the
    flash untouched); the third pushes exactly one batch of 60 burst
    particles, all at the emitter position, raises the flash and resets
    the flag.  At speeds 20, 20, 20 no tick pushes a burst. *)
Theorem C1_arm_trigger_hysteresis key w0
    tx1 ty1 c1 col1 tx2 ty2 c2 col2 tx3 ty3 c3 col3 :
  let w1 := updateEmitter key tx1 ty1 c1 col1 w0 in
  let w2 := updateEmitter key tx2 ty2 c2 col2 w1 in
  let w3 := updateEmitter key tx3 ty3 c3 col3 w2 in
  let no_burst w w' :=
    armedAt key w' = Some true /\
    Forall (fun p => Particle.type p = trail) (spawned w w') /\
    lightingIntensityRef w' = lightingIntensityRef w in
  tickSpeed key tx1 ty1 w0 = Some 20 ->
  tickSpeed key tx2 ty2 w1 = Some 20 ->
  no_burst w0 w1 /\ no_burst w1 w2 /\
  (tickSpeed key tx3 ty3 w2 = Some 3 ->
   exists e3,
     emittersRef w3 !! key = Some e3 /\
     EmitterState.isBurstArmed e3 = false /\
     spawned w2 w3 =
       createBurstParticles (EmitterState.x e3) (EmitterState.y e3) (randomCalls w2) /\
     length (spawned w2 w3) = BURST_PARTICLE_COUNT /\
     Forall (fun p => Particle.type p = burst /\
                      Particle.x p = EmitterState.x e3 /\
                      Particle.y p = EmitterState.y e3) (spawned w2 w3) /\
     lightingIntensityRef w3 = Math_min (lightingIntensityRef w2 + 0.5) 1.0) /\
  (tickSpeed key tx3 ty3 w2 = Some 20 -> no_burst w2 w3).
Proof.
  intros w1 w2 w3 no_burst H1 H2.
  destruct (updateEmitter_arming key tx1 ty1 c1 col1 w0 20 H1 eq_refl eq_refl)
    as (A1 & _ & T1 & L1).
  destruct (updateEmitter_arming key tx2 ty2 c2 col2 w1 20 H2 eq_refl eq_refl)
    as (A2 & _ & T2 & L2).
  split; [repeat split; assumption|]. split; [repeat split; assumption|]. split.
  - intros H3.
    destruct (updateEmitter_triggering key tx3 ty3 c3 col3 w2 3 H3 A2 eq_refl eq_refl)
      as (e3 & He3 & Ha3 & Hsp & _ & Hl).
    exists e3. fold w3 in He3, Hsp, Hl. rewrite Hsp.
    split; [exact He3|]. split; [exact Ha3|]. split; [reflexivity|].
    split; [apply createBurstParticles_length|]. split; [|exact Hl].
    eapply Forall_impl; [apply createBurstParticles_at|].
    intros p (? & ? & ? & _). repeat split; assumption.
  - intros H3.
    destruct (updateEmitter_arming key tx3 ty3 c3 col3 w2 20 H3 eq_refl eq_refl)
      as (A3 & _ & T3 & L3).
    repeat split; assumption.
Qed.

Lemma below_trigger_not_fast s :
  (s <? BURST_TRIGGER_SPEED) = true -> (s >? DRAW_SPEED_THRESHOLD * 2) = false.
Proof.
  intros H. destruct (s >? DRAW_SPEED_THRESHOLD * 2) eqn:E; [|reflexivity].
  pose proof (ltb_trans _ _ _ E H) as C. discriminate C.
Qed.

(** C10.  One call of [updateEmitter] on an emitter that is there pushes
    at most 62 particles.  Bursts and trails do not exclude each other: an
    armed emitter whose speed is above the drawing threshold and below the
    trigger speed pushes the burst batch and then, when the random draw is
    below the chance, one trail particle, 61 particles in all. *)
Theorem C10_spawn_bound key targetX targetY chance color w e :
  emittersRef w !! key = Some e ->
  let w' := updateEmitter key targetX targetY chance color w in
  let s := speedOf e targetX targetY in
  let e' := smoothed e targetX targetY in
  particlesRef w' = particlesRef w ++ spawned w w' /\
  (length (spawned w w') <= 62)%nat /\
  (EmitterState.isBurstArmed e = true ->
   (s >? DRAW_SPEED_THRESHOLD) = true -> (s <? BURST_TRIGGER_SPEED) = true ->
   (Math_random (randomCalls w + 300) <? chance) = true ->
   spawned w w' =
     createBurstParticles (EmitterState.x e') (EmitterState.y e') (randomCalls w) ++
     [createTrailParticle (EmitterState.x e') (EmitterState.y e')
        (Point.mk (EmitterState.vx e') (EmitterState.vy e')) color
        (randomCalls w + 300 + 1)] /\
   length (spawned w w') = 61%nat).
Proof.
  intros He w' s e'. subst w'.
  rewrite (updateEmitter_existing _ _ _ _ _ _ _ He). cbv zeta. fold s e'.
  set (e1 := arm s e').
  pose proof (arm_position s e') as (Hx & Hy & Hvx & Hvy). fold e1 in Hx, Hy, Hvx, Hvy.
  unfold spawned. cbn [setEmitter particlesRef].
  destruct (EmitterState.isBurstArmed e1 && (s <? BURST_TRIGGER_SPEED)) eqn:Hfire.
  - apply andb_true_iff in Hfire as [Ha1 Htrig].
    rewrite (trigger_fired s e1 w Ha1 Htrig). cbn [fst snd].
    set (w1 := mkWorld _ _ _ _).
    destruct (emitTrails_spec s chance color (setArmed false e1) w1)
      as (ts & Hp & Hlen & _).
    rewrite Hp. subst w1. cbn [particlesRef] in *. rewrite <- app_assoc, drop_app_length.
    split; [reflexivity|]. split.
    { rewrite length_app, createBurstParticles_length. lia. }
    intros _ Hdraw _ Hr.
    assert (ts = [createTrailParticle (EmitterState.x e') (EmitterState.y e')
                    (Point.mk (EmitterState.vx e') (EmitterState.vy e')) color
                    (randomCalls w + 300 + 1)]) as ->.
    { apply (app_inv_head (particlesRef w ++
               createBurstParticles (EmitterState.x e1) (EmitterState.y e1) (randomCalls w))).
      rewrite <- Hp.
      unfold emitTrails. rewrite Hdraw, (below_trigger_not_fast s Htrig).
      cbn [randomCalls drawn pushParticles particlesRef]. rewrite Hr.
      cbn [randomCalls drawn pushParticles particlesRef setArmed
           EmitterState.x EmitterState.y EmitterState.vx EmitterState.vy].
      rewrite Hx, Hy, Hvx, Hvy. reflexivity. }
    rewrite Hx, Hy. split; [reflexivity|].
    rewrite length_app, createBurstParticles_length. reflexivity.
  - rewrite (trigger_idle s e1 w Hfire). cbn [fst snd].
    destruct (emitTrails_spec s chance color e1 w) as (ts & Hp & Hlen & _).
    rewrite Hp, drop_app_length. split; [reflexivity|]. split; [lia|].
    intros Ha _ Htrig _. exfalso.
    assert (EmitterState.isBurstArmed e1 = true) as Ha1.
    { subst e1. rewrite arm_armed. subst e'. cbn [smoothed EmitterState.isBurstArmed].
      rewrite Ha. apply orb_true_r. }
    rewrite Ha1, Htrig in Hfire. discriminate Hfire.
Qed.

End EmitterProperties.

(** ** The simulation step *)

Section ParticleProperties.

Lemma stepParticle_alive height p :
  snd (stepParticle height p) = true <->
  (Particle.life p - Particle.decay p >? 0) = true.
Proof. unfold stepParticle. destruct (_ <? _); cbn [snd]; intuition congruence. Qed.

Lemma stepParticle_life height p :
  Particle.life (fst (stepParticle height p)) = Particle.life p - Particle.decay p /\
  Particle.decay (fst (stepParticle height p)) = Particle.decay p.
Proof. unfold stepParticle. destruct (_ <? _); split; reflexivity. Qed.

(** A particle whose life is used up is dropped as it is: only [life] has
    changed. *)
Lemma stepParticle_dead height p :
  (Particle.life p - Particle.decay p >? 0) = false ->
  stepParticle height p =
  ({| Particle.x := Particle.x p; Particle.y := Particle.y p;
      Particle.vx := Particle.vx p; Particle.vy := Particle.vy p;
      Particle.life := Particle.life p - Particle.decay p;
      Particle.decay := Particle.decay p; Particle.color := Particle.color p;
      Particle.size := Particle.size p; Particle.type := Particle.type p;
      Particle.gravity := Particle.gravity p |}, false).
Proof. intros H. unfold stepParticle. rewrite H. reflexivity. Qed.

Lemma elem_of_updateParticles q particles width height :
  q ∈ updateParticles particles width height <->
  exists p, p ∈ particles /\ stepParticle height p = (q, true).
Proof.
  unfold updateParticles. rewrite list_elem_of_omap. split.
  - intros (p & Hp & H). exists p. split; [exact Hp|].
    destruct (stepParticle height p) as [p' []]; congruence.
  - intros (p & Hp & H). exists p. split; [exact Hp|]. rewrite H. reflexivity.
Qed.

Lemma stepParticle_sound height p :
  sound p -> snd (stepParticle height p) = true ->
  alive (fst (stepParticle height p)) /\ sound (fst (stepParticle height p)).
Proof.
  intros [Hl Hd] Ha. apply stepParticle_alive in Ha. unfold alive, sound.
  destruct (stepParticle_life height p) as [-> ->].
  pose proof (sub_le_1 _ _ Hl (ge_pow2_m7_nonneg _ Hd)). repeat split; assumption.
Qed.

Lemma updateParticles_sound particles width height :
  Forall sound particles ->
  Forall (fun p => alive p /\ sound p) (updateParticles particles width height).
Proof.
  rewrite !Forall_forall. intros H q Hq.
  apply elem_of_updateParticles in Hq as (p & Hp & Hq).
  pose proof (stepParticle_sound height p (H p Hp)) as Hs.
  rewrite Hq in Hs. apply Hs. reflexivity.
Qed.

(** C2, as the code has it.  A particle that survives the decay step,
    whose advanced position [y + vy] is beyond [height] and whose velocity
    after gravity [vy + gravity] is positive (as for [y == height],
    [vy > 0] and the gravity of the factories, up to rounding) bounces:
    [vy] becomes [-0.6] times the velocity after gravity, and [y] is
    [height]. *)
Theorem C2_floor_bounce height p :
  (Particle.life p - Particle.decay p >? 0) = true ->
  (Particle.y p + Particle.vy p >? height) = true ->
  (Particle.vy p + Particle.gravity p >? 0) = true ->
  let p' := fst (stepParticle height p) in
  snd (stepParticle height p) = true /\
  Particle.vy p' = (Particle.vy p + Particle.gravity p) * -0.6 /\
  Particle.y p' = height /\
  Particle.x p' = Particle.x p + Particle.vx p.
Proof.
  intros Hl Hy Hv p'. subst p'. unfold stepParticle. rewrite Hl, Hy, Hv.
  repeat split.
Qed.

Lemma ticks_nil n width height : ticks n [] width height = [].
Proof. induction n as [|n IH]; [reflexivity|exact IH]. Qed.

Lemma ticks_app n : forall l1 l2 width height,
  ticks n (l1 ++ l2) width height = ticks n l1 width height ++ ticks n l2 width height.
Proof.
  induction n as [|n IH]; intros l1 l2 width height; [reflexivity|].
  cbn [ticks]. unfold updateParticles. rewrite omap_app. apply IH.
Qed.

Lemma updateParticles_single p width height :
  updateParticles [p] width height =
  if Particle.life p - Particle.decay p >? 0
  then [fst (stepParticle height p)] else [].
Proof.
  unfold updateParticles. cbn [omap list_omap]. unfold stepParticle.
  destruct (_ <? _); reflexivity.
Qed.

(** A particle leaves no trace in the population once a decay step has
    found its life used up. *)
Lemma ticks_single_dead n width height : forall p,
  (exists j, (1 <= j <= n)%nat /\
             (0 <? lifeAfter j (Particle.life p) (Particle.decay p)) = false) ->
  ticks n [p] width height = [].
Proof.
  induction n as [|n IH]; intros p (j & Hj & Hb); [lia|].
  cbn [ticks]. rewrite updateParticles_single.
  destruct (Particle.life p - Particle.decay p >? 0) eqn:E; [|apply ticks_nil].
  apply IH. destruct (stepParticle_life height p) as [-> ->].
  destruct j as [|[|j]]; [lia| |].
  - cbn [lifeAfter] in Hb. congruence.
  - exists (S j). split; [lia|exact Hb].
Qed.

(** A sound particle has left the population after
    [ceil (1 / decay) + 1] simulation ticks with no emission: the
    population is then what its other particles alone would have given. *)
Lemma expiry_sound p n l1 l2 width height :
  sound p ->
  (ceil_reciprocal (Particle.decay p) + 1 <= n)%nat ->
  ticks n [p] width height = [] /\
  ticks n (l1 ++ p :: l2) width height =
    ticks n l1 width height ++ ticks n l2 width height.
Proof.
  intros [Hl Hd] Hn.
  assert (ticks n [p] width height = []) as Hp.
  { apply ticks_single_dead.
    destruct (expiry_exists _ _ Hl Hd) as (j & Hj & Hb). exists j. split; [lia|exact Hb]. }
  split; [exact Hp|].
  change (p :: l2) with ([p] ++ l2). rewrite !ticks_app, Hp. reflexivity.
Qed.

End ParticleProperties.

(** ** The frame loop *)

(** Two runs of a [forEach] whose states are related stay related, when the
    body keeps the relation at every element of the array. *)
Lemma forEach_rel {A S1 S2} (R : S1 -> S2 -> Prop) (arr : list A)
    (body1 : A -> nat -> S1 -> S1) (body2 : A -> nat -> S2 -> S2) s1 s2 :
  (forall a i t1 t2, arr !! i = Some a -> R t1 t2 -> R (body1 a i t1) (body2 a i t2)) ->
  R s1 s2 -> R (forEach arr body1 s1) (forEach arr body2 s2).
Proof.
  unfold forEach. intros Hbody.
  assert (forall l k t1 t2,
            (forall a i, l !! i = Some a -> arr !! (k + i)%nat = Some a) ->
            R t1 t2 ->
            R (foldl (fun s ia => body1 ia.2 ia.1 s) t1 (zip (seq k (length l)) l))
              (foldl (fun s ia => body2 ia.2 ia.1 s) t2 (zip (seq k (length l)) l))) as H.
  { induction l as [|a l IH]; intros k t1 t2 Hl HR; [exact HR|].
    cbn [length seq zip zip_with foldl fst snd]. apply IH.
    - intros b i Hb. replace (S k + i)%nat with (k + S i)%nat by lia. apply Hl. exact Hb.
    - apply Hbody; [|exact HR]. specialize (Hl a 0%nat eq_refl).
      rewrite Nat.add_0_r in Hl. exact Hl. }
  intros HR. apply (H arr 0%nat); [|exact HR]. intros a i Ha. exact Ha.
Qed.

Lemma forEach_ind {A S} (P : S -> Prop) (arr : list A) (body : A -> nat -> S -> S) s :
  (forall a i t, arr !! i = Some a -> P t -> P (body a i t)) ->
  P s -> P (forEach arr body s).
Proof.
  intros Hbody Hs.
  apply (forEach_rel (fun t _ => P t) arr body body s s); [|exact Hs].
  intros a i t1 t2 Ha. apply Hbody. exact Ha.
Qed.

Section FrameProperties.

Variable Math_cos Math_sin : number -> number.
Variable Math_random : nat -> number.

Local Abbreviation createTrailParticle := (createTrailParticle Math_cos Math_sin Math_random).
Local Abbreviation createBurstParticle := (createBurstParticle Math_cos Math_sin Math_random).
Local Abbreviation createBurstParticles := (createBurstParticles Math_cos Math_sin Math_random).
Local Abbreviation trigger := (trigger Math_cos Math_sin Math_random).
Local Abbreviation emitTrails := (emitTrails Math_cos Math_sin Math_random).
Local Abbreviation updateEmitter := (updateEmitter Math_cos Math_sin Math_random).
Local Abbreviation trackFinger := (trackFinger Math_cos Math_sin Math_random).
Local Abbreviation trackHands := (trackHands Math_cos Math_sin Math_random).
Local Abbreviation processTracking := (processTracking Math_cos Math_sin Math_random).
Local Abbreviation animate := (animate Math_cos Math_sin Math_random).
Local Abbreviation frames := (frames Math_cos Math_sin Math_random).

Lemma positive_finite_intro c m e : Prim2SF c = S754_finite false m e -> positive_finite c.
Proof. intros H. exists m, e. exact H. Qed.

Lemma raise_unit l :
  unit_interval l -> unit_interval (Math_min (l + 0.5) 1.0).
Proof.
  intros [H0 _]. apply Math_min_unit. apply add_nonneg; [exact H0|reflexivity].
Qed.

Lemma decay_unit l :
  unit_interval l -> unit_interval (l * 0.85).
Proof.
  intros [H0 H1]. apply mul_unit; try assumption; [|reflexivity].
  eapply positive_finite_intro. reflexivity.
Qed.

Lemma FINGER_INDICES_bound i tipIdx :
  FINGER_INDICES !! i = Some tipIdx -> (tipIdx < 21)%nat /\ (i < 5)%nat.
Proof.
  destruct i as [|[|[|[|[|i]]]]]; cbn; intros [= <-]; lia.
Qed.

Lemma trackFinger_Some f pm hand handIndex tipIdx fingerIndex ks w :
  (tipIdx < length hand)%nat ->
  exists tip,
    hand !! tipIdx = Some tip /\
    trackFinger f pm hand handIndex tipIdx fingerIndex (Some (ks, w)) =
    Some ({[ emitterKey handIndex fingerIndex ]} ∪ ks,
          updateEmitter (emitterKey handIndex fingerIndex)
            ((1 - Point.x tip) * canvasWidth f) (Point.y tip * canvasHeight f) pm
            (or_else (FINGER_COLORS !! fingerIndex) TRAIL_COLOR) w).
Proof.
  intros H. destruct (lookup_lt_is_Some_2 hand tipIdx H) as [tip Htip].
  exists tip. split; [exact Htip|].
  unfold trackFinger. cbn [mbind option_bind]. rewrite Htip. reflexivity.
Qed.

Lemma trackFinger_None f pm hand handIndex tipIdx fingerIndex :
  trackFinger f pm hand handIndex tipIdx fingerIndex None = None.
Proof. reflexivity. Qed.

(** A property of the world that every [updateEmitter] keeps is kept by
    the emission phase. *)
Lemma trackHands_ind (P : World -> Prop) f ks w :
  (forall key tx ty pm col w, P w -> P (updateEmitter key tx ty pm col w)) ->
  P w ->
  forall ks' w', trackHands f (Some (ks, w)) = Some (ks', w') -> P w'.
Proof.
  intros Hupd Hw. unfold trackHands.
  set (Q := fun st : option (gset string * World) =>
              forall ks' w', st = Some (ks', w') -> P w').
  change (Q (forEach (landmarks f)
               (fun hand handIndex =>
                  forEach FINGER_INDICES
                    (trackFinger f
                       (particleMultiplierOf (array_length (landmarks f) * 5))
                       hand handIndex))
               (Some (ks, w)))).
  apply forEach_ind.
  - intros hand handIndex st _ Hst. apply forEach_ind; [|exact Hst].
    intros tipIdx fingerIndex [[ks1 w1]|] _ Hst1 ks' w'; [|discriminate].
    unfold trackFinger. cbn [mbind option_bind].
    destruct (hand !! tipIdx) as [tip|]; [|discriminate].
    intros [= <- <-]. apply Hupd. apply (Hst1 ks1 w1). reflexivity.
  - intros ks' w' [= <- <-]. exact Hw.
Qed.

(** With 21 landmarks in every hand the emission phase does not fail. *)
Lemma trackHands_total f ks w :
  wellFormed f -> is_Some (trackHands f (Some (ks, w))).
Proof.
  intros Hwf. unfold trackHands.
  apply (forEach_ind (fun st => is_Some st)); [|eexists; reflexivity].
  intros hand handIndex st Hhand Hst.
  assert (21 <= length hand)%nat as Hlen.
  { unfold wellFormed in Hwf. rewrite Forall_lookup in Hwf. exact (Hwf _ _ Hhand). }
  apply (forEach_ind (fun st => is_Some st)); [|exact Hst].
  intros tipIdx fingerIndex [[ks1 w1]|] Htip Hst1; [|destruct Hst1; discriminate].
  apply FINGER_INDICES_bound in Htip as [Htip _].
  destruct (trackFinger_Some f (particleMultiplierOf (array_length (landmarks f) * 5))
              hand handIndex tipIdx fingerIndex ks1 w1 ltac:(lia)) as (tip & _ & ->).
  eexists; reflexivity.
Qed.

Lemma processTracking_total f w :
  wellFormed f -> is_Some (processTracking f w).
Proof.
  intros Hwf. unfold processTracking.
  destruct (playing f); [|eexists; reflexivity].
  destruct (0 <? length (landmarks f))%nat; [|eexists; reflexivity].
  destruct (trackHands_total f ∅ w Hwf) as [st ->]. eexists; reflexivity.
Qed.

Lemma processTracking_ind (P : World -> Prop) f w w' :
  (forall key tx ty pm col w, P w -> P (updateEmitter key tx ty pm col w)) ->
  (forall m w, P w -> P (setEmitters m w)) ->
  P w -> processTracking f w = Some w' -> P w'.
Proof.
  intros Hupd Hset Hw. unfold processTracking.
  destruct (playing f); [|intros [= <-]; exact Hw].
  destruct (0 <? length (landmarks f))%nat; cbn [mbind option_bind].
  - destruct (trackHands f (Some (∅, w))) as [[ks1 w1]|] eqn:E; [|discriminate].
    intros [= <-]. apply Hset. exact (trackHands_ind P f ∅ w Hupd Hw ks1 w1 E).
  - intros [= <-]. apply Hset. exact Hw.
Qed.

Lemma animate_total f w : wellFormed f -> is_Some (animate f w).
Proof.
  intros Hwf. unfold animate. destruct (ready f); [|eexists; reflexivity].
  destruct (processTracking_total f w Hwf) as [w1 ->]. cbn [mbind option_bind].
  destruct (drawLighting f w1). eexists; reflexivity.
Qed.

Lemma drawLighting_spec f w :
  particlesRef (drawLighting f w).1 = particlesRef w /\
  emittersRef (drawLighting f w).1 = emittersRef w /\
  lightingIntensityRef (drawLighting f w).1 =
    (if lightingIntensityRef w >? 0.01 then lightingIntensityRef w * 0.85
     else lightingIntensityRef w).
Proof. unfold drawLighting. destruct (_ <? _); repeat split. Qed.

(** One frame, step by step. *)
Lemma animate_ready f w :
  ready f = true ->
  animate f w =
  (w1 ← processTracking f w;
   let w2 := (drawLighting f w1).1 in
   let w3 := setParticles
               (updateParticles (particlesRef w2) (canvasWidth f) (canvasHeight f)) w2 in
   Some (w3, DrawVideo :: (drawLighting f w1).2 ++ drawParticles (particlesRef w3))).
Proof.
  intros H. unfold animate. rewrite H.
  destruct (processTracking f w) as [w1|]; [|reflexivity]. cbn [mbind option_bind].
  destruct (drawLighting f w1). reflexivity.
Qed.

Lemma WorldLive_ok w : WorldLive w -> WorldOk w.
Proof.
  intros [Hp Hl]. split; [|exact Hl]. eapply Forall_impl; [exact Hp|]. intros p [_ H]. exact H.
Qed.

Lemma initialWorld_live : WorldLive initialWorld.
Proof. split; [constructor|split; reflexivity]. Qed.

Lemma elem_of_overlay f w op : op ∈ (drawLighting f w).2 -> exists c a wd ht, op = FillRect c a wd ht.
Proof.
  unfold drawLighting. destruct (_ <? _); cbn [snd]; intros H.
  - apply list_elem_of_singleton in H. subst op. eauto.
  - inversion H.
Qed.

(** *** Emitters that are no longer tracked *)

Lemma trigger_forget key speed e w :
  trigger speed (e, forget key w) =
  ((trigger speed (e, w)).1, forget key (trigger speed (e, w)).2).
Proof. unfold trigger. destruct (_ && _); reflexivity. Qed.

Lemma emitTrails_forget key speed chance color e w :
  emitTrails speed chance color e (forget key w) =
  forget key (emitTrails speed chance color e w).
Proof.
  unfold emitTrails.
  repeat match goal with
         | |- context [if ?b then _ else _] => destruct b eqn:?
         end; try reflexivity;
  cbn [randomCalls forget setEmitters drawn pushParticles] in *; congruence.
Qed.

Lemma updateEmitter_forget key k targetX targetY chance color w :
  k <> key ->
  updateEmitter k targetX targetY chance color (forget key w) =
  forget key (updateEmitter k targetX targetY chance color w).
Proof.
  intros Hk. unfold updateEmitter.
  cbn [forget setEmitters emittersRef]. rewrite lookup_delete_ne by congruence.
  destruct (emittersRef w !! k) as [e|].
  - cbv zeta. fold (forget key w). rewrite trigger_forget.
    destruct (trigger _ (_, w)) as [e' w']. cbn [fst snd].
    rewrite emitTrails_forget. unfold forget, setEmitter, setEmitters.
    cbn [emittersRef particlesRef lightingIntensityRef randomCalls].
    rewrite delete_insert_ne by congruence. reflexivity.
  - unfold forget, setEmitter, setEmitters.
    cbn [emittersRef particlesRef lightingIntensityRef randomCalls].
    rewrite delete_insert_ne by congruence. reflexivity.
Qed.

Lemma elem_of_trackedKeys f handIndex fingerIndex :
  (handIndex < length (landmarks f))%nat -> (fingerIndex < 5)%nat ->
  emitterKey handIndex fingerIndex ∈ trackedKeys f.
Proof.
  intros Hh Hf. unfold trackedKeys. apply elem_of_list_to_set.
  apply list_elem_of_bind. exists handIndex. split; [|apply elem_of_seq; lia].
  apply list_elem_of_bind. exists fingerIndex.
  split; [apply list_elem_of_singleton; reflexivity|apply elem_of_seq; cbn; lia].
Qed.

(** The emission phase only adds keys of tracked fingertips. *)
Lemma trackHands_keys f ks w ks' w' :
  trackHands f (Some (ks, w)) = Some (ks', w') -> ks' ⊆ ks ∪ trackedKeys f.
Proof.
  unfold trackHands.
  set (Q := fun st : option (gset string * World) =>
              forall ks' w', st = Some (ks', w') -> ks' ⊆ ks ∪ trackedKeys f).
  enough (Q (forEach (landmarks f)
               (fun hand handIndex =>
                  forEach FINGER_INDICES
                    (trackFinger f
                       (particleMultiplierOf (array_length (landmarks f) * 5))
                       hand handIndex))
               (Some (ks, w)))) as H by (intros E; exact (H _ _ E)).
  apply forEach_ind.
  - intros hand handIndex st Hhand Hst. apply forEach_ind; [|exact Hst].
    intros tipIdx fingerIndex [[ks1 w1]|] Htip Hst1 ks2 w2; [|discriminate].
    unfold trackFinger. cbn [mbind option_bind].
    destruct (hand !! tipIdx) as [tip|]; [|discriminate].
    intros [= <- <-]. cbn [fst].
    pose proof (Hst1 ks1 w1 eq_refl) as Hsub.
    apply FINGER_INDICES_bound in Htip as [_ Hfi].
    apply lookup_lt_Some in Hhand.
    pose proof (elem_of_trackedKeys f handIndex fingerIndex Hhand Hfi).
    set_solver.
  - intros ks2 w2 [= <- <-]. set_solver.
Qed.

(** The emission phase neither reads nor writes an emitter whose key is
    not tracked: it commutes with forgetting it. *)
Lemma trackHands_forget key f ks w :
  key ∉ trackedKeys f ->
  trackHands f (Some (ks, forget key w)) =
  (fun st : gset string * World => (st.1, forget key st.2)) <$> trackHands f (Some (ks, w)).
Proof.
  intros Hkey. unfold trackHands.
  set (R := fun st1 st2 : option (gset string * World) =>
              st2 = (fun st : gset string * World => (st.1, forget key st.2)) <$> st1).
  apply (forEach_rel R); [|reflexivity].
  intros hand handIndex st1 st2 Hhand HR.
  apply (forEach_rel R); [|exact HR].
  intros tipIdx fingerIndex [[ks1 w1]|] t2 Htip ->; [|reflexivity].
  cbn [fmap option_fmap option_map fst snd].
  unfold trackFinger. cbn [mbind option_bind fst snd].
  destruct (hand !! tipIdx) as [tip|]; [|reflexivity].
  unfold R. cbn [mbind option_bind fmap option_fmap option_map fst snd].
  rewrite updateEmitter_forget; [reflexivity|].
  intros <-. apply Hkey.
  apply FINGER_INDICES_bound in Htip as [_ Hfi]. apply lookup_lt_Some in Hhand.
  apply elem_of_trackedKeys; assumption.
Qed.

Lemma cleanup_lookup ks w key :
  key ∉ ks -> emittersRef (cleanup ks w) !! key = None.
Proof.
  intros H. unfold cleanup. cbn [setEmitters emittersRef].
  apply map_lookup_filter_None. right. intros e _. exact H.
Qed.

Lemma cleanup_forget ks w key :
  key ∉ ks -> cleanup ks (forget key w) = cleanup ks w.
Proof.
  intros H. unfold cleanup, forget, setEmitters.
  cbn [emittersRef particlesRef lightingIntensityRef randomCalls]. f_equal.
  rewrite map_filter_delete. apply delete_id.
  apply map_lookup_filter_None. right. intros e _. exact H.
Qed.

Lemma cleanup_empty w : emittersRef (cleanup ∅ w) = ∅.
Proof.
  unfold cleanup. cbn [setEmitters emittersRef]. apply map_eq. intros k.
  rewrite lookup_empty. apply map_lookup_filter_None. right. intros e _. set_solver.
Qed.

Lemma processTracking_forget key f w :
  playing f = true -> key ∉ trackedKeys f ->
  processTracking f (forget key w) = processTracking f w.
Proof.
  intros Hp Hkey. unfold processTracking. rewrite Hp.
  destruct (0 <? length (landmarks f))%nat; cbn [mbind option_bind fst snd].
  - rewrite (trackHands_forget key f ∅ w Hkey).
    destruct (trackHands f (Some (∅, w))) as [[ks1 w1]|] eqn:E; [|reflexivity].
    cbn [fmap option_fmap option_map mbind option_bind fst snd]. f_equal.
    apply cleanup_forget. apply trackHands_keys in E. set_solver.
  - f_equal. apply cleanup_forget. set_solver.
Qed.

Lemma processTracking_lookup key f w w1 :
  playing f = true -> key ∉ trackedKeys f ->
  processTracking f w = Some w1 -> emittersRef w1 !! key = None.
Proof.
  intros Hp Hkey. unfold processTracking. rewrite Hp.
  destruct (0 <? length (landmarks f))%nat; cbn [mbind option_bind fst snd].
  - destruct (trackHands f (Some (∅, w))) as [[ks1 w1']|] eqn:E; [|discriminate].
    cbn [mbind option_bind fst snd]. intros [= <-].
    apply cleanup_lookup. apply trackHands_keys in E. set_solver.
  - intros [= <-]. apply cleanup_lookup. set_solver.
Qed.

Lemma updateEmitter_keeps key k targetX targetY chance color w :
  is_Some (emittersRef w !! key) ->
  is_Some (emittersRef (updateEmitter k targetX targetY chance color w) !! key).
Proof.
  intros H. unfold updateEmitter.
  destruct (emittersRef w !! k) as [e|] eqn:E.
  - cbv zeta. destruct (trigger _ _) as [e' w'] eqn:Et.
    cbn [setEmitter emittersRef]. apply lookup_insert_is_Some'. right.
    destruct (emitTrails_spec Math_cos Math_sin Math_random
                (speedOf e targetX targetY) chance color e' w') as (_ & _ & _ & _ & -> & _).
    unfold trigger in Et. destruct (_ && _); injection Et as <- <-; exact H.
  - cbn [setEmitter emittersRef]. apply lookup_insert_is_Some'. right. exact H.
Qed.

Lemma forget_absent key w : emittersRef w !! key = None -> forget key w = w.
Proof.
  intros H. unfold forget, setEmitters. rewrite (delete_id _ _ H). destruct w; reflexivity.
Qed.

(** A frame whose tracking step does not run keeps the registry as it is,
    and does to the rest of the world what it does without the emitter. *)
Lemma animate_skipped key f w :
  ready f && playing f = false ->
  exists w' ops,
    animate f w = Some (w', ops) /\
    animate f (forget key w) = Some (forget key w', ops) /\
    emittersRef w' = emittersRef w.
Proof.
  intros H. unfold animate, processTracking.
  destruct (ready f); [|eexists _, _; repeat split].
  cbn [andb] in H. rewrite H. cbn [mbind option_bind]. unfold drawLighting.
  cbn [forget setEmitters lightingIntensityRef].
  destruct (lightingIntensityRef w >? 0.01); eexists _, _; repeat split.
Qed.

(** C9, as the code has it.  An emitter that is in the registry when a
    frame begins and whose key is not tracked in that frame takes no part
    in the frame: the frame draws the same and leaves the same world as it
    does without that emitter.  When the tracking step runs (the frame is
    ready and the video is playing), the emitter is still in the registry
    when the emission phase ends; the cleanup loop that follows removes
    it, so that it is gone when the tracking step ends, before the flash
    and simulation steps, and a frame with no tracked point at all empties
    the registry.  When the tracking step does not
    run (a resource is missing, or the video has not started, is paused or
    has ended), the cleanup loop does not run either: the registry is left
    as it was and the emitter stays, also with no tracked point at all. *)
Theorem C9_untracked_emitter_removed f w key :
  wellFormed f -> is_Some (emittersRef w !! key) -> key ∉ trackedKeys f ->
  exists w' ops,
    animate f w = Some (w', ops) /\
    animate f (forget key w) = Some (forget key w', ops) /\
    (ready f = true -> playing f = true ->
       (exists ks w_mid, trackHands f (Some (∅, w)) = Some (ks, w_mid) /\
                         is_Some (emittersRef w_mid !! key)) /\
       (exists w1, processTracking f w = Some w1 /\ emittersRef w1 !! key = None) /\
       emittersRef w' !! key = None /\
       animate f (forget key w) = Some (w', ops) /\
       (landmarks f = [] -> emittersRef w' = ∅)) /\
    (ready f && playing f = false ->
       emittersRef w' = emittersRef w /\ is_Some (emittersRef w' !! key)).
Proof.
  intros Hwf Hin Hkey.
  destruct (ready f && playing f) eqn:Hrp.
  - apply andb_true_iff in Hrp as [Hr Hp].
    destruct (animate_total f w Hwf) as [[w' ops] E]. exists w', ops.
    assert ((exists w1, processTracking f w = Some w1 /\ emittersRef w1 !! key = None) /\
            emittersRef w' !! key = None /\ animate f (forget key w) = Some (w', ops) /\
            (landmarks f = [] -> emittersRef w' = ∅)) as (Hmid & Hnone & Hsame & Hnil).
    { rewrite (animate_ready _ _ Hr), (processTracking_forget key f w Hp Hkey),
        <- (animate_ready _ _ Hr), E.
      rewrite (animate_ready f w Hr) in E.
      destruct (processTracking f w) as [w1|] eqn:E1; [|discriminate].
      cbn [mbind option_bind] in E. injection E as <- _.
      destruct (drawLighting_spec f w1) as (_ & Ee & _).
      cbn [setParticles emittersRef]. rewrite Ee.
      pose proof (processTracking_lookup key f w w1 Hp Hkey E1) as Hgone.
      split; [exists w1; split; [reflexivity|exact Hgone]|].
      split; [exact Hgone|].
      split; [reflexivity|].
      intros Hn. unfold processTracking in E1. rewrite Hp, Hn in E1.
      cbn in E1. injection E1 as <-. apply cleanup_empty. }
    split; [exact E|]. split; [rewrite (forget_absent key w' Hnone); exact Hsame|].
    split; [|discriminate].
    intros _ _. split; [|repeat split; assumption].
    destruct (trackHands_total f ∅ w Hwf) as [[ks w_mid] Et].
    exists ks, w_mid. split; [exact Et|].
    apply (trackHands_ind (fun w => is_Some (emittersRef w !! key)) f ∅ w) with (ks' := ks);
      [|exact Hin|exact Et].
    intros. apply updateEmitter_keeps. assumption.
  - destruct (animate_skipped key f w Hrp) as (w' & ops & E & E' & Hreg).
    exists w', ops. split; [exact E|]. split; [exact E'|]. split.
    + intros Hr Hp. rewrite Hr, Hp in Hrp. discriminate Hrp.
    + intros _. split; [exact Hreg|]. rewrite Hreg. exact Hin.
Qed.

(** *** The density multiplier *)

Lemma array_length_nonneg {A} (arr : list A) : (0 <=? array_length arr) = true.
Proof.
  unfold array_length. apply leb_0_signed. rewrite of_uint63_spec.
  apply binary_normalize_signed_pos. apply Uint63.to_Z_bounded.
Qed.

Lemma particleMultiplierOf_unit E :
  is_nan (E * 0.5) = false -> unit_interval (particleMultiplierOf E).
Proof.
  intros H. unfold particleMultiplierOf. apply div_one. apply Math_max_one. exact H.
Qed.

(** *** The colours of a burst *)

Lemma array_get_BURST_COLORS z :
  (0 <= z < 4)%Z ->
  exists c, array_get BURST_COLORS (Some z) = Some c /\
            BURST_COLORS !! Z.to_nat z = Some c.
Proof.
  intros Hz. assert (z = 0 \/ z = 1 \/ z = 2 \/ z = 3)%Z as [-> | [-> | [-> | ->]]] by lia;
    eexists; split; reflexivity.
Qed.

Section RandomRange.

(** [Math.random] returns a number of [[0, 1)]. *)
Hypothesis random_range :
  forall k, (0 <=? Math_random k) = true /\ (Math_random k <? 1) = true.

Lemma createTrailParticle_sound x y velocity color n :
  sound (createTrailParticle x y velocity color n).
Proof.
  split; [reflexivity|]. cbn [createTrailParticle Particle.decay].
  apply add_at_least; [eapply positive_finite_intro; reflexivity|reflexivity|].
  apply mul_nonneg; [apply random_range|]. eapply positive_finite_intro. reflexivity.
Qed.

Lemma createBurstParticles_sound x y n :
  Forall sound (createBurstParticles x y n).
Proof.
  unfold createBurstParticles. apply Forall_forall. intros p Hp.
  apply list_elem_of_fmap in Hp as (i & -> & _).
  split; [reflexivity|]. cbn [createBurstParticle Particle.decay].
  apply add_at_least; [eapply positive_finite_intro; reflexivity|reflexivity|].
  apply mul_nonneg; [apply random_range|]. eapply positive_finite_intro. reflexivity.
Qed.

Lemma trigger_ok speed e w :
  WorldOk w -> WorldOk (trigger speed (e, w)).2.
Proof.
  intros [Hp Hl]. unfold trigger.
  destruct (_ && _); cbn [snd]; [|split; assumption].
  split; cbn [particlesRef lightingIntensityRef setLighting drawn pushParticles].
  - apply Forall_app. split; [exact Hp|apply createBurstParticles_sound].
  - apply raise_unit. exact Hl.
Qed.

Lemma emitTrails_ok speed chance color e w :
  WorldOk w -> WorldOk (emitTrails speed chance color e w).
Proof.
  intros [Hp Hl]. unfold emitTrails.
  repeat match goal with
         | |- context [if ?b then _ else _] => destruct b eqn:?
         end;
    split; cbn [particlesRef lightingIntensityRef drawn pushParticles];
    try assumption;
    repeat (apply Forall_app; split); try assumption;
    repeat constructor; apply createTrailParticle_sound.
Qed.

Lemma updateEmitter_ok key targetX targetY chance color w :
  WorldOk w -> WorldOk (updateEmitter key targetX targetY chance color w).
Proof.
  intros Hw. unfold updateEmitter.
  destruct (emittersRef w !! key) as [e|]; [|exact Hw]. cbv zeta.
  pose proof (trigger_ok (speedOf e targetX targetY)
                (arm (speedOf e targetX targetY) (smoothed e targetX targetY)) w Hw) as Ht.
  destruct (trigger _ _) as [e' w']. cbn [snd] in Ht.
  apply (emitTrails_ok (speedOf e targetX targetY) chance color e') in Ht.
  exact Ht.
Qed.

Lemma processTracking_ok f w w' :
  WorldOk w -> processTracking f w = Some w' -> WorldOk w'.
Proof.
  intros Hw E. apply (processTracking_ind WorldOk f w w'); try assumption.
  - intros. apply updateEmitter_ok. assumption.
  - intros m w0 H0. exact H0.
Qed.

Lemma animate_ok f w w' ops :
  WorldOk w -> ready f = true -> animate f w = Some (w', ops) -> WorldLive w'.
Proof.
  intros Hw Hr. rewrite (animate_ready f w Hr).
  destruct (processTracking f w) as [w1|] eqn:E1; [|discriminate].
  cbn [mbind option_bind]. intros [= <- _].
  destruct (processTracking_ok f w w1 Hw E1) as [Hp1 Hl1].
  destruct (drawLighting_spec f w1) as (Ep & _ & El).
  split; cbn [setParticles particlesRef lightingIntensityRef].
  - apply updateParticles_sound. rewrite Ep. exact Hp1.
  - rewrite El. destruct (_ <? _); [apply decay_unit|]; exact Hl1.
Qed.

Lemma animate_live f w w' ops :
  WorldLive w -> animate f w = Some (w', ops) -> WorldLive w'.
Proof.
  intros Hw. destruct (ready f) eqn:Hr.
  - apply animate_ok; [apply WorldLive_ok; exact Hw|exact Hr].
  - unfold animate. rewrite Hr. intros [= <- _]. exact Hw.
Qed.

Lemma frames_live fs : forall w,
  Forall wellFormed fs -> WorldLive w ->
  exists w', frames fs w = Some w' /\ WorldLive w'.
Proof.
  induction fs as [|f fs IH]; intros w Hwf Hw.
  - exists w. split; [reflexivity|exact Hw].
  - apply Forall_cons in Hwf as [Hf Hfs]. cbn [frames].
    destruct (animate_total f w Hf) as [[w1 ops] E]. rewrite E. cbn [mbind option_bind fst].
    apply IH; [exact Hfs|]. exact (animate_live f w w1 ops Hw E).
Qed.

Lemma frames_keep_live fs : forall w w',
  WorldLive w -> frames fs w = Some w' -> WorldLive w'.
Proof.
  induction fs as [|f fs IH]; intros w w' Hw; cbn [frames].
  - intros [= <-]. exact Hw.
  - destruct (animate f w) as [[w1 ops]|] eqn:E; [|discriminate].
    cbn [mbind option_bind fst]. apply IH. exact (animate_live f w w1 ops Hw E).
Qed.

(** C6, as the code has it.  The population after any run of frames from
    the empty world, and after the emission phase of a further frame,
    holds only particles with [life <= 1] and [decay >= 2^-7]; and each
    particle of such a population has left it after
    [ceil (1 / decay) + 1] simulation ticks with no emission: the
    population is then what its other particles alone would have given. *)
Theorem C6_expiry_one_tick_later :
  (forall fs w, frames fs initialWorld = Some w -> WorldOk w) /\
  (forall f w w', WorldOk w -> processTracking f w = Some w' -> WorldOk w') /\
  (forall w p l1 l2 n width height,
     WorldOk w -> particlesRef w = l1 ++ p :: l2 ->
     (ceil_reciprocal (Particle.decay p) + 1 <= n)%nat ->
     ticks n [p] width height = [] /\
     ticks n (particlesRef w) width height =
       ticks n l1 width height ++ ticks n l2 width height).
Proof.
  split; [|split].
  - intros fs w E. apply WorldLive_ok.
    exact (frames_keep_live fs initialWorld w initialWorld_live E).
  - exact processTracking_ok.
  - intros w p l1 l2 n width height [Hp _] E Hn. rewrite E in *.
    apply expiry_sound; [|exact Hn].
    rewrite Forall_forall in Hp. apply Hp. set_solver.
Qed.

(** C7.  After any run of frames from the empty world every particle of
    the population has [life] in [(0, 1]]; a frame passes to the renderer
    only particles with [life] in [(0, 1]] (every circle it draws has such
    an alpha); and a particle whose life is used up by the decay step is
    left out of the new population in that very tick, nothing but [life]
    having changed in it. *)
Theorem C7_live_particles :
  (forall fs, Forall wellFormed fs ->
     exists w, frames fs initialWorld = Some w /\ Forall alive (particlesRef w)) /\
  (forall f w w' ops, WorldOk w -> ready f = true -> animate f w = Some (w', ops) ->
     Forall alive (particlesRef w') /\
     forall colour alpha cx cy radius, Arc colour alpha cx cy radius ∈ ops ->
       (0 <? alpha) = true /\ (alpha <=? 1) = true) /\
  (forall l1 p l2 width height,
     (Particle.life p - Particle.decay p >? 0) = false ->
     updateParticles (l1 ++ p :: l2) width height =
       updateParticles l1 width height ++ updateParticles l2 width height /\
     snd (stepParticle height p) = false /\
     Particle.x (fst (stepParticle height p)) = Particle.x p /\
     Particle.y (fst (stepParticle height p)) = Particle.y p /\
     Particle.vx (fst (stepParticle height p)) = Particle.vx p /\
     Particle.vy (fst (stepParticle height p)) = Particle.vy p).
Proof.
  split; [|split].
  - intros fs Hwf.
    destruct (frames_live fs initialWorld Hwf initialWorld_live) as (w & E & Hp & _).
    exists w. split; [exact E|]. eapply Forall_impl; [exact Hp|]. intros p [H _]. exact H.
  - intros f w w' ops Hw Hr E.
    pose proof (animate_ok f w w' ops Hw Hr E) as [Hp _].
    assert (Forall alive (particlesRef w')) as Ha.
    { eapply Forall_impl; [exact Hp|]. intros p [H _]. exact H. }
    split; [exact Ha|]. intros colour alpha cx cy radius Hin.
    rewrite (animate_ready f w Hr) in E.
    destruct (processTracking f w) as [w1|]; [|discriminate].
    cbn [mbind option_bind] in E. injection E as <- <-.
    apply elem_of_cons in Hin as [Hin|Hin]; [discriminate Hin|].
    apply elem_of_app in Hin as [Hin|Hin].
    + apply elem_of_overlay in Hin as (? & ? & ? & ? & Hin). discriminate Hin.
    + unfold drawParticles in Hin. apply list_elem_of_fmap in Hin as (q & Hq & Hin).
      injection Hq as _ -> _ _ _.
      rewrite Forall_forall in Ha. exact (Ha q Hin).
  - intros l1 p l2 width height Hdead. rewrite (stepParticle_dead height p Hdead).
    split; [|repeat split]. unfold updateParticles.
    rewrite omap_app. cbn [omap list_omap].
    rewrite (stepParticle_dead height p Hdead). reflexivity.
Qed.

(** C3, as the code has it.  After any run of frames from the initial
    world the flash intensity is in [[0, 1]]; a burst trigger sets it to
    [Math.min(l + 0.5, 1.0)]; and a frame multiplies it by 0.85 when it is
    above 0.01 and leaves it as it is otherwise. *)
Theorem C3_flash_in_unit_interval :
  (forall fs, Forall wellFormed fs ->
     exists w, frames fs initialWorld = Some w /\
               unit_interval (lightingIntensityRef w)) /\
  (forall speed e w,
     EmitterState.isBurstArmed e = true -> (speed <? BURST_TRIGGER_SPEED) = true ->
     lightingIntensityRef (trigger speed (e, w)).2 =
       Math_min (lightingIntensityRef w + 0.5) 1.0 /\
     (unit_interval (lightingIntensityRef w) ->
      unit_interval (lightingIntensityRef (trigger speed (e, w)).2))) /\
  (forall f w w' ops, ready f = true -> animate f w = Some (w', ops) ->
     exists w1, processTracking f w = Some w1 /\
       lightingIntensityRef w' =
         (if lightingIntensityRef w1 >? 0.01 then lightingIntensityRef w1 * 0.85
          else lightingIntensityRef w1)).
Proof.
  split; [|split].
  - intros fs Hwf.
    destruct (frames_live fs initialWorld Hwf initialWorld_live) as (w & E & _ & Hl).
    exists w. split; [exact E|exact Hl].
  - intros speed e w Ha Hs. unfold trigger. rewrite Ha, Hs.
    cbn [andb snd lightingIntensityRef setLighting drawn pushParticles].
    split; [reflexivity|apply raise_unit].
  - intros f w w' ops Hr E. rewrite (animate_ready f w Hr) in E.
    destruct (processTracking f w) as [w1|]; [|discriminate].
    cbn [mbind option_bind] in E. injection E as <- _.
    exists w1. split; [reflexivity|].
    cbn [setParticles lightingIntensityRef]. apply drawLighting_spec.
Qed.

(** C4, as the code has it.  The colour of a burst particle is the entry
    of the four-colour palette at the index [Math.floor(u * 4)] of its
    colour draw [u]; the palette holds the trail colour, as its second
    entry, and its three other entries differ from it. *)
Theorem C4_burst_palette x y n :
  (exists c, BURST_COLORS !! Z.to_nat (default 0%Z (Math_floor (Math_random (n + 2) * 4)))
               = Some c /\
             Particle.color (createBurstParticle x y n) = "rgba(" +:+ c +:+ ",") /\
  length BURST_COLORS = 4%nat /\
  BURST_COLORS !! 1%nat = Some TRAIL_COLOR /\
  (forall i c, BURST_COLORS !! i = Some c -> i <> 1%nat -> c <> TRAIL_COLOR).
Proof.
  split; [|split; [reflexivity|split; [reflexivity|]]].
  - destruct (random_range (n + 2)) as [H0 H1].
    destruct (Math_floor_mul_4 _ H0 H1) as (z & Hz & Hr).
    destruct (array_get_BURST_COLORS z Hr) as (c & Hc & Hi).
    exists c. rewrite Hz. split; [exact Hi|].
    cbn [createBurstParticle Particle.color].
    change (array_length BURST_COLORS) with 4. rewrite Hz, Hc. reflexivity.
  - intros i c Hi Hne.
    destruct i as [|[|[|[|i]]]]; cbn in Hi; try discriminate; try congruence;
      injection Hi as <-; discriminate.
Qed.

End RandomRange.

End FrameProperties.

(** * Further properties *)

Local Open Scope Z_scope.

(** ** Sums, differences and products against powers of two *)

Lemma SFadd_at_most k x y :
  -1074 <= k -> k + 1 <= 971 ->
  signed false x -> signed false y -> at_most k x -> at_most k y ->
  at_most (k + 1) (SFadd prec emax x y).
Proof.
  intros Hk Hk' Hsx Hsy Hx Hy.
  destruct x as [sx|sx| |sx mx ex], y as [sy|sy| |sy my ey]; cbn [signed at_most] in *;
    try contradiction; subst; try discriminate; cbn [SFadd at_most].
  - destruct sx, sy; exact I.
  - destruct (Z.lt_ge_cases (k - ey) 0) as [Hn|Hn];
      [rewrite pow2_neg in Hy by assumption; lia|].
    replace (k + 1 - ey) with (1 + (k - ey)) by lia. rewrite pow2_split by lia.
    change (2 ^ 1) with 2. lia.
  - destruct (Z.lt_ge_cases (k - ex) 0) as [Hn|Hn];
      [rewrite pow2_neg in Hx by assumption; lia|].
    replace (k + 1 - ex) with (1 + (k - ex)) by lia. rewrite pow2_split by lia.
    change (2 ^ 1) with 2. lia.
  - pose proof (shl_align_spec mx ex (Z.min ex ey)) as (_ & Hvx & Hex).
    pose proof (shl_align_spec my ey (Z.min ex ey)) as (_ & Hvy & Hey).
    specialize (Hex ltac:(lia)). specialize (Hey ltac:(lia)).
    set (ez := Z.min ex ey) in *.
    destruct (shl_align mx ex ez) as [mx' ex']. destruct (shl_align my ey ez) as [my' ey'].
    cbn [fst snd cond_Zopp] in *. subst ex' ey'.
    change (Z.pos mx' + Z.pos my') with (Z.pos (mx' + my')). cbn [binary_normalize].
    apply (below_at_most false). apply binary_round_below; [lia|].
    rewrite Pos2Z.inj_add, Hvx, Hvy.
    destruct (Z.lt_ge_cases (k - ex) 0) as [Hn|Hn];
      [rewrite pow2_neg in Hx by assumption; lia|].
    destruct (Z.lt_ge_cases (k - ey) 0) as [Hn'|Hn'];
      [rewrite pow2_neg in Hy by assumption; lia|].
    pose proof (pow2_pos (ex - ez) ltac:(lia)). pose proof (pow2_pos (ey - ez) ltac:(lia)).
    assert (Z.pos mx * 2 ^ (ex - ez) <= 2 ^ (k - ez)).
    { replace (k - ez) with ((k - ex) + (ex - ez)) by lia. rewrite pow2_split by lia. nia. }
    assert (Z.pos my * 2 ^ (ey - ez) <= 2 ^ (k - ez)).
    { replace (k - ez) with ((k - ey) + (ey - ez)) by lia. rewrite pow2_split by lia. nia. }
    replace (k + 1 - ez) with (1 + (k - ez)) by lia. rewrite pow2_split by lia.
    change (2 ^ 1) with 2. lia.
Qed.

(** Taking at most [2^(k-1)] from a value that is at least [2^k] leaves
    at least [2^(k-1)]. *)
Lemma SFsub_at_least k mx ex d :
  bounded prec emax mx ex = true -> valid_binary d = true ->
  2 ^ (k - ex) <= Zpos mx -> ex <= k ->
  signed false d -> at_most (k - 1) d ->
  at_least (k - 1) (SFsub prec emax (S754_finite false mx ex) d).
Proof.
  intros Hvx Hvd Hx Hexk Hsd Hd.
  pose proof (bounded_canonical mx ex Hvx) as (_ & Hex & _).
  assert (2 ^ (k - 1 - ex) <= Z.pos mx) as Hx'.
  { destruct (Z.lt_ge_cases (k - 1 - ex) 0) as [Hn|Hn]; [rewrite pow2_neg by assumption; lia|].
    assert (2 ^ (k - 1 - ex) <= 2 ^ (k - ex)) by (apply Z.pow_le_mono_r; lia). lia. }
  destruct d as [sd|sd| |sd md ed]; cbn [signed at_most] in *; try contradiction; subst;
    try discriminate; cbn [SFsub negb at_least]; try exact Hx'.
  cbn [valid_binary] in Hvd. pose proof (bounded_canonical md ed Hvd) as (_ & Hed & _).
  pose proof (shl_align_spec mx ex (Z.min ex ed)) as (_ & Hmx & Hex').
  pose proof (shl_align_spec md ed (Z.min ex ed)) as (_ & Hmd & Hed').
  specialize (Hex' ltac:(lia)). specialize (Hed' ltac:(lia)).
  set (ez := Z.min ex ed) in *.
  destruct (shl_align mx ex ez) as [mx' ex']. destruct (shl_align md ed ez) as [md' ed'].
  cbn [fst snd cond_Zopp] in *. subst ex' ed'.
  pose proof (pow2_pos (ex - ez) ltac:(lia)). pose proof (pow2_pos (ed - ez) ltac:(lia)).
  assert (2 ^ (k - ez) <= Z.pos mx') as Hlo.
  { rewrite Hmx. replace (k - ez) with ((k - ex) + (ex - ez)) by lia.
    rewrite pow2_split by lia. nia. }
  assert (Z.pos md' <= 2 ^ (k - 1 - ez)) as Hhi.
  { rewrite Hmd.
    destruct (Z.lt_ge_cases (k - 1 - ed) 0) as [Hn|Hn];
      [rewrite pow2_neg in Hd by assumption; lia|].
    replace (k - 1 - ez) with ((k - 1 - ed) + (ed - ez)) by lia.
    rewrite pow2_split by lia. nia. }
  assert (2 ^ (k - ez) = 2 * 2 ^ (k - 1 - ez)) as Hdbl.
  { replace (k - ez) with (1 + (k - 1 - ez)) by lia.
    destruct (Z.lt_ge_cases (k - 1 - ez) 0) as [Hn|Hn].
    - exfalso. rewrite pow2_neg in Hhi by assumption. lia.
    - rewrite pow2_split by lia. reflexivity. }
  change (Z.pos mx' + - Z.pos md') with (Z.pos mx' - Z.pos md').
  destruct (Z.pos mx' - Z.pos md') as [|p|p] eqn:E; try lia.
  cbn [binary_normalize]. apply binary_round_above; [lia|]. lia.
Qed.

Lemma at_least_positive k x : at_least k x -> SFltb (S754_zero false) x = true.
Proof. destruct x as [s|[]| |[] m e]; cbn [at_least]; try contradiction; reflexivity. Qed.

Lemma at_least_signed k x : at_least k x -> signed false x.
Proof. destruct x as [s|[]| |[] m e]; cbn [at_least signed]; try contradiction; auto. Qed.

Lemma SFleb_at_least k x :
  valid_binary x = true -> -1022 <= k -> SFleb (pow2F k) x = true -> at_least k x.
Proof.
  intros Hv Hk H. destruct x as [s|[]| |[] m e]; try discriminate; cbn [at_least]; try exact I.
  cbn [valid_binary] in Hv. unfold pow2F in H. apply SFleb_finite in H.
  destruct H as [E|[E H]].
  - pose proof (canonical_above m e k Hv Hk E). lia.
  - rewrite <- pow2_52 in H. replace (k - e) with 52 by lia. exact H.
Qed.

(** A product with a negative factor is not positive. *)
Lemma SFmul_negative x m e :
  SFltb (S754_zero false) x = true ->
  signed true (SFmul prec emax x (S754_finite true m e)).
Proof.
  destruct x as [s|[]| |[] mx ex]; try discriminate; intros _; cbn [SFmul xorb signed];
    try reflexivity.
  apply binary_round_aux_signed. lia.
Qed.

(** *** The same on numbers *)

Local Open Scope float_scope.

Lemma le_pow2 c k x :
  Prim2SF c = pow2F k -> (-1022 <= k)%Z ->
  (x <=? c) = true <-> at_most k (Prim2SF x).
Proof.
  intros Hc Hk. rewrite FloatAxioms.leb_spec, Hc. pose proof (Prim2SF_valid x). split.
  - apply SFleb_at_most; assumption.
  - apply at_most_SFleb; assumption.
Qed.

Lemma ge_pow2 c k x :
  Prim2SF c = pow2F k -> (-1022 <= k)%Z ->
  (c <=? x) = true <-> at_least k (Prim2SF x).
Proof.
  intros Hc Hk. rewrite FloatAxioms.leb_spec, Hc. pose proof (Prim2SF_valid x). split.
  - apply SFleb_at_least; assumption.
  - apply at_least_SFleb; assumption.
Qed.

Lemma add_le_pow2 c c2 k x y :
  Prim2SF c = pow2F k -> Prim2SF c2 = pow2F (k + 1) -> (-1022 <= k)%Z -> (k + 1 <= 971)%Z ->
  (0 <=? x) = true -> (0 <=? y) = true -> (x <=? c) = true -> (y <=? c) = true ->
  (x + y <=? c2) = true.
Proof.
  intros Hc Hc2 Hk Hk' Hx0 Hy0 Hx Hy.
  rewrite (le_pow2 c k) in Hx, Hy by assumption. rewrite leb_0_signed in Hx0, Hy0.
  rewrite (le_pow2 c2 (k + 1)) by (assumption || lia). rewrite FloatAxioms.add_spec.
  apply SFadd_at_most; (assumption || lia).
Qed.

Lemma add_ge_pow2 c k a t :
  Prim2SF c = pow2F k -> (-1022 <= k)%Z ->
  positive_finite a -> (c <=? a) = true -> (0 <=? t) = true ->
  (c <=? a + t) = true.
Proof.
  intros Hc Hk (ma & ea & Ha) Hle Ht.
  rewrite (ge_pow2 c k) in * by assumption. rewrite leb_0_signed in Ht.
  pose proof (Prim2SF_valid a) as Hva. pose proof (Prim2SF_valid t) as Hvt.
  rewrite FloatAxioms.add_spec. unfold SF64add. rewrite Ha in *.
  cbn [valid_binary] in Hva. cbn [at_least] in Hle.
  apply SFadd_at_least; assumption.
Qed.

Lemma mul_le_pow2 c k x a :
  Prim2SF c = pow2F k -> (-1022 <= k <= 971)%Z ->
  positive_finite a -> (a <=? c) = true ->
  (0 <=? x) = true -> (x <=? 1) = true ->
  (0 <=? x * a) = true /\ (x * a <=? c) = true.
Proof.
  intros Hc Hk (m & e & Ha) Hac Hx0 Hx1.
  rewrite (le_pow2 c k) in Hac by (assumption || lia).
  rewrite leb_1_at_most in Hx1. rewrite leb_0_signed in Hx0.
  rewrite Ha in Hac. cbn [at_most] in Hac.
  pose proof (SFmul_at_most 0 k (Prim2SF x) m e ltac:(lia) Hx0 Hx1 Hac) as Hb.
  rewrite leb_0_signed, (le_pow2 c k) by (assumption || lia).
  rewrite FloatAxioms.mul_spec, Ha. split.
  - eapply below_signed, Hb.
  - eapply below_at_most, Hb.
Qed.

(** [1 - d] is positive for [d] in [[0, 1/2]]. *)
Lemma one_minus_positive d :
  (0 <=? d) = true -> (d <=? 0.5) = true -> (0 <? 1 - d) = true.
Proof.
  intros Hd0 Hd. rewrite leb_0_signed in Hd0.
  rewrite (le_pow2 0.5 (-1)) in Hd by (reflexivity || lia).
  rewrite FloatAxioms.ltb_spec, Prim2SF_0, FloatAxioms.sub_spec.
  apply (at_least_positive (0 - 1)).
  change (Prim2SF 1) with (S754_finite false 4503599627370496 (-52)).
  apply SFsub_at_least; try assumption; try reflexivity; try lia.
  apply Prim2SF_valid.
Qed.

Lemma leb_pos_nonneg c x :
  positive_finite c -> (c <=? x) = true -> (0 <=? x) = true.
Proof.
  intros (m & e & Hc). rewrite leb_0_signed, FloatAxioms.leb_spec, Hc.
  destruct (Prim2SF x) as [s|[]| |[] mx ex]; cbn [signed]; try discriminate; auto.
Qed.

Lemma leb_trans_pow2 c k c' k' x :
  Prim2SF c = pow2F k -> Prim2SF c' = pow2F k' -> (-1022 <= k <= k')%Z ->
  (x <=? c) = true -> (x <=? c') = true.
Proof.
  intros Hc Hc' Hk. rewrite (le_pow2 c k), (le_pow2 c' k') by (assumption || lia).
  destruct (Prim2SF x) as [s|[]| |[] mx ex]; cbn [at_most]; auto.
  intros H. etransitivity; [exact H|]. apply Z.pow_le_mono_r; lia.
Qed.

(** A positive number times [-0.6] is not positive. *)
Lemma bounce_not_positive v : (0 <? v) = true -> (0 <? v * -0.6) = false.
Proof.
  rewrite !FloatAxioms.ltb_spec, Prim2SF_0, FloatAxioms.mul_spec. intros H.
  apply signed_not_positive.
  change (Prim2SF (-0.6)) with (S754_finite true 5404319552844595 (-53)).
  apply SFmul_negative. exact H.
Qed.

(** ** Emitter keys *)

Lemma dashFree_app s1 s2 : dashFree s1 -> dashFree s2 -> dashFree (s1 +:+ s2).
Proof.
  induction s1 as [|c s1 IH]; [auto|]. intros [Hc H1] H2.
  change (c <> "-"%char /\ dashFree (s1 +:+ s2)). split; auto.
Qed.

Lemma pretty_N_char_no_dash x : pretty_N_char x <> "-"%char.
Proof.
  unfold pretty_N_char.
  destruct x as [|[[[|[]|]|[[]|[]|]|]|[[[]|[]|]|[[]|[]|]|]|]]; discriminate.
Qed.

Lemma append_assoc_String s1 c s2 : s1 +:+ String c s2 = (s1 +:+ String c EmptyString) +:+ s2.
Proof.
  induction s1 as [|d s1 IH]; [reflexivity|].
  change (String d (s1 +:+ String c s2) = String d ((s1 +:+ String c EmptyString) +:+ s2)).
  rewrite IH. reflexivity.
Qed.

Lemma pretty_N_go_dashFree x : forall s,
  exists d, pretty_N_go x s = d +:+ s /\ dashFree d.
Proof.
  induction (N.lt_wf_0 x) as [x _ IH]. intros s.
  destruct (decide (0 < x)%N) as [Hx|Hx].
  - rewrite pretty_N_go_step by exact Hx.
    destruct (IH (x `div` 10)%N (N.div_lt x 10 Hx eq_refl)
                (String (pretty_N_char (x mod 10)) s)) as (d & -> & Hd).
    exists (d +:+ String (pretty_N_char (x mod 10)) EmptyString).
    split; [apply append_assoc_String|].
    apply dashFree_app; [exact Hd|]. split; [apply pretty_N_char_no_dash|exact I].
  - replace x with 0%N by lia. exists EmptyString. split; [reflexivity|exact I].
Qed.

Lemma pretty_nat_dashFree (n : nat) : dashFree (pretty n).
Proof.
  unfold pretty, pretty_nat, pretty, pretty_N.
  destruct (decide (N.of_nat n = 0%N)); [split; [discriminate|exact I]|].
  destruct (pretty_N_go_dashFree (N.of_nat n) EmptyString) as (d & -> & Hd).
  apply dashFree_app; [exact Hd|exact I].
Qed.

Lemma split_at_dash d1 : forall d2 r1 r2,
  dashFree d1 -> dashFree d2 ->
  d1 +:+ String "-" r1 = d2 +:+ String "-" r2 -> d1 = d2 /\ r1 = r2.
Proof.
  induction d1 as [|c d1 IH]; intros [|c2 d2] r1 r2 H1 H2; cbn.
  - intros [= <-]. split; reflexivity.
  - intros [= <- _]. destruct H2 as [H2 _]. congruence.
  - intros [= -> _]. destruct H1 as [H1 _]. congruence.
  - intros [= <- E]. destruct H1 as [_ H1], H2 as [_ H2].
    destruct (IH d2 r1 r2 H1 H2 E) as [-> ->]. split; reflexivity.
Qed.

(** Distinct fingertips have distinct keys. *)
Lemma emitterKey_inj h i h' i' :
  emitterKey h i = emitterKey h' i' -> h = h' /\ i = i'.
Proof.
  unfold emitterKey. intros E.
  apply split_at_dash in E as [Eh Ei]; try apply pretty_nat_dashFree.
  split; apply (inj pretty); assumption.
Qed.

Lemma forEach_steps {A S} (P : nat -> S -> Prop) (arr : list A)
    (body : A -> nat -> S -> S) s :
  (forall a i t, arr !! i = Some a -> P i t -> P (Datatypes.S i) (body a i t)) ->
  P 0%nat s -> P (length arr) (forEach arr body s).
Proof.
  unfold forEach. intros Hbody.
  assert (forall l k t,
            (forall a i, l !! i = Some a -> arr !! (k + i)%nat = Some a) ->
            P k t ->
            P (k + length l)%nat
              (foldl (fun s ia => body ia.2 ia.1 s) t (zip (seq k (length l)) l))) as H.
  { induction l as [|a l IH]; intros k t Hl Ht.
    - rewrite Nat.add_0_r. exact Ht.
    - cbn [length seq zip zip_with foldl fst snd].
      replace (k + Datatypes.S (length l))%nat with (Datatypes.S k + length l)%nat by lia.
      apply IH.
      + intros b i Hb. replace (Datatypes.S k + i)%nat with (k + Datatypes.S i)%nat by lia.
        apply Hl. exact Hb.
      + apply Hbody; [|exact Ht]. specialize (Hl a 0%nat eq_refl).
        rewrite Nat.add_0_r in Hl. exact Hl. }
  intros Hs. apply (H arr 0%nat); [|exact Hs]. intros a i Ha. exact Ha.
Qed.

Lemma elem_of_trackedKeys_inv f key :
  key ∈ trackedKeys f ->
  exists h i, (h < length (landmarks f))%nat /\ (i < 5)%nat /\ key = emitterKey h i.
Proof.
  unfold trackedKeys. rewrite elem_of_list_to_set. intros H.
  apply list_elem_of_bind in H as (h & H & Hh).
  apply list_elem_of_bind in H as (i & H & Hi).
  apply list_elem_of_singleton in H. apply elem_of_seq in Hh, Hi.
  exists h, i. cbn in Hi. repeat split; [lia|lia|exact H].
Qed.

(** ** One call of [updateEmitter] *)

Section EmitterCall.

Variable Math_cos Math_sin : number -> number.
Variable Math_random : nat -> number.

Local Abbreviation createTrailParticle := (createTrailParticle Math_cos Math_sin Math_random).
Local Abbreviation createBurstParticles := (createBurstParticles Math_cos Math_sin Math_random).
Local Abbreviation trigger := (trigger Math_cos Math_sin Math_random).
Local Abbreviation emitTrails := (emitTrails Math_cos Math_sin Math_random).
Local Abbreviation updateEmitter := (updateEmitter Math_cos Math_sin Math_random).

Lemma arm_excludes_trigger s :
  (s >? BURST_ARM_SPEED) = true -> (s <? BURST_TRIGGER_SPEED) = false.
Proof.
  intros H. destruct (s <? BURST_TRIGGER_SPEED) eqn:E; [|reflexivity].
  pose proof (ltb_trans _ _ _ H E) as C. discriminate C.
Qed.

Lemma updateEmitter_new key targetX targetY chance color w :
  emittersRef w !! key = None ->
  updateEmitter key targetX targetY chance color w =
  setEmitter key (seedEmitter targetX targetY) w.
Proof. intros H. unfold updateEmitter. rewrite H. reflexivity. Qed.

(** What one call of [updateEmitter] does to an emitter that is there. *)
Lemma updateEmitter_shape key targetX targetY chance color w e :
  emittersRef w !! key = Some e ->
  let w' := updateEmitter key targetX targetY chance color w in
  let s := speedOf e targetX targetY in
  let e' := smoothed e targetX targetY in
  let fired := fires e targetX targetY in
  exists ts,
    particlesRef w' =
      particlesRef w ++
      (if fired
       then createBurstParticles (EmitterState.x e') (EmitterState.y e') (randomCalls w)
       else []) ++ ts /\
    (length ts <= 2)%nat /\
    Forall (fun p => Particle.type p = trail /\
                     Particle.x p = EmitterState.x e' /\ Particle.y p = EmitterState.y e') ts /\
    ((s >? DRAW_SPEED_THRESHOLD) = false -> ts = []) /\
    (fired = true -> (length ts <= 1)%nat) /\
    emittersRef w' =
      <[key := setArmed (negb fired && (EmitterState.isBurstArmed e || (s >? BURST_ARM_SPEED))) e']>
        (emittersRef w) /\
    lightingIntensityRef w' =
      (if fired then Math_min (lightingIntensityRef w + 0.5) 1.0
       else lightingIntensityRef w).
Proof.
  intros He w' s e' fired. subst w'.
  rewrite (updateEmitter_existing _ _ _ _ _ _ _ _ _ _ He). cbv zeta. fold s e'.
  set (e1 := arm s e').
  pose proof (arm_position s e') as (Hx & Hy & Hvx & Hvy). fold e1 in Hx, Hy, Hvx, Hvy.
  pose proof (arm_armed s e') as Harm. fold e1 in Harm.
  change (EmitterState.isBurstArmed e') with (EmitterState.isBurstArmed e) in Harm.
  assert (EmitterState.isBurstArmed e1 && (s <? BURST_TRIGGER_SPEED) = fired) as Hfire.
  { subst fired. unfold fires. fold s. rewrite Harm.
    destruct (s >? BURST_ARM_SPEED) eqn:Ea; [|reflexivity].
    rewrite (arm_excludes_trigger s Ea), !andb_false_r. reflexivity. }
  assert (forall b, setArmed b e1 = setArmed b e') as Hset.
  { intros b. unfold setArmed. rewrite Hx, Hy, Hvx, Hvy. reflexivity. }
  assert (e1 = setArmed (EmitterState.isBurstArmed e || (s >? BURST_ARM_SPEED)) e') as He1.
  { subst e1. unfold arm. destruct (s >? BURST_ARM_SPEED).
    - rewrite orb_true_r. reflexivity.
    - rewrite orb_false_r. reflexivity. }
  destruct fired eqn:Ef.
  - apply andb_true_iff in Hfire as [Ha1 Htrig].
    rewrite (trigger_fired _ _ _ s e1 w Ha1 Htrig). cbn [fst snd].
    set (w1 := mkWorld _ _ _ _).
    destruct (emitTrails_spec Math_cos Math_sin Math_random s chance color (setArmed false e1) w1)
      as (ts & Hp & Hlen & Hts & Hem & Hl & Hnone & Hone).
    exists ts. cbn [setEmitter particlesRef emittersRef lightingIntensityRef].
    rewrite Hp, Hem, Hl. subst w1. cbn [particlesRef emittersRef lightingIntensityRef].
    rewrite <- app_assoc, Hx, Hy, Hset. cbn [negb andb].
    cbn [setArmed EmitterState.x EmitterState.y] in Hts. rewrite Hx, Hy in Hts.
    specialize (Hone (below_trigger_not_fast s Htrig)).
    repeat split; try assumption; try reflexivity; intros; assumption.
  - rewrite (trigger_idle _ _ _ s e1 w Hfire). cbn [fst snd].
    destruct (emitTrails_spec Math_cos Math_sin Math_random s chance color e1 w)
      as (ts & Hp & Hlen & Hts & Hem & Hl & Hnone & _).
    exists ts. cbn [setEmitter particlesRef emittersRef lightingIntensityRef].
    rewrite Hp, Hem, Hl. rewrite Hx, Hy in Hts. cbn [negb andb app].
    rewrite <- He1. repeat split; try assumption; try reflexivity. discriminate.
Qed.

End EmitterCall.

(** ** The tracking loop *)

Section TrackingLoop.

Variable Math_cos Math_sin : number -> number.
Variable Math_random : nat -> number.

Local Abbreviation updateEmitter := (updateEmitter Math_cos Math_sin Math_random).
Local Abbreviation trackFinger := (trackFinger Math_cos Math_sin Math_random).
Local Abbreviation trackHands := (trackHands Math_cos Math_sin Math_random).
Local Abbreviation processTracking := (processTracking Math_cos Math_sin Math_random).

(** The emission phase is a run of calls of [updateEmitter], one per
    fingertip, hand after hand and finger after finger: a property of the
    number of calls made, the keys seen and the world that each call
    keeps holds when the phase ends, after five calls per hand. *)
Lemma trackHands_steps (P : nat -> gset string -> World -> Prop) f ks w :
  (forall h i tip ks w,
     fingertip f h i = Some tip -> P (5 * h + i)%nat ks w ->
     P (5 * h + i + 1)%nat ({[ emitterKey h i ]} ∪ ks)
       (updateEmitter (emitterKey h i) (targetOf f tip).1 (targetOf f tip).2
          (particleMultiplierOf (array_length (landmarks f) * 5)) (fingerColor i) w)) ->
  P 0%nat ks w ->
  forall ks' w', trackHands f (Some (ks, w)) = Some (ks', w') ->
  P (5 * length (landmarks f))%nat ks' w'.
Proof.
  intros Hstep H0. unfold trackHands.
  set (Q := fun (n : nat) (st : option (gset string * World)) =>
              forall ks' w', st = Some (ks', w') -> P n ks' w').
  set (body := fun hand handIndex =>
                 forEach FINGER_INDICES
                   (trackFinger f (particleMultiplierOf (array_length (landmarks f) * 5))
                      hand handIndex)).
  enough (Q (5 * length (landmarks f))%nat (forEach (landmarks f) body (Some (ks, w)))) as H
    by (intros ks' w' E; exact (H _ _ E)).
  apply (forEach_steps (fun h st => Q (5 * h)%nat st)).
  - intros hand h st Hhand Hst. unfold body.
    replace (5 * S h)%nat with (5 * h + length FINGER_INDICES)%nat by (cbn; lia).
    apply (forEach_steps (fun i st => Q (5 * h + i)%nat st)).
    + intros tipIdx i [[ks1 w1]|] Htip Hst1 ks2 w2; [|discriminate].
      unfold trackFinger. cbn [mbind option_bind fst snd].
      destruct (hand !! tipIdx) as [tip|] eqn:Etip; [|discriminate].
      intros [= <- <-]. replace (5 * h + S i)%nat with (5 * h + i + 1)%nat by lia.
      apply (Hstep h i tip ks1 w1); [|apply Hst1; reflexivity].
      unfold fingertip. rewrite Hhand. cbn [mbind option_bind]. rewrite Htip.
      cbn [mbind option_bind]. exact Etip.
    + rewrite Nat.add_0_r. exact Hst.
  - intros ks' w' [= <- <-]. exact H0.
Qed.

Lemma fingertip_bounds f h i tip :
  fingertip f h i = Some tip -> (h < length (landmarks f))%nat /\ (i < 5)%nat.
Proof.
  unfold fingertip. destruct (landmarks f !! h) as [hand|] eqn:Eh; [|discriminate].
  cbn [mbind option_bind].
  destruct (FINGER_INDICES !! i) as [tipIdx|] eqn:Ei; [|discriminate].
  intros _. split; [eapply lookup_lt_Some; exact Eh|].
  apply FINGER_INDICES_bound in Ei. lia.
Qed.

Lemma fingertip_is_Some f h i :
  wellFormed f -> (h < length (landmarks f))%nat -> (i < 5)%nat ->
  is_Some (fingertip f h i).
Proof.
  intros Hwf Hh Hi. unfold fingertip.
  destruct (lookup_lt_is_Some_2 (landmarks f) h Hh) as [hand Eh]. rewrite Eh.
  cbn [mbind option_bind].
  assert (21 <= length hand)%nat as Hlen.
  { unfold wellFormed in Hwf. rewrite Forall_lookup in Hwf. exact (Hwf _ _ Eh). }
  destruct (lookup_lt_is_Some_2 FINGER_INDICES i ltac:(cbn; lia)) as [tipIdx Ei].
  rewrite Ei. cbn [mbind option_bind]. apply lookup_lt_is_Some_2.
  apply FINGER_INDICES_bound in Ei. lia.
Qed.

Lemma updateEmitter_lookup key k targetX targetY chance color w :
  k <> key ->
  emittersRef (updateEmitter key targetX targetY chance color w) !! k = emittersRef w !! k.
Proof.
  intros Hk. destruct (emittersRef w !! key) as [e|] eqn:E.
  - destruct (updateEmitter_shape Math_cos Math_sin Math_random
                key targetX targetY chance color w e E) as (ts & _ & _ & _ & _ & _ & -> & _).
    apply lookup_insert_ne. congruence.
  - rewrite (updateEmitter_new _ _ _ _ _ _ _ _ _ E). cbn [setEmitter emittersRef].
    apply lookup_insert_ne. congruence.
Qed.

Lemma updateEmitter_present key targetX targetY chance color w :
  is_Some (emittersRef (updateEmitter key targetX targetY chance color w) !! key).
Proof.
  destruct (emittersRef w !! key) as [e|] eqn:E.
  - destruct (updateEmitter_shape Math_cos Math_sin Math_random
                key targetX targetY chance color w e E) as (ts & _ & _ & _ & _ & _ & -> & _).
    rewrite lookup_insert_eq. eexists; reflexivity.
  - rewrite (updateEmitter_new _ _ _ _ _ _ _ _ _ E). cbn [setEmitter emittersRef].
    rewrite lookup_insert_eq. eexists; reflexivity.
Qed.

Lemma updateEmitter_appends key targetX targetY chance color w :
  exists ps,
    particlesRef (updateEmitter key targetX targetY chance color w) = particlesRef w ++ ps /\
    (length ps <= 61)%nat.
Proof.
  destruct (emittersRef w !! key) as [e|] eqn:E.
  - destruct (updateEmitter_shape Math_cos Math_sin Math_random
                key targetX targetY chance color w e E) as (ts & -> & Hlen & _ & _ & Hone & _).
    eexists. split; [reflexivity|]. rewrite length_app.
    destruct (fires e targetX targetY);
      [rewrite createBurstParticles_length; specialize (Hone eq_refl)|]; cbn; lia.
  - rewrite (updateEmitter_new _ _ _ _ _ _ _ _ _ E). exists [].
    cbn [setEmitter particlesRef]. rewrite app_nil_r. split; [reflexivity|cbn; lia].
Qed.

Lemma cleanup_lookup_in ks w key :
  key ∈ ks -> emittersRef (cleanup ks w) !! key = emittersRef w !! key.
Proof.
  intros H. unfold cleanup. cbn [setEmitters emittersRef].
  destruct (emittersRef w !! key) as [e|] eqn:E.
  - apply map_lookup_filter_Some. split; [exact E|exact H].
  - apply map_lookup_filter_None. left. exact E.
Qed.

(** What the emission phase leaves in [activeKeys] and in the registry. *)
Lemma trackHands_registry f w ks' w' :
  trackHands f (Some (∅, w)) = Some (ks', w') ->
  ks' = trackedKeys f /\
  (forall key, key ∈ ks' -> is_Some (emittersRef w' !! key)) /\
  (forall key, key ∉ ks' -> emittersRef w' !! key = emittersRef w !! key).
Proof.
  intros E.
  pose proof (trackHands_keys _ _ _ f ∅ w ks' w' E) as Hsub.
  pose proof (trackHands_steps
    (fun n ks1 w1 =>
       (forall h i, (i < 5)%nat -> (5 * h + i < n)%nat -> emitterKey h i ∈ ks1) /\
       (forall key, key ∈ ks1 -> is_Some (emittersRef w1 !! key)) /\
       (forall key, key ∉ ks1 -> emittersRef w1 !! key = emittersRef w !! key))
    f ∅ w) as H.
  destruct (H) with (ks' := ks') (w' := w') as (Hall & Hdom & Hout); [| |exact E|].
  - intros h i tip ks1 w1 Htip (IH1 & IH2 & IH3). split; [|split].
    + intros h' i' Hi' Hlt. apply fingertip_bounds in Htip as [_ Hi].
      destruct (decide (5 * h' + i' = 5 * h + i)%nat) as [Heq|Hne].
      * assert (h' = h /\ i' = i) as [-> ->] by lia. set_solver.
      * apply elem_of_union_r. apply IH1; [exact Hi'|lia].
    + intros key Hkey. apply elem_of_union in Hkey as [Hkey|Hkey].
      * apply elem_of_singleton in Hkey as ->. apply updateEmitter_present.
      * apply updateEmitter_keeps. apply IH2. exact Hkey.
    + intros key Hkey. rewrite updateEmitter_lookup by set_solver. apply IH3. set_solver.
  - split; [intros; lia|]. split; [set_solver|reflexivity].
  - split; [|split; assumption].
    apply set_eq. intros key. split; [set_solver|].
    intros Hk. apply elem_of_trackedKeys_inv in Hk as (h & i & Hh & Hi & ->).
    apply Hall; [exact Hi|lia].
Qed.

End TrackingLoop.

(** ** The registry after the tracking step *)

Section Registry.

Variable Math_cos Math_sin : number -> number.
Variable Math_random : nat -> number.

Local Abbreviation updateEmitter := (updateEmitter Math_cos Math_sin Math_random).
Local Abbreviation trackFinger := (trackFinger Math_cos Math_sin Math_random).
Local Abbreviation trackHands := (trackHands Math_cos Math_sin Math_random).
Local Abbreviation processTracking := (processTracking Math_cos Math_sin Math_random).

Lemma trackedKeys_nil f : landmarks f = [] -> trackedKeys f = ∅.
Proof. intros H. unfold trackedKeys. rewrite H. reflexivity. Qed.

Lemma NoDup_keys n :
  NoDup (handIndex ← seq 0 n; fingerIndex ← seq 0 (length FINGER_INDICES);
         [emitterKey handIndex fingerIndex]).
Proof.
  apply NoDup_bind.
  - intros h1 h2 key _ _ H1 H2.
    apply list_elem_of_bind in H1 as (i1 & H1 & _), H2 as (i2 & H2 & _).
    apply list_elem_of_singleton in H1, H2. subst key.
    apply emitterKey_inj in H2 as [H2 _]. congruence.
  - intros h _. apply NoDup_bind.
    + intros i1 i2 key _ _ H1 H2. apply list_elem_of_singleton in H1, H2. subst key.
      apply emitterKey_inj in H2 as [_ H2]. congruence.
    + intros i _. apply NoDup_singleton.
    + apply NoDup_seq.
  - apply NoDup_seq.
Qed.

Lemma length_keys n : forall k,
  length (handIndex ← seq k n; fingerIndex ← seq 0 (length FINGER_INDICES);
          [emitterKey handIndex fingerIndex]) = (5 * n)%nat.
Proof.
  induction n as [|n IH]; intros k; [reflexivity|].
  cbn [seq mbind list_bind]. rewrite length_app. cbn [mbind list_bind] in IH.
  rewrite IH. cbn. lia.
Qed.

(** X1.  The registry after the tracking step of a playing frame: one emitter
    per tracked fingertip, five per hand, and no other. *)
Theorem registry_is_tracked_fingertips f w w' :
  playing f = true -> processTracking f w = Some w' ->
  dom (emittersRef w') = trackedKeys f /\
  size (emittersRef w') = (5 * length (landmarks f))%nat /\
  (forall h i, (h < length (landmarks f))%nat -> (i < 5)%nat ->
     is_Some (emittersRef w' !! emitterKey h i)).
Proof.
  intros Hp E.
  assert (dom (emittersRef w') = trackedKeys f) as Hdom.
  { unfold processTracking in E. rewrite Hp in E.
    destruct (0 <? length (landmarks f))%nat eqn:Elen; cbn [mbind option_bind] in E.
    - destruct (trackHands f (Some (∅, w))) as [[ks1 w1]|] eqn:Et; [|discriminate].
      cbn [mbind option_bind fst snd] in E. injection E as <-.
      destruct (trackHands_registry _ _ _ f w ks1 w1 Et) as (-> & Hin & _).
      apply set_eq. intros key. rewrite elem_of_dom. split.
      + intros Hsome. destruct (decide (key ∈ trackedKeys f)) as [|Hn]; [assumption|].
        rewrite (cleanup_lookup _ _ _ Hn) in Hsome. destruct Hsome; discriminate.
      + intros Hk. rewrite (cleanup_lookup_in _ _ _ Hk). apply Hin. exact Hk.
    - injection E as <-. rewrite cleanup_empty.
      apply Nat.ltb_ge in Elen. rewrite trackedKeys_nil; [set_solver|].
      destruct (landmarks f); [reflexivity|cbn in Elen; lia]. }
  split; [exact Hdom|]. split.
  - rewrite <- size_dom, Hdom. unfold trackedKeys.
    rewrite size_list_to_set by apply NoDup_keys. apply length_keys.
  - intros h i Hh Hi. apply elem_of_dom. rewrite Hdom.
    apply elem_of_trackedKeys; assumption.
Qed.

(** X2.  Hands that enter the frame: when none of the tracked keys is in the
    registry, the tracking step pushes no particle, leaves the flash as it
    is and draws no random number, and seeds every fingertip's emitter at
    the mirrored fingertip, at rest and not armed. *)
Theorem entering_hands_emit_nothing f w w' :
  playing f = true -> processTracking f w = Some w' ->
  (forall key, key ∈ trackedKeys f -> emittersRef w !! key = None) ->
  particlesRef w' = particlesRef w /\
  lightingIntensityRef w' = lightingIntensityRef w /\
  randomCalls w' = randomCalls w /\
  (forall h i tip, fingertip f h i = Some tip ->
     emittersRef w' !! emitterKey h i =
       Some (seedEmitter ((1 - Point.x tip) * canvasWidth f) (Point.y tip * canvasHeight f))).
Proof.
  intros Hp E Hfresh. unfold processTracking in E. rewrite Hp in E.
  destruct (0 <? length (landmarks f))%nat eqn:Elen; cbn [mbind option_bind] in E.
  - destruct (trackHands f (Some (∅, w))) as [[ks1 w1]|] eqn:Et; [|discriminate].
    cbn [mbind option_bind fst snd] in E. injection E as <-.
    destruct (trackHands_registry _ _ _ f w ks1 w1 Et) as (Hks & _ & _).
    pose proof (trackHands_steps Math_cos Math_sin Math_random
      (fun n ks2 w2 =>
         particlesRef w2 = particlesRef w /\
         lightingIntensityRef w2 = lightingIntensityRef w /\
         randomCalls w2 = randomCalls w /\
         (forall h i, (h < length (landmarks f))%nat -> (i < 5)%nat ->
            (n <= 5 * h + i)%nat -> emittersRef w2 !! emitterKey h i = None) /\
         (forall h i tip, fingertip f h i = Some tip -> (5 * h + i < n)%nat ->
            emittersRef w2 !! emitterKey h i =
              Some (seedEmitter ((1 - Point.x tip) * canvasWidth f)
                                (Point.y tip * canvasHeight f))))
      f ∅ w) as H.
    destruct H with (ks' := ks1) (w' := w1) as (H1 & H2 & H3 & _ & H5); [| |exact Et|].
    + intros h i tip ks2 w2 Htip (I1 & I2 & I3 & I4 & I5).
      destruct (fingertip_bounds _ _ _ _ Htip) as [Hh Hi].
      rewrite (updateEmitter_new _ _ _ _ _ _ _ _ _ (I4 h i Hh Hi ltac:(lia))).
      cbn [setEmitter particlesRef lightingIntensityRef randomCalls emittersRef].
      repeat split; try assumption.
      * intros h' i' Hh' Hi' Hge. rewrite lookup_insert_ne.
        -- apply I4; [assumption|assumption|lia].
        -- intros Heq. apply emitterKey_inj in Heq as [-> ->]. lia.
      * intros h' i' tip' Htip' Hlt.
        destruct (decide (5 * h' + i' = 5 * h + i)%nat) as [Heq|Hne].
        -- destruct (fingertip_bounds _ _ _ _ Htip') as [_ Hi'].
           assert (h' = h /\ i' = i) as [-> ->] by lia.
           rewrite lookup_insert_eq. rewrite Htip in Htip'. injection Htip' as <-. reflexivity.
        -- rewrite lookup_insert_ne.
           ++ apply I5; [exact Htip'|lia].
           ++ intros Heq. apply emitterKey_inj in Heq as [-> ->]. lia.
    + repeat split. intros h i Hh Hi _. apply Hfresh. apply elem_of_trackedKeys; assumption.
      intros; lia.
    + cbn [cleanup setEmitters particlesRef lightingIntensityRef randomCalls].
      repeat split; try assumption.
      intros h i tip Htip. destruct (fingertip_bounds _ _ _ _ Htip) as [Hh Hi].
      rewrite cleanup_lookup_in.
      * apply H5; [exact Htip|lia].
      * rewrite Hks. apply elem_of_trackedKeys; assumption.
  - injection E as <-. cbn [cleanup setEmitters particlesRef lightingIntensityRef randomCalls].
    repeat split. intros h i tip Htip. apply fingertip_bounds in Htip as [Hh _].
    apply Nat.ltb_ge in Elen. lia.
Qed.

End Registry.

(** ** The density multiplier, from the frame to the draws *)

Section Density.

Variable Math_cos Math_sin : number -> number.
Variable Math_random : nat -> number.

Local Abbreviation createTrailParticle := (createTrailParticle Math_cos Math_sin Math_random).
Local Abbreviation createBurstParticles := (createBurstParticles Math_cos Math_sin Math_random).
Local Abbreviation updateEmitter := (updateEmitter Math_cos Math_sin Math_random).
Local Abbreviation trackFinger := (trackFinger Math_cos Math_sin Math_random).
Local Abbreviation trackHands := (trackHands Math_cos Math_sin Math_random).
Local Abbreviation processTracking := (processTracking Math_cos Math_sin Math_random).

(** The inner loop on one hand: five calls of [updateEmitter], each with
    the multiplier. *)
Lemma trackFingers_fold f chance hand h ks w :
  landmarks f !! h = Some hand -> (21 <= length hand)%nat ->
  exists ks',
    forEach FINGER_INDICES (trackFinger f chance hand h) (Some (ks, w)) =
    Some (ks',
          foldl (fun w '(handIndex, fingerIndex, tip) =>
                   updateEmitter (emitterKey handIndex fingerIndex)
                     (targetOf f tip).1 (targetOf f tip).2 chance
                     (fingerColor fingerIndex) w) w
            (fingerIndex ← seq 0 (length FINGER_INDICES);
             match fingertip f h fingerIndex with
             | Some tip => [(h, fingerIndex, tip)]
             | None => []
             end)).
Proof.
  intros Hhand Hlen.
  destruct (lookup_lt_is_Some_2 hand 4 ltac:(lia)) as [t0 E0].
  destruct (lookup_lt_is_Some_2 hand 8 ltac:(lia)) as [t1 E1].
  destruct (lookup_lt_is_Some_2 hand 12 ltac:(lia)) as [t2 E2].
  destruct (lookup_lt_is_Some_2 hand 16 ltac:(lia)) as [t3 E3].
  destruct (lookup_lt_is_Some_2 hand 20 ltac:(lia)) as [t4 E4].
  unfold forEach, fingertip. rewrite Hhand.
  cbn [FINGER_INDICES length seq zip zip_with foldl fst snd mbind list_bind option_bind
       lookup list_lookup app].
  unfold trackFinger.
  cbn [mbind option_bind fst snd].
  rewrite E0. cbn [mbind option_bind fst snd].
  rewrite E1. cbn [mbind option_bind fst snd].
  rewrite E2. cbn [mbind option_bind fst snd].
  rewrite E3. cbn [mbind option_bind fst snd].
  rewrite E4. cbn [mbind option_bind fst snd app foldl].
  eexists. reflexivity.
Qed.

(** The emission phase is the run of these calls over the fingertips of
    the frame. *)
Lemma trackHands_fold f w :
  wellFormed f ->
  trackHands f (Some (∅, w)) =
  Some (trackedKeys f,
        foldl (fun w '(handIndex, fingerIndex, tip) =>
                 updateEmitter (emitterKey handIndex fingerIndex)
                   (targetOf f tip).1 (targetOf f tip).2
                   (particleMultiplierOf (array_length (landmarks f) * 5))
                   (fingerColor fingerIndex) w) w (fingertipCalls f)).
Proof.
  intros Hwf.
  set (chance := particleMultiplierOf (array_length (landmarks f) * 5)).
  set (call := fun (w : World) '(handIndex, fingerIndex, tip) =>
                 updateEmitter (emitterKey handIndex fingerIndex)
                   (targetOf f tip).1 (targetOf f tip).2 chance (fingerColor fingerIndex) w).
  set (g := fun h : nat =>
              fingerIndex ← seq 0 (length FINGER_INDICES);
              match fingertip f h fingerIndex with
              | Some tip => [(h, fingerIndex, tip)]
              | None => []
              end).
  assert (exists ks', trackHands f (Some (∅, w)) =
                      Some (ks', foldl call w (fingertipCalls f))) as [ks' E].
  { unfold trackHands. fold chance.
    apply (forEach_steps
             (fun h st => exists ks', st = Some (ks', foldl call w (seq 0 h ≫= g)))).
    - intros hand h st Hhand [ks1 ->].
      assert (21 <= length hand)%nat as Hlen.
      { unfold wellFormed in Hwf. rewrite Forall_lookup in Hwf. exact (Hwf _ _ Hhand). }
      destruct (trackFingers_fold f chance hand h ks1 (foldl call w (seq 0 h ≫= g))
                  Hhand Hlen) as [ks2 E2].
      exists ks2. rewrite E2. f_equal. f_equal.
      rewrite seq_S, bind_app, foldl_app. cbn [seq mbind list_bind plus].
      rewrite app_nil_r. reflexivity.
    - exists ∅. reflexivity. }
  rewrite E. destruct (trackHands_registry _ _ _ f w ks' _ E) as [-> _]. reflexivity.
Qed.

Lemma processTracking_fold f w :
  playing f = true -> wellFormed f ->
  processTracking f w =
  Some (cleanup (trackedKeys f)
          (foldl (fun w '(handIndex, fingerIndex, tip) =>
                    updateEmitter (emitterKey handIndex fingerIndex)
                      (targetOf f tip).1 (targetOf f tip).2
                      (particleMultiplierOf (array_length (landmarks f) * 5))
                      (fingerColor fingerIndex) w) w (fingertipCalls f))).
Proof.
  intros Hp Hwf. unfold processTracking. rewrite Hp.
  destruct (landmarks f) as [|hand hands] eqn:El.
  - unfold fingertipCalls, trackedKeys. rewrite El. reflexivity.
  - cbn [length Nat.ltb Nat.leb]. rewrite <- El. rewrite (trackHands_fold f w Hwf).
    reflexivity.
Qed.

Lemma length_fingertipCalls f :
  wellFormed f -> length (fingertipCalls f) = (5 * length (landmarks f))%nat.
Proof.
  intros Hwf. unfold fingertipCalls.
  assert (forall n k, (k + n <= length (landmarks f))%nat ->
            length (handIndex ← seq k n;
                    fingerIndex ← seq 0 (length FINGER_INDICES);
                    match fingertip f handIndex fingerIndex with
                    | Some tip => [(handIndex, fingerIndex, tip)]
                    | None => []
                    end) = (5 * n)%nat) as H.
  { induction n as [|n IH]; intros k Hk; [reflexivity|].
    cbn [seq mbind list_bind]. rewrite length_app. cbn [mbind list_bind] in IH.
    rewrite IH by lia.
    destruct (fingertip_is_Some f k 0 Hwf ltac:(lia) ltac:(lia)) as [t0 E0].
    destruct (fingertip_is_Some f k 1 Hwf ltac:(lia) ltac:(lia)) as [t1 E1].
    destruct (fingertip_is_Some f k 2 Hwf ltac:(lia) ltac:(lia)) as [t2 E2].
    destruct (fingertip_is_Some f k 3 Hwf ltac:(lia) ltac:(lia)) as [t3 E3].
    destruct (fingertip_is_Some f k 4 Hwf ltac:(lia) ltac:(lia)) as [t4 E4].
    cbn [FINGER_INDICES length seq mbind list_bind]. rewrite E0, E1, E2, E3, E4.
    cbn [app length]. lia. }
  apply H. lia.
Qed.

Lemma fast_is_drawing s :
  (s >? DRAW_SPEED_THRESHOLD * 2) = true -> (s >? DRAW_SPEED_THRESHOLD) = true.
Proof. intros H. exact (ltb_trans DRAW_SPEED_THRESHOLD (DRAW_SPEED_THRESHOLD * 2) s eq_refl H). Qed.

(** One call on an emitter that is there: after the burst, a first draw
    when the speed is above the threshold, a second when it is above
    twice the threshold; each draw that is below the chance pushes one
    trail particle, made with the four draws that follow it. *)
Lemma updateEmitter_gate key targetX targetY particleChance color w e :
  emittersRef w !! key = Some e ->
  let s := speedOf e targetX targetY in
  let e' := smoothed e targetX targetY in
  let fired := fires e targetX targetY in
  let n0 := (randomCalls w + (if fired then 300 else 0))%nat in
  let first := (s >? DRAW_SPEED_THRESHOLD) && (Math_random n0 <? particleChance) in
  let n1 := (n0 + 1 + (if first then 4 else 0))%nat in
  let second := (s >? DRAW_SPEED_THRESHOLD * 2) && (Math_random n1 <? particleChance) in
  let trailAt n :=
    createTrailParticle (EmitterState.x e') (EmitterState.y e')
      (Point.mk (EmitterState.vx e') (EmitterState.vy e')) color n in
  let w' := updateEmitter key targetX targetY particleChance color w in
  spawned w w' =
    (if fired
     then createBurstParticles (EmitterState.x e') (EmitterState.y e') (randomCalls w)
     else []) ++
    (if first then [trailAt (n0 + 1)%nat] else []) ++
    (if second then [trailAt (n1 + 1)%nat] else []) /\
  randomCalls w' =
    (n0 + (if s >? DRAW_SPEED_THRESHOLD then 1 + (if first then 4 else 0) else 0)
        + (if s >? DRAW_SPEED_THRESHOLD * 2 then 1 + (if second then 4 else 0) else 0))%nat.
Proof.
  intros He s e' fired n0 first n1 second trailAt w'. subst w'.
  rewrite (updateEmitter_existing _ _ _ _ _ _ _ _ _ _ He). cbv zeta. fold s e'.
  set (e1 := arm s e').
  pose proof (arm_position s e') as (Hx & Hy & Hvx & Hvy). fold e1 in Hx, Hy, Hvx, Hvy.
  pose proof (arm_armed s e') as Harm. fold e1 in Harm.
  change (EmitterState.isBurstArmed e') with (EmitterState.isBurstArmed e) in Harm.
  assert (EmitterState.isBurstArmed e1 && (s <? BURST_TRIGGER_SPEED) = fired) as Hfire.
  { subst fired. unfold fires. fold s. rewrite Harm.
    destruct (s >? BURST_ARM_SPEED) eqn:Ea; [|reflexivity].
    rewrite (arm_excludes_trigger s Ea), !andb_false_r. reflexivity. }
  unfold spawned.
  assert (forall e2 w1 bs,
            EmitterState.x e2 = EmitterState.x e' -> EmitterState.y e2 = EmitterState.y e' ->
            EmitterState.vx e2 = EmitterState.vx e' -> EmitterState.vy e2 = EmitterState.vy e' ->
            particlesRef w1 = particlesRef w ++ bs -> randomCalls w1 = n0 ->
            drop (length (particlesRef w))
              (particlesRef (setEmitter key e2 (emitTrails Math_cos Math_sin Math_random
                                                  s particleChance color e2 w1))) =
              bs ++ (if first then [trailAt (n0 + 1)%nat] else []) ++
                    (if second then [trailAt (n1 + 1)%nat] else []) /\
            randomCalls (setEmitter key e2 (emitTrails Math_cos Math_sin Math_random
                                              s particleChance color e2 w1)) =
              (n0 + (if s >? DRAW_SPEED_THRESHOLD then 1 + (if first then 4 else 0) else 0)
                  + (if s >? DRAW_SPEED_THRESHOLD * 2
                     then 1 + (if second then 4 else 0) else 0))%nat) as Htrail.
  { intros e2 w1 bs Ex Ey Evx Evy Ep En.
    subst second n1 first trailAt. unfold emitTrails.
    cbn [setEmitter particlesRef randomCalls].
    rewrite Ex, Ey, Evx, Evy.
    destruct (s >? DRAW_SPEED_THRESHOLD) eqn:E3.
    2:{ destruct (s >? DRAW_SPEED_THRESHOLD * 2) eqn:E6;
          [rewrite (fast_is_drawing s E6) in E3; discriminate E3|].
        cbn [andb app]. rewrite Ep, drop_app_length, !app_nil_r, En.
        split; [reflexivity|lia]. }
    cbn [andb drawn randomCalls]. rewrite En. change trailDraws with 4%nat.
    destruct (Math_random n0 <? particleChance) eqn:Er1;
      cbn [drawn pushParticles randomCalls particlesRef];
      rewrite ?En, ?Nat.add_0_r;
      (destruct (s >? DRAW_SPEED_THRESHOLD * 2) eqn:E6; cbn [andb];
       [match goal with
        | |- context [Math_random ?n <? particleChance] =>
            destruct (Math_random n <? particleChance) eqn:Er2
        end|]);
      cbn [drawn pushParticles randomCalls particlesRef];
      rewrite ?En, ?Ep, <- ?app_assoc, ?drop_app_length, ?app_nil_r;
      (split; [reflexivity|lia]). }
  destruct fired eqn:Ef.
  - apply andb_true_iff in Hfire as [Ha1 Htrig].
    rewrite (trigger_fired _ _ _ s e1 w Ha1 Htrig). cbn [fst snd].
    apply Htrail; cbn [setArmed EmitterState.x EmitterState.y EmitterState.vx EmitterState.vy
                       particlesRef randomCalls]; try assumption.
    + rewrite Hx, Hy. reflexivity.
    + subst n0. reflexivity.
  - rewrite (trigger_idle _ _ _ s e1 w Hfire). cbn [fst snd].
    apply Htrail; try assumption.
    + rewrite app_nil_r. reflexivity.
    + subst n0. lia.
Qed.

(** C5.  Every call of [updateEmitter] that a frame makes, one per tracked
    fingertip and five per hand, is handed the same chance,
    [1 / Math.max(1, E * 0.5)] for [E] the number of tracked fingertips,
    which is the number of keys the cleanup keeps:
    the tracking step of a playing frame is the run of these calls,
    followed by the cleanup.  In a call on an emitter that is there, the
    chance is what each [Math.random] draw of the trail step is compared
    with: one draw when the speed is above the threshold and a second when
    it is above twice the threshold, and a trail particle for each draw
    that is below the chance, and for no other; the burst is not gated.
    The chance is 0.4 for one hand and 0.2 for two; the quotient is 1 for
    one emitter, 0.2 for ten and 1 for none, and a number of [[0, 1]] for
    every count, and more generally for every [E] whose half is not
    NaN. *)
Theorem C5_density_multiplier :
  (forall f w, playing f = true -> wellFormed f ->
     let E := array_length (landmarks f) * 5 in
     let particleChance := 1 / Math_max 1 (E * 0.5) in
     size (trackedKeys f) = (5 * length (landmarks f))%nat /\
     length (fingertipCalls f) = (5 * length (landmarks f))%nat /\
     processTracking f w =
       Some (cleanup (trackedKeys f)
               (foldl (fun w '(handIndex, fingerIndex, tip) =>
                         updateEmitter (emitterKey handIndex fingerIndex)
                           (targetOf f tip).1 (targetOf f tip).2 particleChance
                           (fingerColor fingerIndex) w) w (fingertipCalls f)))) /\
  (forall key targetX targetY particleChance color w e,
     emittersRef w !! key = Some e ->
     let s := speedOf e targetX targetY in
     let e' := smoothed e targetX targetY in
     let fired := fires e targetX targetY in
     let n0 := (randomCalls w + (if fired then 300 else 0))%nat in
     let first := (s >? DRAW_SPEED_THRESHOLD) && (Math_random n0 <? particleChance) in
     let n1 := (n0 + 1 + (if first then 4 else 0))%nat in
     let second := (s >? DRAW_SPEED_THRESHOLD * 2) && (Math_random n1 <? particleChance) in
     let trailAt n :=
       createTrailParticle (EmitterState.x e') (EmitterState.y e')
         (Point.mk (EmitterState.vx e') (EmitterState.vy e')) color n in
     let w' := updateEmitter key targetX targetY particleChance color w in
     spawned w w' =
       (if fired
        then createBurstParticles (EmitterState.x e') (EmitterState.y e') (randomCalls w)
        else []) ++
       (if first then [trailAt (n0 + 1)%nat] else []) ++
       (if second then [trailAt (n1 + 1)%nat] else []) /\
     randomCalls w' =
       (n0 + (if s >? DRAW_SPEED_THRESHOLD then 1 + (if first then 4 else 0) else 0)
           + (if s >? DRAW_SPEED_THRESHOLD * 2
              then 1 + (if second then 4 else 0) else 0))%nat) /\
  (forall hands : list (list Point.t),
     length hands = 1%nat -> particleMultiplierOf (array_length hands * 5) = 0.4) /\
  (forall hands : list (list Point.t),
     length hands = 2%nat -> particleMultiplierOf (array_length hands * 5) = 0.2) /\
  particleMultiplierOf 1 = 1 /\
  particleMultiplierOf 10 = 0.2 /\
  particleMultiplierOf 0 = 1 /\
  (forall E, is_nan (E * 0.5) = false ->
     (0 <=? 1 / Math_max 1 (E * 0.5)) = true /\ (1 / Math_max 1 (E * 0.5) <=? 1) = true) /\
  (forall hands : list (list Point.t),
     unit_interval (particleMultiplierOf (array_length hands * 5))).
Proof.
  split.
  { intros f w Hp Hwf E particleChance.
    split; [|split; [exact (length_fingertipCalls f Hwf)|exact (processTracking_fold f w Hp Hwf)]].
    unfold trackedKeys. rewrite size_list_to_set by apply NoDup_keys. apply length_keys. }
  split; [exact updateEmitter_gate|].
  split; [intros hands H; unfold array_length; rewrite H; reflexivity|].
  split; [intros hands H; unfold array_length; rewrite H; reflexivity|].
  split; [reflexivity|]. split; [reflexivity|].
  split; [reflexivity|]. split; [exact particleMultiplierOf_unit|].
  intros hands. apply particleMultiplierOf_unit.
  apply (is_nan_signed false), leb_0_signed.
  apply mul_nonneg; [|eapply positive_finite_intro; reflexivity].
  apply mul_nonneg; [|eapply positive_finite_intro; reflexivity].
  apply array_length_nonneg.
Qed.

End Density.

(** ** What the tracking step pushes *)

Section Making.

Variable Math_cos Math_sin : number -> number.
Variable Math_random : nat -> number.

Local Abbreviation createTrailParticle := (createTrailParticle Math_cos Math_sin Math_random).
Local Abbreviation createBurstParticle := (createBurstParticle Math_cos Math_sin Math_random).
Local Abbreviation createBurstParticles := (createBurstParticles Math_cos Math_sin Math_random).
Local Abbreviation emitTrails := (emitTrails Math_cos Math_sin Math_random).
Local Abbreviation updateEmitter := (updateEmitter Math_cos Math_sin Math_random).
Local Abbreviation trackHands := (trackHands Math_cos Math_sin Math_random).
Local Abbreviation processTracking := (processTracking Math_cos Math_sin Math_random).
Local Abbreviation animate := (animate Math_cos Math_sin Math_random).
Local Abbreviation frames := (frames Math_cos Math_sin Math_random).
Local Abbreviation made := (made Math_cos Math_sin Math_random).

Lemma emitTrails_made speed chance color e w :
  exists ts,
    particlesRef (emitTrails speed chance color e w) = particlesRef w ++ ts /\
    Forall (fun p => exists n,
              p = createTrailParticle (EmitterState.x e) (EmitterState.y e)
                    (Point.mk (EmitterState.vx e) (EmitterState.vy e)) color n) ts.
Proof.
  unfold emitTrails.
  destruct (speed >? DRAW_SPEED_THRESHOLD) eqn:E1.
  2:{ exists []. rewrite app_nil_r. split; [reflexivity|constructor]. }
  repeat match goal with
         | |- context [if ?b then _ else _] => destruct b eqn:?
         end;
    cbn [randomCalls drawn pushParticles particlesRef];
    rewrite <- ?app_assoc;
    eexists; (split; [reflexivity || (symmetry; apply app_nil_r)|]);
    repeat constructor; eexists; reflexivity.
Qed.

Lemma updateEmitter_made key targetX targetY chance fingerIndex w :
  (fingerIndex < 5)%nat ->
  exists ps,
    particlesRef (updateEmitter key targetX targetY chance (fingerColor fingerIndex) w)
      = particlesRef w ++ ps /\
    (length ps <= 61)%nat /\ Forall made ps.
Proof.
  intros Hi.
  destruct (updateEmitter_appends Math_cos Math_sin Math_random
              key targetX targetY chance (fingerColor fingerIndex) w) as (ps & Hps & Hlen).
  exists ps. split; [exact Hps|]. split; [exact Hlen|].
  destruct (emittersRef w !! key) as [e|] eqn:E.
  - rewrite (updateEmitter_existing _ _ _ _ _ _ _ _ _ _ E) in Hps. cbv zeta in Hps.
    cbn [setEmitter particlesRef] in Hps.
    destruct (trigger _ _ _ _ _) as [e1 w1] eqn:Et. cbn [fst snd] in Hps.
    destruct (emitTrails_made (speedOf e targetX targetY) chance (fingerColor fingerIndex) e1 w1)
      as (ts & Hts & Hmade).
    rewrite Hts in Hps.
    assert (exists bs, particlesRef w1 = particlesRef w ++ bs /\ Forall made bs)
      as (bs & Hbs & Hb).
    { unfold trigger in Et. destruct (_ && _); injection Et as <- <-.
      - eexists. cbn [setLighting drawn pushParticles particlesRef]. split; [reflexivity|].
        unfold createBurstParticles. apply Forall_forall. intros p Hp.
        apply list_elem_of_fmap in Hp as (j & -> & _). left. eexists _, _, _. reflexivity.
      - exists []. rewrite app_nil_r. split; [reflexivity|constructor]. }
    rewrite Hbs, <- app_assoc in Hps. apply app_inv_head in Hps. subst ps.
    apply Forall_app. split; [exact Hb|].
    eapply Forall_impl; [exact Hmade|]. intros p [n ->]. right.
    eexists _, _, _, fingerIndex, n. split; [exact Hi|reflexivity].
  - rewrite (updateEmitter_new _ _ _ _ _ _ _ _ _ E) in Hps. cbn [setEmitter particlesRef] in Hps.
    rewrite <- (app_nil_r (particlesRef w)) in Hps at 1. apply app_inv_head in Hps.
    subst ps. constructor.
Qed.

(** What the tracking step pushes: particles as the factories make them,
    after the population it found, at most 61 per fingertip. *)
Lemma processTracking_made f w w' :
  processTracking f w = Some w' ->
  exists ps,
    particlesRef w' = particlesRef w ++ ps /\
    (length ps <= 305 * length (landmarks f))%nat /\ Forall made ps.
Proof.
  unfold processTracking. destruct (playing f).
  - destruct (0 <? length (landmarks f))%nat eqn:Elen; cbn [mbind option_bind].
    + destruct (trackHands f (Some (∅, w))) as [[ks1 w1]|] eqn:Et; [|discriminate].
      cbn [mbind option_bind fst snd]. intros [= <-].
      pose proof (trackHands_steps Math_cos Math_sin Math_random
        (fun n ks2 w2 =>
           exists ps, particlesRef w2 = particlesRef w ++ ps /\ (length ps <= 61 * n)%nat /\
                      Forall made ps)
        f ∅ w) as H.
      destruct H with (ks' := ks1) (w' := w1) as (ps & Hps & Hlen & Hm); [| |exact Et|].
      * intros h i tip ks2 w2 Htip (ps & Hps & Hlen & Hm).
        apply fingertip_bounds in Htip as [_ Hi].
        destruct (updateEmitter_made (emitterKey h i) (targetOf f tip).1 (targetOf f tip).2
                    (particleMultiplierOf (array_length (landmarks f) * 5)) i w2 Hi)
          as (qs & -> & Hq & Hqm).
        exists (ps ++ qs). rewrite Hps, <- app_assoc. split; [reflexivity|].
        rewrite length_app. split; [lia|]. apply Forall_app. split; assumption.
      * exists []. rewrite app_nil_r. split; [reflexivity|]. split; [cbn; lia|constructor].
      * exists ps. cbn [cleanup setEmitters particlesRef].
        split; [exact Hps|]. split; [lia|exact Hm].
    + intros [= <-]. exists []. cbn [cleanup setEmitters particlesRef].
      rewrite app_nil_r. split; [reflexivity|]. split; [cbn; lia|constructor].
  - intros [= <-]. exists []. rewrite app_nil_r.
    split; [reflexivity|]. split; [cbn; lia|constructor].
Qed.

(** X3.  No call of [updateEmitter] pushes 62 particles: a burst needs a speed
    below the trigger speed, the second trail particle a speed above twice
    the drawing threshold.  A call pushes at most 61 particles, the
    tracking step at most 305 per hand, after the population it found,
    each of them as a factory makes it. *)
Theorem at_most_61_particles_per_call :
  (forall key targetX targetY chance color w,
     let w' := updateEmitter key targetX targetY chance color w in
     particlesRef w' = particlesRef w ++ spawned w w' /\
     (length (spawned w w') <= 61)%nat) /\
  (forall f w w',
     processTracking f w = Some w' ->
     particlesRef w' = particlesRef w ++ spawned w w' /\
     (length (spawned w w') <= 305 * length (landmarks f))%nat /\
     Forall made (spawned w w')).
Proof.
  split.
  - intros key targetX targetY chance color w w'. subst w'.
    destruct (updateEmitter_appends Math_cos Math_sin Math_random
                key targetX targetY chance color w) as (ps & Hps & Hlen).
    unfold spawned. rewrite Hps, drop_app_length. split; [reflexivity|exact Hlen].
  - intros f w w' E. destruct (processTracking_made f w w' E) as (ps & Hps & Hlen & Hm).
    unfold spawned. rewrite Hps, drop_app_length. repeat split; assumption.
Qed.

(** A property that the factories establish and a simulation step keeps
    holds of every particle of every population. *)
Section PopulationInvariant.

Variable P : Particle.t -> Prop.
Hypothesis P_made : forall p, made p -> P p.
Hypothesis P_step : forall height p,
  P p -> snd (stepParticle height p) = true -> P (fst (stepParticle height p)).

Lemma updateParticles_invariant ps width height :
  Forall P ps -> Forall P (updateParticles ps width height).
Proof.
  rewrite !Forall_forall. intros H q Hq.
  apply elem_of_updateParticles in Hq as (p & Hp & Hq).
  pose proof (P_step height p (H p Hp)) as Hs. rewrite Hq in Hs. apply Hs. reflexivity.
Qed.

Lemma processTracking_invariant f w w' :
  Forall P (particlesRef w) -> processTracking f w = Some w' -> Forall P (particlesRef w').
Proof.
  intros Hw E. destruct (processTracking_made f w w' E) as (ps & -> & _ & Hm).
  apply Forall_app. split; [exact Hw|]. eapply Forall_impl; [exact Hm|exact P_made].
Qed.

Lemma animate_invariant f w w' ops :
  Forall P (particlesRef w) -> animate f w = Some (w', ops) -> Forall P (particlesRef w').
Proof.
  intros Hw. destruct (ready f) eqn:Hr.
  - rewrite (animate_ready _ _ _ f w Hr).
    destruct (processTracking f w) as [w1|] eqn:E1; [|discriminate].
    cbn [mbind option_bind]. intros [= <- _].
    destruct (drawLighting_spec f w1) as (Ep & _ & _).
    cbn [setParticles particlesRef]. apply updateParticles_invariant. rewrite Ep.
    exact (processTracking_invariant f w w1 Hw E1).
  - unfold animate. rewrite Hr. intros [= <- _]. exact Hw.
Qed.

Lemma frames_invariant fs : forall w w',
  Forall P (particlesRef w) -> frames fs w = Some w' -> Forall P (particlesRef w').
Proof.
  induction fs as [|f fs IH]; intros w w' Hw; cbn [frames].
  - intros [= <-]. exact Hw.
  - destruct (animate f w) as [[w1 ops]|] eqn:E; [|discriminate].
    cbn [mbind option_bind fst]. apply IH. exact (animate_invariant f w w1 ops Hw E).
Qed.

End PopulationInvariant.

End Making.

(** ** Well-made particles *)

Lemma positive_finite_of_unit l :
  (0 <? l) = true -> (l <=? 1) = true -> positive_finite l.
Proof.
  rewrite FloatAxioms.ltb_spec, FloatAxioms.leb_spec, Prim2SF_0, Prim2SF_1.
  destruct (Prim2SF l) as [s|[]| |[] m e] eqn:E; try discriminate. intros _ _.
  exists m, e. exact E.
Qed.

(** The product of a number of [[0, 2^k]] and one of [(0, 1]]. *)
Lemma mul_life_bounded c k x l :
  Prim2SF c = pow2F k -> (-1022 <= k <= 971)%Z ->
  (0 <=? x) = true -> (x <=? c) = true ->
  (0 <? l) = true -> (l <=? 1) = true ->
  (0 <=? x * l) = true /\ (x * l <=? c) = true.
Proof.
  intros Hc Hk Hx0 Hx Hl0 Hl1.
  destruct (positive_finite_of_unit l Hl0 Hl1) as (m & e & Hl).
  rewrite (le_pow2 c k) in Hx by (assumption || lia). rewrite leb_0_signed in Hx0.
  rewrite leb_1_at_most, Hl in Hl1. cbn [at_most] in Hl1.
  pose proof (SFmul_at_most k 0 (Prim2SF x) m e ltac:(lia) Hx0 Hx Hl1) as Hb.
  rewrite Z.add_0_r in Hb.
  rewrite leb_0_signed, (le_pow2 c k) by (assumption || lia).
  rewrite FloatAxioms.mul_spec, Hl. split.
  - eapply below_signed, Hb.
  - eapply below_at_most, Hb.
Qed.

Lemma fingerColor_elem i : (i < 5)%nat -> fingerColor i ∈ FINGER_COLORS.
Proof.
  intros Hi. destruct i as [|[|[|[|[|i]]]]]; try lia; vm_compute; set_solver.
Qed.

Lemma wellMade_step height p :
  wellMade p -> wellMade (fst (stepParticle height p)).
Proof.
  unfold wellMade, stepParticle. intros H.
  destruct (_ <? _); cbn [fst Particle.size Particle.decay Particle.type Particle.gravity
                          Particle.color]; exact H.
Qed.

Section MakingProperties.

Variable Math_cos Math_sin : number -> number.
Variable Math_random : nat -> number.

Local Abbreviation createTrailParticle := (createTrailParticle Math_cos Math_sin Math_random).
Local Abbreviation createBurstParticle := (createBurstParticle Math_cos Math_sin Math_random).
Local Abbreviation processTracking := (processTracking Math_cos Math_sin Math_random).
Local Abbreviation animate := (animate Math_cos Math_sin Math_random).
Local Abbreviation frames := (frames Math_cos Math_sin Math_random).
Local Abbreviation made := (made Math_cos Math_sin Math_random).

Hypothesis random_range :
  forall k, (0 <=? Math_random k) = true /\ (Math_random k <? 1) = true.

Lemma random_unit k : (0 <=? Math_random k) = true /\ (Math_random k <=? 1) = true.
Proof. destruct (random_range k) as [H0 H1]. split; [exact H0|apply ltb_leb; exact H1]. Qed.

Lemma made_wellMade p : made p -> wellMade p.
Proof.
  intros [(x & y & n & ->)|(x & y & v & i & n & Hi & ->)]; unfold wellMade;
    cbn [createBurstParticle createTrailParticle
         Particle.size Particle.decay Particle.type Particle.gravity Particle.color].
  - destruct (random_unit (n + 4)) as [H0 H1]. destruct (random_unit (n + 3)) as [G0 G1].
    split; [|split; [|split; [|split; [reflexivity|]]]].
    + apply (add_ge_pow2 2 1); try reflexivity; try lia.
      * eapply positive_finite_intro. reflexivity.
      * apply mul_nonneg; [exact H0|eapply positive_finite_intro; reflexivity].
    + apply (add_le_pow2 4 8 2); try reflexivity; try lia.
      * apply mul_nonneg; [exact H0|eapply positive_finite_intro; reflexivity].
      * apply (mul_le_pow2 4 2); try reflexivity; try lia; try assumption.
        eapply positive_finite_intro. reflexivity.
    + apply (add_le_pow2 0.03125 0.0625 (-5)); try reflexivity; try lia.
      * apply mul_nonneg; [exact G0|eapply positive_finite_intro; reflexivity].
      * apply (mul_le_pow2 0.03125 (-5)); try reflexivity; try lia; try assumption.
        eapply positive_finite_intro. reflexivity.
    + destruct (random_range (n + 2)) as [R0 R1].
      destruct (Math_floor_mul_4 _ R0 R1) as (z & Hz & Hr).
      destruct (array_get_BURST_COLORS z Hr) as (c & Hc & Hl).
      exists c. split; [eapply list_elem_of_lookup_2; exact Hl|].
      change (array_length BURST_COLORS) with 4. rewrite Hz, Hc. reflexivity.
  - destruct (random_unit (n + 3)) as [H0 H1]. destruct (random_unit (n + 2)) as [G0 G1].
    split; [|split; [|split; [|split; [reflexivity|]]]].
    + apply (add_ge_pow2 2 1); try reflexivity; try lia.
      * eapply positive_finite_intro. reflexivity.
      * apply mul_nonneg; [exact H0|eapply positive_finite_intro; reflexivity].
    + apply (add_le_pow2 4 8 2); try reflexivity; try lia.
      * apply mul_nonneg; [exact H0|eapply positive_finite_intro; reflexivity].
      * apply (mul_le_pow2 4 2); try reflexivity; try lia; try assumption.
        eapply positive_finite_intro. reflexivity.
    + apply (add_le_pow2 0.03125 0.0625 (-5)); try reflexivity; try lia.
      * apply mul_nonneg; [exact G0|eapply positive_finite_intro; reflexivity].
      * apply (mul_le_pow2 0.03125 (-5)); try reflexivity; try lia; try assumption.
        eapply positive_finite_intro. reflexivity.
    + exists (fingerColor i). split; [apply fingerColor_elem; exact Hi|reflexivity].
Qed.

Lemma made_fresh p :
  made p ->
  Particle.life p = 1 /\ (0 <=? Particle.decay p) = true /\
  (Particle.decay p <=? 0.5) = true.
Proof.
  intros Hm. pose proof (made_wellMade p Hm) as (_ & _ & Hd & _).
  split; [|split].
  - destruct Hm as [(x & y & n & ->)|(x & y & v & i & n & Hi & ->)]; reflexivity.
  - destruct Hm as [(x & y & n & ->)|(x & y & v & i & n & Hi & ->)];
      cbn [createBurstParticle createTrailParticle Particle.decay];
      (apply add_nonneg; [reflexivity|]); apply mul_nonneg;
      try apply random_range; eapply positive_finite_intro; reflexivity.
  - apply (leb_trans_pow2 0.0625 (-4) 0.5 (-1)); try reflexivity; try lia. exact Hd.
Qed.

Lemma made_sound p : made p -> sound p.
Proof.
  intros [(x & y & n & ->)|(x & y & v & i & n & Hi & ->)].
  - split; [reflexivity|]. cbn [createBurstParticle Particle.decay].
    apply add_at_least; [eapply positive_finite_intro; reflexivity|reflexivity|].
    apply mul_nonneg; [apply random_range|]. eapply positive_finite_intro. reflexivity.
  - apply createTrailParticle_sound. exact random_range.
Qed.

End MakingProperties.

(** ** The simulation step, particle by particle *)

Lemma length_updateParticles ps width height :
  (length (updateParticles ps width height) <= length ps)%nat.
Proof.
  unfold updateParticles. induction ps as [|p ps IH]; [reflexivity|].
  cbn [omap list_omap length]. destruct (stepParticle height p) as [p' []]; cbn [length]; lia.
Qed.

(** X4.  Particles do not interact: a population evolves as its parts do;
    ticks only ever remove particles; the canvas width plays no part. *)
Theorem particles_evolve_independently :
  (forall n l1 l2 width height,
     ticks n (l1 ++ l2) width height = ticks n l1 width height ++ ticks n l2 width height) /\
  (forall n m ps width height,
     ticks (n + m) ps width height = ticks m (ticks n ps width height) width height) /\
  (forall n ps width height, (length (ticks n ps width height) <= length ps)%nat) /\
  (forall ps width width' height,
     updateParticles ps width height = updateParticles ps width' height).
Proof.
  split; [|split; [|split]].
  - intros n l1 l2 width height. apply ticks_app.
  - induction n as [|n IH]; intros m ps width height; [reflexivity|]. cbn [Nat.add ticks].
    apply IH.
  - induction n as [|n IH]; intros ps width height; [reflexivity|]. cbn [ticks].
    etransitivity; [apply IH|apply length_updateParticles].
  - reflexivity.
Qed.

(** X5.  After a tick no particle is below the floor and still falling. *)
Theorem no_particle_falls_through_floor ps width height :
  Forall (fun q => (Particle.y q >? height) && (Particle.vy q >? 0) = false)
         (updateParticles ps width height).
Proof.
  apply Forall_forall. intros q Hq.
  apply elem_of_updateParticles in Hq as (p & _ & Hq).
  unfold stepParticle in Hq. destruct (_ <? _); [|discriminate].
  injection Hq as <-. cbn [Particle.y Particle.vy].
  destruct ((Particle.y p + Particle.vy p >? height) &&
            (Particle.vy p + Particle.gravity p >? 0)) eqn:Eb; [|exact Eb].
  apply andb_true_iff in Eb as [_ Ev]. rewrite (bounce_not_positive _ Ev).
  apply andb_false_r.
Qed.

(** X6.  A particle never splits, and a tick changes nothing of it but its
    position, its vertical velocity and its life: while it lives its
    horizontal velocity, decay, size, colour, type and gravity are those
    of its making, and its life after [n] ticks is [n] decay steps down. *)
Theorem particle_keeps_its_making n : forall p width height,
  ticks n [p] width height = [] \/
  exists q,
    ticks n [p] width height = [q] /\
    Particle.vx q = Particle.vx p /\ Particle.decay q = Particle.decay p /\
    Particle.size q = Particle.size p /\ Particle.color q = Particle.color p /\
    Particle.type q = Particle.type p /\ Particle.gravity q = Particle.gravity p /\
    Particle.life q = lifeAfter n (Particle.life p) (Particle.decay p).
Proof.
  induction n as [|n IH]; intros p width height.
  - right. exists p. repeat split.
  - cbn [ticks lifeAfter]. rewrite updateParticles_single.
    destruct (Particle.life p - Particle.decay p >? 0) eqn:E; [|left; apply ticks_nil].
    destruct (IH (fst (stepParticle height p)) width height)
      as [H|(q & H & Hvx & Hd & Hs & Hc & Ht & Hg & Hl)]; [left; exact H|].
    right. exists q. split; [exact H|].
    rewrite Hvx, Hd, Hs, Hc, Ht, Hg, Hl. unfold stepParticle. rewrite E.
    repeat split.
Qed.

(** ** Ageing *)

Lemma lifeAfter_succ k : forall l d, lifeAfter (S k) l d = lifeAfter k l d - d.
Proof. induction k as [|k IH]; intros l d; [reflexivity|]. cbn [lifeAfter]. rewrite <- IH. reflexivity. Qed.

Lemma sound_aged q : sound q -> aged 0 q.
Proof.
  intros [Hl Hd]. exists (Particle.life q). split; [exact Hl|]. split; [exact Hd|].
  split; [reflexivity|]. intros j Hj. lia.
Qed.

Lemma aged_step k height p :
  aged k p -> snd (stepParticle height p) = true -> aged (S k) (fst (stepParticle height p)).
Proof.
  intros (l0 & Hl0 & Hd & Hlife & Hpos) Ha. apply stepParticle_alive in Ha.
  destruct (stepParticle_life height p) as [El Ed].
  exists l0. rewrite Ed, El, Hlife, <- lifeAfter_succ. split; [exact Hl0|].
  split; [exact Hd|]. split; [reflexivity|].
  intros j Hj. destruct (decide (j = S k)) as [->|Hne].
  - rewrite lifeAfter_succ, <- Hlife. exact Ha.
  - apply Hpos. lia.
Qed.

Lemma ceil_reciprocal_bound d :
  (0.0078125 <=? d) = true -> (ceil_reciprocal d <= 128)%nat.
Proof.
  intros Hd. unfold ceil_reciprocal, scaledF.
  rewrite FloatAxioms.leb_spec, Prim2SF_pow2_m7 in Hd.
  pose proof (Prim2SF_valid d) as Hv.
  destruct (Prim2SF d) as [s|[]| |[] m e] eqn:E; try discriminate;
    [cbn [scaled]; rewrite Z.div_0_r; cbn; lia|].
  cbn [valid_binary] in Hv. pose proof (scaled_lower m e Hv Hd) as Hlow.
  set (D := scaled (S754_finite false m e)) in *.
  assert (2 ^ 1074 = 128 * 2 ^ 1067)%Z as E74.
  { change 1074%Z with (7 + 1067)%Z. rewrite Z.pow_add_r by lia. reflexivity. }
  assert (0 < 2 ^ 1067)%Z by (apply Z.pow_pos_nonneg; lia).
  assert ((2 ^ 1074 + D - 1) / D < 129)%Z; [|lia].
  apply Z.div_lt_upper_bound; lia.
Qed.

Lemma aged_out k q : (129 <= k)%nat -> aged k q -> False.
Proof.
  intros Hk (l0 & Hl0 & Hd & _ & Hpos).
  destruct (expiry_exists l0 (Particle.decay q) Hl0 Hd) as (j & Hj & Hdead).
  pose proof (ceil_reciprocal_bound _ Hd).
  rewrite Hpos in Hdead by lia. discriminate.
Qed.

Lemma updateParticles_aged k ps width height :
  Forall (aged k) ps -> Forall (aged (S k)) (updateParticles ps width height).
Proof.
  rewrite !Forall_forall. intros H q Hq.
  apply elem_of_updateParticles in Hq as (p & Hp & Hq).
  pose proof (aged_step k height p (H p Hp)) as Hs. rewrite Hq in Hs. apply Hs. reflexivity.
Qed.

(** ** Frames *)

Section FrameTheorems.

Variable Math_cos Math_sin : number -> number.
Variable Math_random : nat -> number.

Local Abbreviation processTracking := (processTracking Math_cos Math_sin Math_random).
Local Abbreviation animate := (animate Math_cos Math_sin Math_random).
Local Abbreviation frames := (frames Math_cos Math_sin Math_random).
Local Abbreviation made := (made Math_cos Math_sin Math_random).

Lemma idle_processTracking f w : idle f -> exists w1,
  processTracking f w = Some w1 /\ particlesRef w1 = particlesRef w /\
  lightingIntensityRef w1 = lightingIntensityRef w.
Proof.
  intros [_ [Hp|Hl]]; unfold processTracking.
  - rewrite Hp. exists w. repeat split.
  - rewrite Hl. destruct (playing f); eexists; (split; [reflexivity|]); split; reflexivity.
Qed.

Lemma idle_animate f w : idle f -> exists w' ops,
  animate f w = Some (w', ops) /\
  particlesRef w' = updateParticles (particlesRef w) (canvasWidth f) (canvasHeight f).
Proof.
  intros Hi. destruct (idle_processTracking f w Hi) as (w1 & E & Hp & _).
  destruct Hi as [Hr _]. rewrite (animate_ready _ _ _ f w Hr), E. cbn [mbind option_bind].
  eexists _, _. split; [reflexivity|]. cbn [setParticles particlesRef].
  destruct (drawLighting_spec f w1) as (-> & _). rewrite Hp. reflexivity.
Qed.

Lemma idle_frames_aged fs : forall k w,
  Forall idle fs -> Forall (aged k) (particlesRef w) ->
  exists w', frames fs w = Some w' /\ Forall (aged (k + length fs)) (particlesRef w').
Proof.
  induction fs as [|f fs IH]; intros k w Hfs Hw.
  - exists w. split; [reflexivity|]. rewrite Nat.add_0_r. exact Hw.
  - apply Forall_cons in Hfs as [Hf Hfs].
    destruct (idle_animate f w Hf) as (w1 & ops & E & Hp).
    cbn [frames]. rewrite E. cbn [mbind option_bind fst].
    replace (k + length (f :: fs))%nat with (S k + length fs)%nat by (cbn; lia).
    apply IH; [exact Hfs|]. rewrite Hp. apply updateParticles_aged. exact Hw.
Qed.

(** X7.  A frame that emits nothing: the particles take one tick and nothing
    is pushed; the registry is emptied when the video plays (no hand is
    tracked), and kept as it is when the video is paused; no random number
    is drawn. *)
Theorem idle_frame_effect f w :
  idle f ->
  exists w' ops,
    animate f w = Some (w', ops) /\
    particlesRef w' = updateParticles (particlesRef w) (canvasWidth f) (canvasHeight f) /\
    emittersRef w' = (if playing f then ∅ else emittersRef w) /\
    randomCalls w' = randomCalls w.
Proof.
  intros [Hr Hidle]. rewrite (animate_ready _ _ _ f w Hr).
  assert (exists w1, processTracking f w = Some w1 /\ particlesRef w1 = particlesRef w /\
                     emittersRef w1 = (if playing f then ∅ else emittersRef w) /\
                     randomCalls w1 = randomCalls w) as (w1 & -> & Hp & He & Hc).
  { unfold processTracking. destruct (playing f) eqn:Ep.
    - destruct Hidle as [?|Hl]; [discriminate|]. rewrite Hl. cbn [length Nat.ltb Nat.leb].
      cbn [mbind option_bind fst snd]. eexists. split; [reflexivity|].
      split; [reflexivity|]. split; [apply cleanup_empty|reflexivity].
    - exists w. repeat split. }
  cbn [mbind option_bind]. eexists _, _. split; [reflexivity|].
  cbn [setParticles particlesRef emittersRef randomCalls].
  destruct (drawLighting_spec f w1) as (-> & -> & _). rewrite Hp, He.
  split; [reflexivity|]. split; [reflexivity|].
  unfold drawLighting. destruct (_ <? _); exact Hc.
Qed.

(** X8.  Idle frames on a canvas of one size are simulation ticks. *)
Theorem idle_frames_are_ticks width height fs : forall w,
  Forall (fun f => idle f /\ canvasWidth f = width /\ canvasHeight f = height) fs ->
  exists w',
    frames fs w = Some w' /\
    particlesRef w' = ticks (length fs) (particlesRef w) width height.
Proof.
  induction fs as [|f fs IH]; intros w Hfs.
  - exists w. split; reflexivity.
  - apply Forall_cons in Hfs as [(Hf & <- & <-) Hfs].
    destruct (idle_animate f w Hf) as (w1 & ops & E & Hp).
    cbn [frames length ticks]. rewrite E. cbn [mbind option_bind fst].
    rewrite <- Hp. apply IH. exact Hfs.
Qed.

(** X9.  Once the hands are gone or the video has stopped, 129 frames clear
    the canvas of particles. *)
Theorem idle_frames_clear_population fs w :
  WorldOk w -> Forall idle fs -> (129 <= length fs)%nat ->
  exists w', frames fs w = Some w' /\ particlesRef w' = [].
Proof.
  intros [Hw _] Hfs Hlen.
  destruct (idle_frames_aged fs 0 w Hfs) as (w' & E & Ha).
  { eapply Forall_impl; [exact Hw|]. exact sound_aged. }
  exists w'. split; [exact E|].
  destruct (particlesRef w') as [|q qs]; [reflexivity|].
  apply Forall_cons in Ha as [Hq _]. exfalso. exact (aged_out (0 + length fs) q ltac:(lia) Hq).
Qed.

Section RandomRange.

Hypothesis random_range :
  forall k, (0 <=? Math_random k) = true /\ (Math_random k <? 1) = true.

Lemma updateParticles_fresh ps width height :
  Forall made ps ->
  updateParticles ps width height = (fun p => fst (stepParticle height p)) <$> ps.
Proof.
  induction 1 as [|p ps Hp _ IH]; [reflexivity|].
  unfold updateParticles in *. cbn [omap list_omap fmap list_fmap]. rewrite IH.
  destruct (made_fresh _ _ _ random_range p Hp) as (Hl & Hd0 & Hd).
  pose proof (one_minus_positive _ Hd0 Hd) as Hpos. rewrite <- Hl in Hpos.
  apply (stepParticle_alive height) in Hpos.
  destruct (stepParticle height p) as [p' b]. cbn [snd] in Hpos. subst b. reflexivity.
Qed.

(** X10.  Every particle the tracking step of a frame pushes outlives the
    frame's simulation step, and so is drawn in the frame that emits it. *)
Theorem emitted_particles_are_drawn f w w' ops :
  ready f = true -> animate f w = Some (w', ops) ->
  exists w1 ps,
    processTracking f w = Some w1 /\
    particlesRef w1 = particlesRef w ++ ps /\ Forall made ps /\
    particlesRef w' =
      updateParticles (particlesRef w) (canvasWidth f) (canvasHeight f) ++
      ((fun p => fst (stepParticle (canvasHeight f) p)) <$> ps) /\
    forall p, p ∈ ps ->
      Arc (Particle.color p) (1 - Particle.decay p)
          (Particle.x (fst (stepParticle (canvasHeight f) p)))
          (Particle.y (fst (stepParticle (canvasHeight f) p)))
          (Particle.size p * (1 - Particle.decay p)) ∈ ops.
Proof.
  intros Hr. rewrite (animate_ready _ _ _ f w Hr).
  destruct (processTracking f w) as [w1|] eqn:E1; [|discriminate].
  cbn [mbind option_bind]. intros [= <- <-].
  destruct (processTracking_made _ _ _ f w w1 E1) as (ps & Hps & _ & Hm).
  exists w1, ps. split; [reflexivity|]. split; [exact Hps|]. split; [exact Hm|].
  destruct (drawLighting_spec f w1) as (Ep & _).
  cbn [setParticles particlesRef]. rewrite Ep, Hps.
  assert (updateParticles (particlesRef w ++ ps) (canvasWidth f) (canvasHeight f) =
          updateParticles (particlesRef w) (canvasWidth f) (canvasHeight f) ++
          ((fun p => fst (stepParticle (canvasHeight f) p)) <$> ps)) as Hup.
  { rewrite <- (updateParticles_fresh ps (canvasWidth f) (canvasHeight f) Hm).
    unfold updateParticles. apply omap_app. }
  split; [exact Hup|]. intros p Hp. rewrite Hup.
  apply elem_of_cons. right. apply elem_of_app. right.
  unfold drawParticles. rewrite fmap_app. apply elem_of_app. right.
  apply list_elem_of_fmap. exists (fst (stepParticle (canvasHeight f) p)).
  split; [|apply list_elem_of_fmap; exists p; split; [reflexivity|exact Hp]].
  destruct (made_fresh _ _ _ random_range p (proj1 (Forall_forall _ _) Hm p Hp))
    as (Hl & Hd0 & Hd).
  pose proof (one_minus_positive _ Hd0 Hd) as Hpos. rewrite <- Hl in Hpos.
  unfold stepParticle. rewrite Hpos. cbn [fst Particle.color Particle.life Particle.size
    Particle.x Particle.y]. rewrite Hl. reflexivity.
Qed.

Lemma frames_wellMade fs w :
  frames fs initialWorld = Some w -> Forall wellMade (particlesRef w).
Proof.
  intros E.
  apply (frames_invariant Math_cos Math_sin Math_random wellMade
           (made_wellMade _ _ _ random_range)
           (fun height p H _ => wellMade_step height p H) fs initialWorld w); [constructor|exact E].
Qed.

(** X11.  The population after any run of frames, and after the tracking step
    of a further frame, holds only well-made particles: trail particles
    with gravity 0.1 and the colour of a finger, burst particles with
    gravity 0.3 and a colour of the burst palette, all with a size in
    [[2, 8]] and a decay of at most 1/16. *)
Theorem population_is_well_made :
  (forall fs w, frames fs initialWorld = Some w -> Forall wellMade (particlesRef w)) /\
  (forall f w w', Forall wellMade (particlesRef w) -> processTracking f w = Some w' ->
     Forall wellMade (particlesRef w')).
Proof.
  split; [exact frames_wellMade|].
  intros f w w'.
  apply (processTracking_invariant Math_cos Math_sin Math_random wellMade
           (made_wellMade _ _ _ random_range)).
Qed.

(** X12.  What a frame of any run draws: the video first, then at most one
    overlay, whose alpha is in [[0, 1]], then one circle per particle of the
    new population, each with an alpha in [(0, 1]] and a radius in
    [[0, 8]]. *)
Theorem frame_drawing fs w f w' ops :
  frames fs initialWorld = Some w -> ready f = true -> animate f w = Some (w', ops) ->
  exists overlay,
    ops = DrawVideo :: overlay ++ drawParticles (particlesRef w') /\
    (overlay = [] \/
     exists alpha, overlay = [FillRect "255, 120, 50" alpha (canvasWidth f) (canvasHeight f)] /\
                   unit_interval alpha) /\
    Forall (fun p => (0 <? Particle.life p) = true /\ (Particle.life p <=? 1) = true /\
                     (0 <=? Particle.size p * Particle.life p) = true /\
                     (Particle.size p * Particle.life p <=? 8) = true)
           (particlesRef w').
Proof.
  intros Efs Hr E.
  pose proof (frames_keep_live _ _ _ random_range fs initialWorld w initialWorld_live Efs) as Hlive.
  pose proof (WorldLive_ok w Hlive) as Hok.
  pose proof (animate_ok _ _ _ random_range f w w' ops Hok Hr E) as [Hlive' _].
  assert (Forall wellMade (particlesRef w')) as Hwm.
  { apply (animate_invariant Math_cos Math_sin Math_random wellMade
             (made_wellMade _ _ _ random_range)
             (fun height p H _ => wellMade_step height p H) f w w' ops); [|exact E].
    exact (frames_wellMade fs w Efs). }
  rewrite (animate_ready _ _ _ f w Hr) in E.
  destruct (processTracking f w) as [w1|] eqn:E1; [|discriminate].
  cbn [mbind option_bind] in E. injection E as <- <-.
  exists (drawLighting f w1).2. split; [reflexivity|]. split.
  - pose proof (processTracking_ok _ _ _ random_range f w w1 Hok E1) as [_ Hl1].
    unfold drawLighting. destruct (_ <? _); cbn [snd]; [right|left; reflexivity].
    eexists. split; [reflexivity|]. apply mul_unit; try apply Hl1; try reflexivity.
    eapply positive_finite_intro. reflexivity.
  - rewrite Forall_forall in *. intros p Hp.
    destruct (Hlive' p Hp) as [[Hl0 Hl1] _]. destruct (Hwm p Hp) as (Hs2 & Hs8 & _).
    split; [exact Hl0|]. split; [exact Hl1|].
    apply (mul_life_bounded 8 3); try reflexivity; try lia; try assumption.
    apply (leb_pos_nonneg 2); [eapply positive_finite_intro; reflexivity|exact Hs2].
Qed.

End RandomRange.

End FrameTheorems.

(** ** NaN *)

Lemma is_nan_Prim2SF a : is_nan a = true <-> Prim2SF a = S754_nan.
Proof.
  unfold Prim2SF. destruct (is_nan a); split; try reflexivity; try discriminate.
  destruct (is_zero a); [discriminate|]. destruct (is_infinity a); [discriminate|].
  destruct (Z.frexp a) as [r ex]. destruct (shr_fexp _ _ _ _ _) as [shr e'].
  destruct (shr_m shr); discriminate.
Qed.

Lemma is_nan_add_l a b : is_nan a = true -> is_nan (a + b) = true.
Proof. rewrite !is_nan_Prim2SF, FloatAxioms.add_spec. intros ->. reflexivity. Qed.

Lemma is_nan_add_r a b : is_nan b = true -> is_nan (a + b) = true.
Proof.
  rewrite !is_nan_Prim2SF, FloatAxioms.add_spec. intros ->.
  destruct (Prim2SF a); reflexivity.
Qed.

Lemma is_nan_sub_l a b : is_nan a = true -> is_nan (a - b) = true.
Proof. rewrite !is_nan_Prim2SF, FloatAxioms.sub_spec. intros ->. reflexivity. Qed.

Lemma is_nan_sub_r a b : is_nan b = true -> is_nan (a - b) = true.
Proof.
  rewrite !is_nan_Prim2SF, FloatAxioms.sub_spec. intros ->.
  destruct (Prim2SF a); reflexivity.
Qed.

Lemma is_nan_mul_l a b : is_nan a = true -> is_nan (a * b) = true.
Proof. rewrite !is_nan_Prim2SF, FloatAxioms.mul_spec. intros ->. reflexivity. Qed.

Lemma is_nan_sqrt a : is_nan a = true -> is_nan (Math_sqrt a) = true.
Proof. unfold Math_sqrt. rewrite !is_nan_Prim2SF, sqrt_spec. intros ->. reflexivity. Qed.

Lemma is_nan_ltb a b : is_nan a = true -> (a <? b) = false /\ (b <? a) = false.
Proof.
  rewrite is_nan_Prim2SF, !FloatAxioms.ltb_spec. intros ->.
  split; [reflexivity|]. destruct (Prim2SF b); reflexivity.
Qed.

Lemma speedOf_nan e targetX targetY :
  poisoned e \/ is_nan targetX = true \/ is_nan targetY = true ->
  is_nan (speedOf e targetX targetY) = true.
Proof.
  intros H. unfold speedOf. apply is_nan_sqrt.
  destruct H as [[H|H]|[H|H]].
  - apply is_nan_add_l, is_nan_mul_l, is_nan_mul_l, is_nan_sub_r. exact H.
  - apply is_nan_add_r, is_nan_mul_l, is_nan_mul_l, is_nan_sub_r. exact H.
  - apply is_nan_add_l, is_nan_mul_l, is_nan_mul_l, is_nan_sub_l. exact H.
  - apply is_nan_add_r, is_nan_mul_l, is_nan_mul_l, is_nan_sub_l. exact H.
Qed.

Lemma smoothed_poisoned e targetX targetY :
  poisoned e \/ is_nan targetX = true \/ is_nan targetY = true ->
  poisoned (smoothed e targetX targetY).
Proof.
  unfold poisoned, smoothed. cbn [EmitterState.x EmitterState.y].
  intros [[H|H]|[H|H]].
  - left. apply is_nan_add_l. exact H.
  - right. apply is_nan_add_l. exact H.
  - left. apply is_nan_add_r, is_nan_mul_l, is_nan_sub_l. exact H.
  - right. apply is_nan_add_r, is_nan_mul_l, is_nan_sub_l. exact H.
Qed.

(** ** Distinct fingertips, distinct keys *)

(** X13.  The keys of two fingertips are equal only when hand and finger are. *)
Theorem fingertip_keys_are_distinct h i h' i' :
  emitterKey h i = emitterKey h' i' <-> h = h' /\ i = i'.
Proof.
  split; [apply emitterKey_inj|]. intros [-> ->]. reflexivity.
Qed.

(** ** The emitter, call by call *)

Section EmitterTheorems.

Variable Math_cos Math_sin : number -> number.
Variable Math_random : nat -> number.

Local Abbreviation createTrailParticle := (createTrailParticle Math_cos Math_sin Math_random).
Local Abbreviation createBurstParticles := (createBurstParticles Math_cos Math_sin Math_random).
Local Abbreviation updateEmitter := (updateEmitter Math_cos Math_sin Math_random).

(** X14.  One call of [updateEmitter] fires a burst exactly when the emitter
    was armed by an earlier call and its speed is now below the trigger
    speed; the call that arms it does not fire.  The batch lands at the
    smoothed position, before this call's trail particles; the flag
    afterwards is set when no burst was fired and the emitter was armed or
    its speed is above the arming speed. *)
Theorem burst_fires_only_if_armed_before key targetX targetY chance color w e :
  emittersRef w !! key = Some e ->
  let w' := updateEmitter key targetX targetY chance color w in
  let s := speedOf e targetX targetY in
  let e' := smoothed e targetX targetY in
  let fired := EmitterState.isBurstArmed e && (s <? BURST_TRIGGER_SPEED) in
  ((s >? BURST_ARM_SPEED) = true -> fired = false) /\
  armedAt key w' =
    Some (negb fired && (EmitterState.isBurstArmed e || (s >? BURST_ARM_SPEED))) /\
  lightingIntensityRef w' =
    (if fired then Math_min (lightingIntensityRef w + 0.5) 1.0 else lightingIntensityRef w) /\
  exists ts,
    spawned w w' =
      (if fired
       then createBurstParticles (EmitterState.x e') (EmitterState.y e') (randomCalls w)
       else []) ++ ts /\
    (length ts <= 2)%nat /\ Forall (fun p => Particle.type p = trail) ts.
Proof.
  intros He w' s e' fired.
  destruct (updateEmitter_shape Math_cos Math_sin Math_random
              key targetX targetY chance color w e He)
    as (ts & Hp & Hlen & Hts & _ & _ & Hem & Hl).
  fold w' s e' in Hp, Hem, Hl. change (fires e targetX targetY) with fired in Hp, Hem, Hl.
  split; [|split; [|split]].
  - intros Ha. subst fired. rewrite (arm_excludes_trigger s Ha). apply andb_false_r.
  - unfold armedAt. rewrite Hem, lookup_insert_eq. reflexivity.
  - exact Hl.
  - exists ts. split; [|split; [exact Hlen|]].
    + unfold spawned. rewrite Hp, drop_app_length. reflexivity.
    + eapply Forall_impl; [exact Hts|]. intros p (H & _). exact H.
Qed.

(** X15.  The particles of a call start where the call leaves the emitter: at
    the smoothed position, a quarter of the way from the old position to
    the target, with a full life; trail particles carry the colour passed
    to the call. *)
Theorem particles_start_at_the_emitter key targetX targetY chance color w e :
  emittersRef w !! key = Some e ->
  let w' := updateEmitter key targetX targetY chance color w in
  exists e',
    emittersRef w' !! key = Some e' /\
    EmitterState.x e' =
      EmitterState.x e + (targetX - EmitterState.x e) * INERTIA_FACTOR /\
    EmitterState.y e' =
      EmitterState.y e + (targetY - EmitterState.y e) * INERTIA_FACTOR /\
    Forall (fun p => Particle.x p = EmitterState.x e' /\ Particle.y p = EmitterState.y e' /\
                     Particle.life p = 1 /\
                     (Particle.type p = trail -> Particle.color p = "rgba(" +:+ color +:+ ","))
           (spawned w w').
Proof.
  intros He w'. subst w'.
  destruct (updateEmitter_shape Math_cos Math_sin Math_random
              key targetX targetY chance color w e He)
    as (ts & Hp & _ & _ & _ & _ & Hem & _).
  eexists. rewrite Hem, lookup_insert_eq. split; [reflexivity|].
  split; [reflexivity|]. split; [reflexivity|].
  cbn [setArmed EmitterState.x EmitterState.y]. unfold spawned.
  rewrite (updateEmitter_existing _ _ _ _ _ _ _ _ _ _ He). cbv zeta.
  cbn [setEmitter particlesRef].
  set (s := speedOf e targetX targetY). set (e0 := smoothed e targetX targetY).
  pose proof (arm_position s e0) as (Hx & Hy & _).
  destruct (trigger _ _ _ _ _) as [e1 w1] eqn:Et. cbn [fst snd].
  destruct (emitTrails_made Math_cos Math_sin Math_random s chance color e1 w1)
    as (ts' & -> & Hts).
  assert (EmitterState.x e1 = EmitterState.x e0 /\ EmitterState.y e1 = EmitterState.y e0 /\
          exists bs, particlesRef w1 = particlesRef w ++ bs /\
             Forall (fun p => Particle.type p = burst /\ Particle.x p = EmitterState.x e0 /\
                              Particle.y p = EmitterState.y e0 /\ Particle.life p = 1) bs)
    as (Hx1 & Hy1 & bs & -> & Hbs).
  { unfold trigger in Et.
    destruct (EmitterState.isBurstArmed (arm s e0) && (s <? BURST_TRIGGER_SPEED));
      injection Et as <- <-.
    - cbn [setArmed EmitterState.x EmitterState.y]. split; [exact Hx|]. split; [exact Hy|].
      eexists. cbn [setLighting drawn pushParticles particlesRef]. split; [reflexivity|].
      rewrite Hx, Hy. apply createBurstParticles_at.
    - split; [exact Hx|]. split; [exact Hy|]. exists []. rewrite app_nil_r.
      split; [reflexivity|constructor]. }
  rewrite <- app_assoc, drop_app_length. apply Forall_app. split.
  - eapply Forall_impl; [exact Hbs|]. intros p (Ht & Hpx & Hpy & Hl).
    repeat split; try assumption. rewrite Ht. discriminate.
  - eapply Forall_impl; [exact Hts|]. intros p [n ->].
    cbn [createTrailParticle Particle.x Particle.y Particle.life Particle.type
         Particle.color].
    rewrite Hx1, Hy1. repeat split.
Qed.

(** X16.  A call of [updateEmitter] for one fingertip leaves every other
    emitter as it is, deletes none, leaves the emitter of its key in the
    registry, and only appends to the population. *)
Theorem updateEmitter_touches_only_its_key key targetX targetY chance color w :
  let w' := updateEmitter key targetX targetY chance color w in
  (forall k, k <> key -> emittersRef w' !! k = emittersRef w !! k) /\
  is_Some (emittersRef w' !! key) /\
  dom (emittersRef w') = {[ key ]} ∪ dom (emittersRef w) /\
  particlesRef w `prefix_of` particlesRef w'.
Proof.
  intros w'. subst w'.
  pose proof (updateEmitter_lookup Math_cos Math_sin Math_random
                key) as Hother.
  pose proof (updateEmitter_present Math_cos Math_sin Math_random
                key targetX targetY chance color w) as Hkey.
  split; [intros k Hk; apply Hother; exact Hk|]. split; [exact Hkey|]. split.
  - apply set_eq. intros k. rewrite elem_of_union, elem_of_singleton, !elem_of_dom.
    destruct (decide (k = key)) as [->|Hk].
    + split; [left; reflexivity|intros _; exact Hkey].
    + rewrite Hother by exact Hk. split; [right; assumption|intros [?|?]; [contradiction|assumption]].
  - destruct (updateEmitter_appends Math_cos Math_sin Math_random
                key targetX targetY chance color w) as (ps & -> & _).
    apply prefix_app_r. reflexivity.
Qed.

(** X17.  A NaN silences a fingertip: when a coordinate of the emitter or of
    the target is NaN, the call pushes no particle, leaves the flash and
    the flag as they are, makes no random draw, and leaves the emitter
    with a NaN coordinate, so that the next call finds it so again. *)
Theorem nan_silences_emitter key targetX targetY chance color w e :
  emittersRef w !! key = Some e ->
  poisoned e \/ is_nan targetX = true \/ is_nan targetY = true ->
  let w' := updateEmitter key targetX targetY chance color w in
  particlesRef w' = particlesRef w /\
  lightingIntensityRef w' = lightingIntensityRef w /\
  randomCalls w' = randomCalls w /\
  exists e', emittersRef w' !! key = Some e' /\ poisoned e' /\
             EmitterState.isBurstArmed e' = EmitterState.isBurstArmed e.
Proof.
  intros He Hnan w'. subst w'.
  pose proof (speedOf_nan e targetX targetY Hnan) as Hs.
  pose proof (smoothed_poisoned e targetX targetY Hnan) as Hp.
  destruct (is_nan_ltb (speedOf e targetX targetY) BURST_ARM_SPEED Hs) as [_ Harm].
  destruct (is_nan_ltb (speedOf e targetX targetY) BURST_TRIGGER_SPEED Hs) as [Htrig _].
  destruct (is_nan_ltb (speedOf e targetX targetY) DRAW_SPEED_THRESHOLD Hs) as [_ Hdraw].
  rewrite (updateEmitter_existing _ _ _ _ _ _ _ _ _ _ He). cbv zeta.
  unfold arm. rewrite Harm. unfold trigger. rewrite Htrig, andb_false_r. cbn [fst snd].
  unfold emitTrails. rewrite Hdraw. cbn [setEmitter particlesRef lightingIntensityRef
    randomCalls emittersRef].
  repeat split. exists (smoothed e targetX targetY).
  rewrite lookup_insert_eq. split; [reflexivity|]. split; [exact Hp|reflexivity].
Qed.

End EmitterTheorems.

(** ** A hand with too few landmarks *)

Lemma forEach_None {A B} (arr : list A) (body : A -> nat -> option B -> option B) :
  (forall a i, body a i None = None) -> forEach arr body None = None.
Proof.
  intros H. apply (forEach_ind (fun st => st = None)); [|reflexivity].
  intros a i t _ ->. apply H.
Qed.

Section ShortHand.

Variable Math_cos Math_sin : number -> number.
Variable Math_random : nat -> number.

Local Abbreviation trackFinger := (trackFinger Math_cos Math_sin Math_random).
Local Abbreviation trackHands := (trackHands Math_cos Math_sin Math_random).
Local Abbreviation processTracking := (processTracking Math_cos Math_sin Math_random).
Local Abbreviation animate := (animate Math_cos Math_sin Math_random).
Local Abbreviation frames := (frames Math_cos Math_sin Math_random).

Lemma fingers_None f pm hand handIndex :
  forEach FINGER_INDICES (trackFinger f pm hand handIndex) None = None.
Proof. apply forEach_None. intros. reflexivity. Qed.

Lemma fingers_short f pm hand handIndex st :
  (length hand < 21)%nat ->
  forEach FINGER_INDICES (trackFinger f pm hand handIndex) st = None.
Proof.
  intros Hlen.
  apply (forEach_steps
           (fun i (st : option (gset string * World)) => (5 <= i)%nat -> st = None)
           FINGER_INDICES (trackFinger f pm hand handIndex) st); [|intros; lia|cbn; lia].
  intros tipIdx i [[ks w]|] Htip IH Hi; [|reflexivity].
  assert (i = 4%nat) as -> by (apply FINGER_INDICES_bound in Htip; lia).
  injection Htip as <-. unfold trackFinger. cbn [mbind option_bind].
  rewrite (lookup_ge_None_2 hand 20) by lia. reflexivity.
Qed.

Lemma trackHands_short f st :
  Exists (fun hand : list Point.t => (length hand < 21)%nat) (landmarks f) ->
  trackHands f st = None.
Proof.
  intros Hex. apply Exists_exists in Hex as (hand & Hin & Hlen).
  apply list_elem_of_lookup_1 in Hin as [h Hh].
  unfold trackHands.
  apply (forEach_steps
           (fun i (st : option (gset string * World)) => (h < i)%nat -> st = None));
    [|intros; lia|eapply lookup_lt_Some; exact Hh].
  intros hand' i st' Hi IH Hlt.
  destruct (decide (i = h)) as [->|Hne].
  - rewrite Hh in Hi. injection Hi as <-. apply fingers_short. exact Hlen.
  - rewrite IH by lia. apply fingers_None.
Qed.

Lemma animate_None_iff f w :
  animate f w = None <->
  ready f = true /\ playing f = true /\
  Exists (fun hand : list Point.t => (length hand < 21)%nat) (landmarks f).
Proof.
  split.
  - intros E. destruct (ready f) eqn:Hr.
    2:{ unfold animate in E. rewrite Hr in E. discriminate. }
    destruct (playing f) eqn:Hp.
    2:{ rewrite (animate_ready _ _ _ f w Hr) in E. unfold processTracking in E.
        rewrite Hp in E. discriminate. }
    split; [reflexivity|]. split; [reflexivity|].
    destruct (decide (wellFormed f)) as [Hwf|Hwf].
    + destruct (animate_total Math_cos Math_sin Math_random f w Hwf) as [r Hr'].
      rewrite Hr' in E. discriminate.
    + unfold wellFormed in Hwf. apply not_Forall_Exists in Hwf; [|intros x; apply _].
      eapply Exists_impl; [exact Hwf|]. intros hand H. cbn in H. lia.
  - intros (Hr & Hp & Hex). rewrite (animate_ready _ _ _ f w Hr).
    unfold processTracking. rewrite Hp.
    assert ((0 <? length (landmarks f))%nat = true) as ->.
    { apply Nat.ltb_lt. destruct (landmarks f); [inversion Hex|cbn; lia]. }
    rewrite (trackHands_short f _ Hex). reflexivity.
Qed.

(** X18.  A frame throws exactly when it runs, the video plays and some
    detected hand has fewer than 21 landmarks: reading [tip.x] of a
    missing landmark is a TypeError.  The error leaves [animate] before the
    next frame is requested: a run stops at such a frame, whatever frames
    would follow and whatever the world. *)
Theorem frame_throws_iff_hand_is_short f :
  let short := ready f = true /\ playing f = true /\
    Exists (fun hand : list Point.t => (length hand < 21)%nat) (landmarks f) in
  (forall w, animate f w = None <-> short) /\
  (forall w fs, short -> frames (f :: fs) w = None) /\
  (forall w fs1 fs2 w1, frames fs1 w = Some w1 -> short ->
     frames (fs1 ++ f :: fs2) w = None).
Proof.
  intros short. split; [exact (animate_None_iff f)|].
  assert (forall w fs, short -> frames (f :: fs) w = None) as Hstop.
  { intros w fs Hs. cbn [frames]. rewrite (proj2 (animate_None_iff f w) Hs). reflexivity. }
  split; [exact Hstop|].
  intros w fs1. revert w. induction fs1 as [|g fs1 IH]; intros w fs2 w1 E Hs.
  - apply Hstop. exact Hs.
  - cbn [frames app] in *. destruct (animate g w) as [[w2 ops]|]; [|discriminate].
    cbn [mbind option_bind fst] in *. exact (IH w2 fs2 w1 E Hs).
Qed.

End ShortHand.

(** ** An emitter through a frame *)

Section Following.

Variable Math_cos Math_sin : number -> number.
Variable Math_random : nat -> number.

Local Abbreviation updateEmitter := (updateEmitter Math_cos Math_sin Math_random).
Local Abbreviation trackHands := (trackHands Math_cos Math_sin Math_random).
Local Abbreviation processTracking := (processTracking Math_cos Math_sin Math_random).

(** X19.  Each emitter follows its own fingertip, once per frame: the
    emitter of a tracked fingertip that was in the registry when the frame
    began has, after the tracking step, taken exactly one step towards that
    fingertip's mirrored position, a quarter of the way, and holds the
    velocity of that step; no other fingertip's call has touched it. *)
Theorem each_emitter_follows_its_fingertip f w w' h i tip e :
  playing f = true -> processTracking f w = Some w' ->
  fingertip f h i = Some tip ->
  emittersRef w !! emitterKey h i = Some e ->
  let target := targetOf f tip in
  exists e',
    emittersRef w' !! emitterKey h i = Some e' /\
    e' = updated e target.1 target.2 /\
    EmitterState.x e' = EmitterState.x e + (target.1 - EmitterState.x e) * INERTIA_FACTOR /\
    EmitterState.y e' = EmitterState.y e + (target.2 - EmitterState.y e) * INERTIA_FACTOR /\
    EmitterState.vx e' = (target.1 - EmitterState.x e) * INERTIA_FACTOR /\
    EmitterState.vy e' = (target.2 - EmitterState.y e) * INERTIA_FACTOR.
Proof.
  intros Hp E Htip He target.
  exists (updated e target.1 target.2). split; [|repeat split].
  destruct (fingertip_bounds _ _ _ _ Htip) as [Hh Hi].
  unfold processTracking in E. rewrite Hp in E.
  assert ((0 <? length (landmarks f))%nat = true) as Hlen by (apply Nat.ltb_lt; lia).
  rewrite Hlen in E. cbn [mbind option_bind] in E.
  destruct (trackHands f (Some (∅, w))) as [[ks1 w1]|] eqn:Et; [|discriminate].
  cbn [mbind option_bind fst snd] in E. injection E as <-.
  destruct (trackHands_registry _ _ _ f w ks1 w1 Et) as (Hks & _ & _).
  rewrite cleanup_lookup_in by (rewrite Hks; apply elem_of_trackedKeys; assumption).
  pose proof (trackHands_steps Math_cos Math_sin Math_random
    (fun n ks2 w2 =>
       emittersRef w2 !! emitterKey h i =
       Some (if (5 * h + i <? n)%nat then updated e target.1 target.2 else e))
    f ∅ w) as H.
  rewrite (H) with (ks' := ks1) (w' := w1); [| | |exact Et].
  - assert ((5 * h + i <? 5 * length (landmarks f))%nat = true) as ->
      by (apply Nat.ltb_lt; lia).
    reflexivity.
  - intros h' i' tip' ks2 w2 Htip' IH.
    destruct (fingertip_bounds _ _ _ _ Htip') as [_ Hi'].
    destruct (decide (5 * h' + i' = 5 * h + i)%nat) as [Heq|Hne].
    + assert (h' = h /\ i' = i) as [-> ->] by lia.
      rewrite Htip in Htip'. injection Htip' as <-.
      assert ((5 * h + i <? 5 * h + i)%nat = false) as Hlt by (apply Nat.ltb_ge; lia).
      rewrite Hlt in IH.
      destruct (updateEmitter_shape Math_cos Math_sin Math_random
                  (emitterKey h i) (targetOf f tip).1 (targetOf f tip).2
                  (particleMultiplierOf (array_length (landmarks f) * 5)) (fingerColor i)
                  w2 e IH) as (ts & _ & _ & _ & _ & _ & -> & _).
      rewrite lookup_insert_eq.
      assert ((5 * h + i <? 5 * h + i + 1)%nat = true) as -> by (apply Nat.ltb_lt; lia).
      reflexivity.
    + rewrite updateEmitter_lookup.
      * rewrite IH. f_equal.
        destruct (5 * h + i <? 5 * h' + i')%nat eqn:E1,
                 (5 * h + i <? 5 * h' + i' + 1)%nat eqn:E2; try reflexivity;
          [apply Nat.ltb_lt in E1; apply Nat.ltb_ge in E2; lia
          |apply Nat.ltb_ge in E1; apply Nat.ltb_lt in E2; lia].
      * intros Heq. apply emitterKey_inj in Heq as [-> ->]. lia.
  - rewrite He. reflexivity.
Qed.

End Following.

(** ** Lifetimes *)

Local Open Scope Z_scope.

(** ** Sums that stay above their first term *)

Lemma pow2_lt_exp a b : 0 <= b -> 2 ^ a < 2 ^ b -> a < b.
Proof. intros Hb H. apply (Z.pow_lt_mono_r_iff 2); [lia|exact Hb|exact H]. Qed.

(** Rounding a value that is at least a binary64 number [ma * 2^ea]
    gives at least that number. *)
Lemma binary_round_aux_reaches mx ex ma ea :
  0 < mx -> -1074 <= ex <= ea -> bounded prec emax ma ea = true ->
  Zpos ma * 2 ^ (ea - ex) <= mx ->
  reaches ma ea (binary_round_aux prec emax false mx ex loc_Exact).
Proof.
  intros Hm Hex Hva Hb.
  pose proof (bounded_canonical ma ea Hva) as (Hda & Hea & Hcan).
  pose proof (digits2_pos_bounds ma) as [Hmalo Hmahi].
  set (da := Zpos (digits2_pos ma)) in *.
  assert (Z.pos ma < 2 ^ 53) as Hma53.
  { assert (2 ^ da <= 2 ^ 53) by (apply Z.pow_le_mono_r; lia). lia. }
  pose proof (shr_fexp_round mx ex loc_Exact ltac:(lia)) as H1.
  pose proof (Zdigits2_bounds mx Hm) as [Hdlo Hdhi].
  set (dx := Zdigits2 mx) in *.
  assert (1 <= da) as Hda1 by (subst da; lia).
  assert (1 <= dx) as Hdx1.
  { destruct (Z.lt_ge_cases dx 1) as [Hn|]; [|assumption].
    assert (2 ^ dx <= 2 ^ 0) by (apply Z.pow_le_mono_r; lia). change (2 ^ 0) with 1 in *. lia. }
  assert (da + ea - ex <= dx) as Hdig.
  { pose proof (pow2_pos (ea - ex) ltac:(lia)).
    assert (2 ^ (da - 1 + (ea - ex)) < 2 ^ dx) as Hlt.
    { rewrite pow2_split by lia. nia. }
    apply pow2_lt_exp in Hlt; lia. }
  unfold binary_round_aux.
  destruct (shr_fexp prec emax mx ex loc_Exact) as [mrs' e'] eqn:E1.
  cbv zeta in H1. cbn [fst snd] in H1.
  set (m1 := round_nearest_even (shr_m mrs') (loc_of_shr_record mrs')) in *.
  rewrite fexp_eq in H1. fold dx in H1.
  assert (ea <= e' /\ 0 < m1 /\
          Z.pos ma * 2 ^ (ea + 1074) <= m1 * 2 ^ (e' + 1074)) as (He' & Hm1 & Hv1).
  { destruct H1 as [(Hn & -> & Hm1 & _)|(Hn & -> & Hm1 & _)].
    - assert (ea = ex) as -> by lia. rewrite Z.sub_diag in Hb. change (2 ^ 0) with 1 in Hb.
      split; [lia|]. split; [lia|]. pose proof (pow2_pos (ex + 1074) ltac:(lia)). nia.
    - set (n := Z.max (dx + ex - 53) (-1074) - ex) in *.
      pose proof (pow2_pos n ltac:(lia)) as Hpn.
      destruct (Z.eq_dec (ex + n) ea) as [Eq|Ne].
      + assert (n = ea - ex) as En by lia.
        assert (Z.pos ma <= mx / 2 ^ n) as Hq.
        { apply Z.div_le_lower_bound; [lia|]. rewrite En. lia. }
        split; [lia|]. split; [lia|]. rewrite Eq.
        pose proof (pow2_pos (ea + 1074) ltac:(lia)). nia.
      + assert (n = dx - 53) as En by lia.
        assert (2 ^ 52 <= mx / 2 ^ n) as Hq.
        { apply Z.div_le_lower_bound; [lia|]. rewrite <- pow2_split by lia.
          replace (n + 52) with (dx - 1) by lia. lia. }
        pose proof (pow2_pos 52 ltac:(lia)).
        split; [lia|]. split; [lia|].
        assert (2 ^ 53 * 2 ^ (ea + 1074) <= 2 ^ 52 * 2 ^ (ex + n + 1074)) as Hstep.
        { rewrite <- !pow2_split by lia. apply Z.pow_le_mono_r; lia. }
        pose proof (pow2_pos (ea + 1074) ltac:(lia)).
        pose proof (pow2_pos (ex + n + 1074) ltac:(lia)). nia. }
  pose proof (shr_fexp_exact_eq m1 e' ltac:(lia)) as (H2e & H2m).
  destruct (shr_fexp prec emax m1 e' loc_Exact) as [mrs'' e''] eqn:E2.
  cbn [fst snd] in H2e, H2m. rewrite fexp_eq in H2e, H2m.
  pose proof (Zdigits2_bounds m1 Hm1) as [Hd1lo Hd1hi].
  set (d1 := Zdigits2 m1) in *.
  assert (0 <= Z.max 0 (Z.max (d1 + e' - 53) (-1074) - e') <= Z.max 0 (d1 - 53)) as Hn2
    by (clear - He' Hea; lia).
  assert (Z.max 0 (Z.max (d1 + e' - 53) (-1074) - e') = Z.max 0 (d1 - 53)) as En2
    by (clear - He' Hea; lia).
  rewrite En2 in H2e, H2m. clear Hn2 En2.
  clearbody m1 d1. clear H1 Hdlo Hdhi Hb E1 E2 Hdig.
  assert (1 <= d1) as Hd11.
  { destruct (Z.lt_ge_cases d1 1) as [Hn|]; [|assumption].
    assert (2 ^ d1 <= 2 ^ 0) by (apply Z.pow_le_mono_r; lia). change (2 ^ 0) with 1 in *. lia. }
  set (n2 := Z.max 0 (d1 - 53)) in *.
  pose proof (pow2_pos n2 ltac:(lia)) as Hpn2.
  assert (2 ^ n2 <= m1) as Hle.
  { destruct (Z.eq_dec n2 0) as [->|]; [change (2 ^ 0) with 1; lia|].
    assert (2 ^ n2 <= 2 ^ (d1 - 1)) by (apply Z.pow_le_mono_r; lia). lia. }
  assert (1 <= m1 / 2 ^ n2) as Hq2 by (apply Z.div_le_lower_bound; lia).
  rewrite H2m. destruct (m1 / 2 ^ n2) as [|m|m] eqn:Em; try lia.
  change (Z.sub emax prec) with 971.
  destruct (e'' <=? 971); cbn [reaches]; [|exact I].
  split; [lia|]. rewrite H2e.
  destruct (Z.eq_dec n2 0) as [E0|E0].
  - rewrite E0 in *. change (2 ^ 0) with 1 in Em. rewrite Z.div_1_r in Em.
    rewrite Z.add_0_r. lia.
  - assert (n2 = d1 - 53) as En by lia.
    assert (2 ^ 52 <= Z.pos m) as H52.
    { rewrite <- Em. apply Z.div_le_lower_bound; [lia|]. rewrite <- pow2_split by lia.
      replace (n2 + 52) with (d1 - 1) by lia. lia. }
    assert (2 ^ 53 * 2 ^ (ea + 1074) <= 2 ^ 52 * 2 ^ (e' + n2 + 1074)) as Hstep.
    { rewrite <- !pow2_split by lia. apply Z.pow_le_mono_r; lia. }
    pose proof (pow2_pos (ea + 1074) ltac:(lia)).
    pose proof (pow2_pos (e' + n2 + 1074) ltac:(lia)). nia.
Qed.

Lemma binary_round_reaches m0 e0 ma ea :
  -1074 <= e0 <= ea -> bounded prec emax ma ea = true ->
  Zpos ma * 2 ^ (ea - e0) <= Zpos m0 ->
  reaches ma ea (binary_round prec emax false m0 e0).
Proof.
  intros He0 Hva Hb. unfold binary_round.
  pose proof (shl_align_spec m0 e0 (fexp prec emax (Zpos (digits2_pos m0) + e0))) as (H1 & H2 & _).
  pose proof (shl_align_exp m0 e0 (fexp prec emax (Zpos (digits2_pos m0) + e0))) as H3.
  destruct (shl_align _ _ _) as [mz ez]. cbn [fst snd] in *.
  assert (-1074 <= ez) as Hez by (rewrite H3, fexp_eq; lia).
  apply binary_round_aux_reaches; [lia|lia|exact Hva|].
  rewrite H2. replace (ea - ez) with ((ea - e0) + (e0 - ez)) by lia.
  rewrite pow2_split by lia. pose proof (pow2_pos (e0 - ez) ltac:(lia)). nia.
Qed.

(** Adding a non-negative value to a positive binary64 number does not
    go below that number. *)
Lemma SFadd_reaches ma ea t :
  bounded prec emax ma ea = true -> valid_binary t = true -> signed false t ->
  reaches ma ea (SFadd prec emax (S754_finite false ma ea) t).
Proof.
  intros Hva Hvt Ht.
  pose proof (bounded_canonical ma ea Hva) as (_ & Hea & _).
  destruct t as [s|s| |s mt et]; cbn [signed] in Ht; try contradiction; subst;
    cbn [SFadd reaches]; try (split; lia); try exact I.
  cbn [valid_binary] in Hvt. pose proof (bounded_canonical mt et Hvt) as (_ & Het & _).
  pose proof (shl_align_spec ma ea (Z.min ea et)) as (_ & Hma' & Hea').
  pose proof (shl_align_spec mt et (Z.min ea et)) as (_ & Hmt' & Het').
  specialize (Hea' ltac:(lia)). specialize (Het' ltac:(lia)).
  set (ez := Z.min ea et) in *.
  destruct (shl_align ma ea ez) as [ma' ea']. destruct (shl_align mt et ez) as [mt' et'].
  cbn [fst snd cond_Zopp] in *. subst ea' et'.
  change (Z.pos ma' + Z.pos mt') with (Z.pos (ma' + mt')). cbn [binary_normalize].
  apply binary_round_reaches; [lia|exact Hva|]. rewrite Pos2Z.inj_add, Hma'. lia.
Qed.

(** The order of positive binary64 numbers is the order of their values. *)
Lemma SFleb_scaled m e c ec :
  bounded prec emax m e = true -> bounded prec emax c ec = true ->
  SFleb (S754_finite false m e) (S754_finite false c ec) = true <->
  Zpos m * 2 ^ (e + 1074) <= Zpos c * 2 ^ (ec + 1074).
Proof.
  intros Hm Hc.
  pose proof (bounded_canonical m e Hm) as (Hdm & He & Hcm).
  pose proof (bounded_canonical c ec Hc) as (Hdc & Hec & Hcc).
  pose proof (digits2_pos_bounds m) as [Hmlo Hmhi].
  pose proof (digits2_pos_bounds c) as [Hclo Hchi].
  assert (Z.pos m < 2 ^ 53) as Hm53.
  { assert (2 ^ Z.pos (digits2_pos m) <= 2 ^ 53) by (apply Z.pow_le_mono_r; lia). lia. }
  assert (Z.pos c < 2 ^ 53) as Hc53.
  { assert (2 ^ Z.pos (digits2_pos c) <= 2 ^ 53) by (apply Z.pow_le_mono_r; lia). lia. }
  pose proof (pow2_pos (e + 1074) ltac:(lia)) as Hpe.
  pose proof (pow2_pos (ec + 1074) ltac:(lia)) as Hpc.
  rewrite SFleb_finite.
  destruct (Z.lt_trichotomy e ec) as [Hlt|[->|Hgt]].
  - (* e < ec: c has 53 digits *)
    assert (2 ^ 52 <= Z.pos c) as H52.
    { destruct Hcc as [Hcc|Hcc]; [|lia]. rewrite Hcc in Hclo. exact Hclo. }
    assert (2 ^ 53 * 2 ^ (e + 1074) <= 2 ^ 52 * 2 ^ (ec + 1074)) as Hstep.
    { rewrite <- !pow2_split by lia. apply Z.pow_le_mono_r; lia. }
    split; [intros _; nia|intros _; left; exact Hlt].
  - split.
    + intros [?|[_ H]]; [lia|nia].
    + intros H. right. split; [reflexivity|nia].
  - assert (2 ^ 52 <= Z.pos m) as H52.
    { destruct Hcm as [Hcm|Hcm]; [|lia]. rewrite Hcm in Hmlo. exact Hmlo. }
    assert (2 ^ 53 * 2 ^ (ec + 1074) <= 2 ^ 52 * 2 ^ (e + 1074)) as Hstep.
    { rewrite <- !pow2_split by lia. apply Z.pow_le_mono_r; lia. }
    split; [intros [?|[? _]]; lia|intros H; exfalso; nia].
Qed.

Lemma reaches_SFleb ma ea x :
  bounded prec emax ma ea = true -> valid_binary x = true ->
  reaches ma ea x -> SFleb (S754_finite false ma ea) x = true.
Proof.
  intros Hva Hvx H. destruct x as [s|[]| |[] m e]; cbn [reaches] in H; try contradiction;
    try reflexivity.
  cbn [valid_binary] in Hvx. apply SFleb_scaled; [assumption|assumption|apply H].
Qed.

(** ** Values that stay under a binary64 number *)

Lemma digits_lt_of_lt mx k : 0 < mx -> 0 <= k -> mx < 2 ^ k -> Zdigits2 mx <= k.
Proof.
  intros Hm Hk H. pose proof (Zdigits2_bounds mx Hm) as [Hlo _].
  destruct (Z.le_gt_cases (Zdigits2 mx) k) as [|Hgt]; [assumption|exfalso].
  assert (2 ^ k <= 2 ^ (Zdigits2 mx - 1)) by (apply Z.pow_le_mono_r; lia). lia.
Qed.

Lemma Zdigits2_pos mx : 0 < mx -> 1 <= Zdigits2 mx.
Proof. destruct mx as [|p|p]; try lia. intros _. cbn [Zdigits2]. lia. Qed.

(** Rounding a value that is at most a binary64 number [mc * 2^ec] gives
    at most that number. *)
Lemma binary_round_aux_under mx ex mc ec :
  0 <= mx -> ex <= ec -> bounded prec emax mc ec = true ->
  mx <= Zpos mc * 2 ^ (ec - ex) ->
  under mc ec (binary_round_aux prec emax false mx ex loc_Exact).
Proof.
  intros Hm Hex Hvc Hb.
  pose proof (bounded_canonical mc ec Hvc) as (Hdc & Hec & Hcan).
  pose proof (digits2_pos_bounds mc) as [Hmclo Hmchi].
  set (dc := Zpos (digits2_pos mc)) in *.
  assert (Z.pos mc < 2 ^ 53) as Hmc53.
  { assert (2 ^ dc <= 2 ^ 53) by (apply Z.pow_le_mono_r; lia). lia. }
  pose proof (shr_fexp_round mx ex loc_Exact Hm) as H1.
  unfold binary_round_aux.
  destruct (shr_fexp prec emax mx ex loc_Exact) as [mrs' e'] eqn:E1.
  cbv zeta in H1. cbn [fst snd] in H1.
  set (m1 := round_nearest_even (shr_m mrs') (loc_of_shr_record mrs')) in *.
  rewrite fexp_eq in H1. set (dx := Zdigits2 mx) in *.
  assert (0 <= m1 /\ -1074 <= e' <= ec /\ m1 <= Z.pos mc * 2 ^ (ec - e'))
    as (Hm1 & He' & Hv1).
  { destruct (Z.eq_dec mx 0) as [E0|N0].
    { assert (dx = 0) as Edx by (subst dx; rewrite E0; reflexivity).
      rewrite Edx in H1.
      pose proof (pow2_pos (ec - e')) as Hpe.
      destruct H1 as [(Hn & -> & _ & Hexact)|(Hn & -> & Hm1 & Hodd)].
      - rewrite (Hexact eq_refl). split; [lia|]. split; [lia|exact Hb].
      - assert (m1 = 0) as ->.
        { destruct (Z.eq_dec m1 0) as [|Hne]; [assumption|exfalso].
          rewrite E0 in Hm1, Hodd. rewrite !Z.div_0_l in Hm1, Hodd.
          - assert (m1 = 0 + 1) as E by lia. specialize (Hodd E). discriminate Hodd.
          - pose proof (pow2_pos (Z.max (0 + ex - 53) (-1074) - ex - 1) ltac:(lia)). lia.
          - pose proof (pow2_pos (Z.max (0 + ex - 53) (-1074) - ex) ltac:(lia)). lia. }
        split; [lia|]. split; [lia|]. specialize (Hpe ltac:(lia)). lia. }
    destruct H1 as [(Hn & -> & _ & Hexact)|(Hn & -> & Hm1 & Hodd)].
    - rewrite (Hexact eq_refl). split; [lia|]. split; [lia|exact Hb].
    - set (n := Z.max (dx + ex - 53) (-1074) - ex) in *.
      pose proof (pow2_pos n ltac:(lia)) as Hpn.
      assert (0 < mx) as Hpos by lia.
      pose proof (Zdigits2_bounds mx Hpos) as [Hdlo Hdhi]. fold dx in Hdlo, Hdhi.
      pose proof (Zdigits2_pos mx Hpos) as Hdx1. fold dx in Hdx1.
      pose proof (pow2_pos (ec - ex) ltac:(lia)) as Hpce.
      assert (dx + ex <= dc + ec) as Hdig.
      { assert (2 ^ (dx - 1) < 2 ^ (dc + (ec - ex))) as Hlt.
        { rewrite pow2_split by lia. nia. }
        apply pow2_lt_exp in Hlt; lia. }
      assert (ex + n <= ec) as Hle by lia.
      set (Cq := Z.pos mc * 2 ^ (ec - (ex + n))).
      assert (Z.pos mc * 2 ^ (ec - ex) = 2 ^ n * Cq) as Esplit.
      { unfold Cq. replace (ec - ex) with (n + (ec - (ex + n))) by lia.
        rewrite pow2_split by lia. ring. }
      assert (mx / 2 ^ n <= Cq) as Hq.
      { apply Z.div_le_upper_bound; [lia|]. rewrite <- Esplit. exact Hb. }
      split; [pose proof (Z.div_pos mx (2 ^ n) ltac:(lia) Hpn); lia|].
      split; [lia|]. fold Cq.
      destruct (Z.eq_dec m1 (mx / 2 ^ n)) as [->|Hne]; [exact Hq|].
      assert (m1 = mx / 2 ^ n + 1) as E by lia. specialize (Hodd E).
      destruct (Z.eq_dec (mx / 2 ^ n) Cq) as [Eq|]; [exfalso|lia].
      pose proof (Z.mul_div_le mx (2 ^ n) Hpn) as Hfloor. rewrite Eq in Hfloor.
      assert (mx = 2 ^ n * Cq) as Emx by lia.
      assert (2 ^ n = 2 ^ (n - 1) * 2) as E2.
      { replace n with ((n - 1) + 1) at 1 by lia. rewrite pow2_split by lia. reflexivity. }
      pose proof (pow2_pos (n - 1) ltac:(lia)) as Hpn1.
      assert (mx / 2 ^ (n - 1) = 2 * Cq) as Ediv.
      { rewrite Emx, E2. replace (2 ^ (n - 1) * 2 * Cq) with (2 * Cq * 2 ^ (n - 1)) by ring.
        apply Z.div_mul. lia. }
      rewrite Ediv, Z.odd_mul in Hodd. discriminate Hodd. }
  pose proof (shr_fexp_exact_eq m1 e' Hm1) as (H2e & H2m).
  destruct (shr_fexp prec emax m1 e' loc_Exact) as [mrs'' e''] eqn:E2.
  cbn [fst snd] in H2e, H2m. rewrite fexp_eq in H2e, H2m.
  set (d1 := Zdigits2 m1) in *.
  assert (Z.max 0 (Z.max (d1 + e' - 53) (-1074) - e') = Z.max 0 (d1 - 53)) as En2
    by (clear - He'; lia).
  rewrite En2 in H2e, H2m. clear En2.
  set (n2 := Z.max 0 (d1 - 53)) in *.
  pose proof (pow2_pos n2 ltac:(lia)) as Hpn2.
  rewrite H2m. destruct (m1 / 2 ^ n2) as [|m|m] eqn:Em; [exact I| |].
  2:{ pose proof (Z.div_pos m1 (2 ^ n2) Hm1 Hpn2). lia. }
  assert (0 < m1) as Hm1pos.
  { destruct (Z.eq_dec m1 0) as [E0|]; [|lia]. rewrite E0, Z.div_0_l in Em by lia. lia. }
  pose proof (Zdigits2_bounds m1 Hm1pos) as [Hd1lo Hd1hi]. fold d1 in Hd1lo, Hd1hi.
  pose proof (Zdigits2_pos m1 Hm1pos) as Hd11. fold d1 in Hd11.
  assert (e' + n2 <= ec) as Hle2.
  { destruct (Z.eq_dec n2 0) as [->|]; [lia|].
    pose proof (pow2_pos (ec - e') ltac:(lia)).
    assert (2 ^ (d1 - 1) < 2 ^ (53 + (ec - e'))) as Hlt.
    { rewrite pow2_split by lia. nia. }
    apply pow2_lt_exp in Hlt; lia. }
  change (Z.sub emax prec) with 971.
  assert ((e'' <=? 971) = true) as -> by (apply Z.leb_le; lia).
  cbn [under]. rewrite H2e. split; [lia|].
  rewrite <- Em. apply Z.div_le_upper_bound; [lia|].
  replace (2 ^ n2 * (Z.pos mc * 2 ^ (ec - (e' + n2)))) with (Z.pos mc * 2 ^ (ec - e'));
    [exact Hv1|].
  replace (ec - e') with (n2 + (ec - (e' + n2))) by lia. rewrite pow2_split by lia. ring.
Qed.

Lemma under_SFleb mc ec x :
  bounded prec emax mc ec = true -> valid_binary x = true ->
  under mc ec x -> SFleb x (S754_finite false mc ec) = true.
Proof.
  intros Hvc Hvx H. destruct x as [s|[]| |[] m e]; cbn [under] in H; try contradiction.
  - destruct s; reflexivity.
  - cbn [valid_binary] in Hvx. destruct H as [He Hm]. apply SFleb_finite.
    destruct (Z.eq_dec e ec) as [->|Hne].
    + right. split; [reflexivity|]. rewrite Z.sub_diag in Hm. change (2 ^ 0) with 1 in Hm. lia.
    + left. lia.
Qed.

Lemma SFleb_under mc ec x :
  bounded prec emax mc ec = true -> valid_binary x = true -> signed false x ->
  SFleb x (S754_finite false mc ec) = true -> under mc ec x.
Proof.
  intros Hvc Hvx Hs H.
  destruct x as [s|s| |s m e]; cbn [signed] in Hs; try contradiction; subst;
    try discriminate H; [exact I|].
  cbn [valid_binary] in Hvx. cbn [under].
  pose proof (bounded_canonical m e Hvx) as (Hdm & He & _).
  pose proof (bounded_canonical mc ec Hvc) as (Hdc & Hec & Hcc).
  pose proof (digits2_pos_bounds m) as [_ Hmhi].
  pose proof (digits2_pos_bounds mc) as [Hclo _].
  apply SFleb_finite in H. destruct H as [Hlt|[-> Hm]].
  - split; [lia|].
    assert (2 ^ 52 <= Z.pos mc) as H52.
    { destruct Hcc as [Hcc|Hcc]; [|lia]. rewrite Hcc in Hclo. exact Hclo. }
    assert (Z.pos m < 2 ^ 53).
    { assert (2 ^ Z.pos (digits2_pos m) <= 2 ^ 53) by (apply Z.pow_le_mono_r; lia). lia. }
    assert (2 ^ 1 <= 2 ^ (ec - e)) by (apply Z.pow_le_mono_r; lia).
    change (2 ^ 1) with 2 in *. change (2 ^ 53) with (2 ^ 52 * 2) in *. nia.
  - split; [lia|]. rewrite Z.sub_diag. change (2 ^ 0) with 1. lia.
Qed.

Lemma under_scaled mc ec x :
  under mc ec x -> 0 <= scaled x <= Zpos mc * 2 ^ (ec + 1074).
Proof.
  destruct x as [s|[]| |[] m e]; cbn [under scaled cond_Zopp]; try contradiction.
  - intros _. destruct (Z.lt_ge_cases (ec + 1074) 0) as [Hn|Hn].
    + rewrite pow2_neg by assumption. lia.
    + pose proof (pow2_pos (ec + 1074) Hn). lia.
  - intros [He Hm]. pose proof (pow2_pos (e + 1074) ltac:(lia)) as Hp.
    split; [lia|]. replace (ec + 1074) with ((ec - e) + (e + 1074)) by lia.
    rewrite (pow2_split (ec - e) (e + 1074)) by lia. nia.
Qed.

(** A number of [[0, 1]] times a positive binary64 number is at most that
    number. *)
Lemma SFmul_under x mk ek :
  valid_binary x = true -> signed false x -> at_most 0 x ->
  bounded prec emax mk ek = true ->
  under mk ek (SFmul prec emax x (S754_finite false mk ek)).
Proof.
  intros Hvx Hs Hx Hvk.
  destruct x as [s|s| |s mx ex]; cbn [signed] in Hs; try contradiction; subst;
    cbn [at_most] in Hx; try discriminate Hx; [exact I|].
  cbn [SFmul xorb]. apply binary_round_aux_under; [lia| |exact Hvk|].
  - destruct (Z.lt_ge_cases (0 - ex) 0) as [Hn|Hn]; [rewrite pow2_neg in Hx by assumption|]; lia.
  - replace (ek - (ex + ek)) with (0 - ex) by lia. rewrite Pos2Z.inj_mul. nia.
Qed.

(** The sum of a positive binary64 number and of a value of [[0, tb]] is
    at most any binary64 number that the exact sum with [tb] does not
    exceed. *)
Lemma SFadd_under ma ea t mt et mc ec :
  bounded prec emax ma ea = true -> valid_binary t = true -> under mt et t ->
  bounded prec emax mc ec = true ->
  Zpos ma * 2 ^ (ea + 1074) + Zpos mt * 2 ^ (et + 1074) <= Zpos mc * 2 ^ (ec + 1074) ->
  under mc ec (SFadd prec emax (S754_finite false ma ea) t).
Proof.
  intros Hva Hvt Ht Hvc Hsum.
  pose proof (bounded_canonical ma ea Hva) as (_ & Hea & _).
  pose proof (bounded_canonical mc ec Hvc) as (_ & Hec & _).
  pose proof (under_scaled _ _ _ Ht) as [Ht0 Htb].
  assert (under mc ec (S754_finite false ma ea)) as Ha.
  { apply SFleb_under; [exact Hvc|exact Hva|reflexivity|].
    apply SFleb_scaled; [exact Hva|exact Hvc|]. lia. }
  destruct t as [s|[]| |[] m e]; cbn [under] in Ht; try contradiction;
    cbn [SFadd]; [exact Ha|].
  cbn [valid_binary] in Hvt. cbn [scaled cond_Zopp] in Htb.
  pose proof (bounded_canonical m e Hvt) as (_ & He & _).
  pose proof (shl_align_spec ma ea (Z.min ea e)) as (_ & Hma' & Hea').
  pose proof (shl_align_spec m e (Z.min ea e)) as (_ & Hm' & He').
  specialize (Hea' ltac:(lia)). specialize (He' ltac:(lia)).
  set (ez := Z.min ea e) in *.
  destruct (shl_align ma ea ez) as [ma' ea']. destruct (shl_align m e ez) as [m' e'].
  cbn [fst snd cond_Zopp] in *. subst ea' e'.
  change (Z.pos ma' + Z.pos m') with (Z.pos (ma' + m')). cbn [binary_normalize].
  unfold binary_round.
  pose proof (shl_align_spec (ma' + m') ez
                (fexp prec emax (Zpos (digits2_pos (ma' + m')) + ez))) as (H1 & H2 & _).
  pose proof (shl_align_exp (ma' + m') ez
                (fexp prec emax (Zpos (digits2_pos (ma' + m')) + ez))) as H3.
  destruct (shl_align _ _ _) as [mz ez']. cbn [fst snd] in *.
  assert (-1074 <= ez') as Hez by (rewrite H3, fexp_eq; lia).
  destruct Ha as [Hea2 _].
  apply binary_round_aux_under; [lia|lia|exact Hvc|].
  pose proof (pow2_pos (ez' + 1074) ltac:(lia)) as Hp.
  assert (Z.pos mz * 2 ^ (ez' + 1074) =
          Z.pos ma * 2 ^ (ea + 1074) + Z.pos m * 2 ^ (e + 1074)) as Eval.
  { rewrite H2, Pos2Z.inj_add, Hma', Hm'.
    replace (ea + 1074) with ((ea - ez) + ((ez - ez') + (ez' + 1074))) by lia.
    replace (e + 1074) with ((e - ez) + ((ez - ez') + (ez' + 1074))) by lia.
    rewrite (pow2_split (ea - ez)), (pow2_split (e - ez)), (pow2_split (ez - ez')) by lia.
    ring. }
  assert (Z.pos mc * 2 ^ (ec + 1074) = Z.pos mc * 2 ^ (ec - ez') * 2 ^ (ez' + 1074)) as Ec.
  { replace (ec + 1074) with ((ec - ez') + (ez' + 1074)) by lia.
    rewrite (pow2_split (ec - ez')) by lia. ring. }
  nia.
Qed.

(** ** The rounding error of a difference, from below *)

(** Rounding a value below 1 takes away at most [2^-53]; the result is
    not negative. *)
Lemma binary_round_aux_error_low mx ex :
  0 <= mx -> -1074 <= ex -> mx < 2 ^ (0 - ex) ->
  mx * 2 ^ (ex + 1074) - 2 ^ 1021 <=
    scaled (binary_round_aux prec emax false mx ex loc_Exact).
Proof.
  intros Hm Hex Hb.
  assert (0 <= 0 - ex) as Hnex.
  { destruct (Z.lt_ge_cases (0 - ex) 0); [|assumption]. rewrite pow2_neg in Hb by assumption. lia. }
  set (A := 2 ^ (ex + 1074)). assert (0 < A) as HA by (apply pow2_pos; lia).
  pose proof (pow2_pos 1021 ltac:(lia)) as Hp1021.
  pose proof (shr_fexp_round mx ex loc_Exact Hm) as H1.
  unfold binary_round_aux.
  destruct (shr_fexp prec emax mx ex loc_Exact) as [mrs' e'] eqn:E1.
  cbv zeta in H1. cbn [fst snd] in H1.
  set (m1 := round_nearest_even (shr_m mrs') (loc_of_shr_record mrs')) in *.
  rewrite fexp_eq in H1. set (dx := Zdigits2 mx) in *.
  assert (0 <= m1 <= 2 ^ 53 /\ -1074 <= e' <= 0 /\
          mx * A - 2 ^ 1021 <= m1 * 2 ^ (e' + 1074) /\
          (m1 = 0 -> mx * A <= 2 ^ 1021)) as (Hm1 & He' & Hv1 & Hz1).
  { destruct (Z.eq_dec mx 0) as [E0|N0].
    { assert (dx = 0) as Edx by (subst dx; rewrite E0; reflexivity).
      destruct H1 as [(Hn & -> & _ & Hexact)|(Hn & _)]; [|lia].
      rewrite (Hexact eq_refl), E0. split; [lia|]. split; [lia|]. split; lia. }
    assert (0 < mx) as Hpos by lia.
    pose proof (Zdigits2_bounds mx Hpos) as [Hdlo Hdhi]. fold dx in Hdlo, Hdhi.
    pose proof (Zdigits2_pos mx Hpos) as Hdx1. fold dx in Hdx1.
    assert (dx + ex <= 0) as Hd0.
    { pose proof (digits_lt_of_lt mx (0 - ex) Hpos Hnex Hb). fold dx in H. lia. }
    destruct H1 as [(Hn & -> & _ & Hexact)|(Hn & -> & Hm1 & _)].
    - rewrite (Hexact eq_refl). fold A.
      assert (2 ^ dx <= 2 ^ 53) by (apply Z.pow_le_mono_r; lia).
      split; [lia|]. split; [lia|]. split; lia.
    - set (n := Z.max (dx + ex - 53) (-1074) - ex) in *.
      pose proof (pow2_pos n ltac:(lia)) as Hpn.
      pose proof (Z.mul_div_le mx (2 ^ n) Hpn) as Hfloor.
      pose proof (Z.mul_succ_div_gt mx (2 ^ n) Hpn) as Hceil.
      assert (2 ^ n * A <= 2 ^ 1021) as Herr.
      { unfold A. rewrite <- pow2_split by lia. apply Z.pow_le_mono_r; lia. }
      assert (2 ^ (ex + n + 1074) = 2 ^ n * A) as ->.
      { unfold A. rewrite <- pow2_split by lia. f_equal. lia. }
      assert (mx / 2 ^ n < 2 ^ 53) as Hq53.
      { apply Z.div_lt_upper_bound; [lia|]. rewrite <- pow2_split by lia.
        assert (2 ^ dx <= 2 ^ (n + 53)) by (apply Z.pow_le_mono_r; lia). lia. }
      pose proof (Z.div_pos mx (2 ^ n) ltac:(lia) Hpn) as Hq0.
      split; [lia|]. split; [lia|]. split; [nia|]. intros E. nia. }
  pose proof (shr_fexp_exact_eq m1 e' ltac:(lia)) as (H2e & H2m).
  destruct (shr_fexp prec emax m1 e' loc_Exact) as [mrs'' e''] eqn:E2.
  cbn [fst snd] in H2e, H2m. rewrite fexp_eq in H2e, H2m.
  set (d1 := Zdigits2 m1) in *.
  assert (Z.max 0 (Z.max (d1 + e' - 53) (-1074) - e') = Z.max 0 (d1 - 53)) as En2
    by (clear - He'; lia).
  rewrite En2 in H2e, H2m. clear En2.
  fold A in Hv1 |- *. clearbody A. clear H1 E1 E2.
  destruct (Z.eq_dec m1 0) as [E0|N0].
  { rewrite E0, Z.div_0_l in H2m.
    - rewrite H2m. cbn [scaled]. specialize (Hz1 E0). lia.
    - subst d1. rewrite E0. cbn. lia. }
  assert (0 < m1) as Hm1pos by lia.
  pose proof (Zdigits2_bounds m1 Hm1pos) as [Hd1lo Hd1hi]. fold d1 in Hd1lo, Hd1hi.
  pose proof (Zdigits2_pos m1 Hm1pos) as Hd11. fold d1 in Hd11.
  assert (d1 <= 54) as Hd54.
  { assert (2 ^ (d1 - 1) < 2 ^ 54) as Hlt by (change (2 ^ 54) with (2 * 2 ^ 53); lia).
    apply pow2_lt_exp in Hlt; lia. }
  change (Z.sub emax prec) with 971.
  assert ((e'' <=? 971) = true) as -> by (apply Z.leb_le; lia).
  destruct (Z.eq_dec d1 54) as [E54|N54].
  - rewrite E54 in *. change (Z.max 0 (54 - 53)) with 1 in *. change (54 - 1) with 53 in Hd1lo.
    assert (m1 = 2 ^ 53) as Em1 by lia. rewrite Em1 in H2m.
    change (2 ^ 53 / 2 ^ 1) with (Z.pos (2 ^ 52)) in H2m. rewrite H2m.
    cbn [scaled cond_Zopp]. rewrite H2e.
    replace (e' + 1 + 1074) with (1 + (e' + 1074)) by lia. rewrite pow2_split by lia.
    rewrite Em1 in Hv1. change (2 ^ 1) with 2. change (2 ^ 53) with (2 ^ 52 * 2) in Hv1.
    change (Z.pos (2 ^ 52)) with (2 ^ 52). lia.
  - replace (Z.max 0 (d1 - 53)) with 0 in * by lia. change (2 ^ 0) with 1 in H2m.
    rewrite Z.div_1_r in H2m. rewrite H2m.
    destruct m1 as [|m|m]; try lia. cbn [scaled cond_Zopp]. rewrite H2e, Z.add_0_r. exact Hv1.
Qed.

Lemma binary_round_error_low m0 e0 :
  -1074 <= e0 -> Zpos m0 < 2 ^ (0 - e0) ->
  Zpos m0 * 2 ^ (e0 + 1074) - 2 ^ 1021 <= scaled (binary_round prec emax false m0 e0).
Proof.
  intros He0 Hb. unfold binary_round.
  pose proof (shl_align_spec m0 e0 (fexp prec emax (Zpos (digits2_pos m0) + e0))) as (H1 & H2 & _).
  pose proof (shl_align_exp m0 e0 (fexp prec emax (Zpos (digits2_pos m0) + e0))) as H3.
  destruct (shl_align _ _ _) as [mz ez]. cbn [fst snd] in *.
  assert (-1074 <= ez) as Hez by (rewrite H3, fexp_eq; lia).
  assert (0 <= 0 - e0) as Hne.
  { destruct (Z.lt_ge_cases (0 - e0) 0); [|assumption]. rewrite pow2_neg in Hb by assumption. lia. }
  assert (Zpos mz * 2 ^ (ez + 1074) = Zpos m0 * 2 ^ (e0 + 1074)) as Eval.
  { rewrite H2. replace (e0 + 1074) with ((e0 - ez) + (ez + 1074)) by lia.
    rewrite (pow2_split (e0 - ez) (ez + 1074)) by lia. ring. }
  rewrite <- Eval. apply binary_round_aux_error_low; try lia.
  rewrite H2. replace (0 - ez) with ((0 - e0) + (e0 - ez)) by lia.
  rewrite pow2_split by lia. pose proof (pow2_pos (e0 - ez)). nia.
Qed.

(** One decay step loses at most the decay and [2^-53]. *)
Lemma SFsub_step_low mx ex md ed :
  bounded prec emax mx ex = true -> Zpos mx <= 2 ^ (0 - ex) ->
  bounded prec emax md ed = true ->
  Zpos md * 2 ^ (ed + 1074) < Zpos mx * 2 ^ (ex + 1074) ->
  Zpos mx * 2 ^ (ex + 1074) - Zpos md * 2 ^ (ed + 1074) - 2 ^ 1021 <=
    scaled (SFsub prec emax (S754_finite false mx ex) (S754_finite false md ed)).
Proof.
  intros Hvx Hx Hvd Hlt.
  pose proof (bounded_canonical mx ex Hvx) as (_ & Hex & _).
  pose proof (bounded_canonical md ed Hvd) as (_ & Hed & _).
  cbn [SFsub].
  pose proof (shl_align_spec mx ex (Z.min ex ed)) as (_ & Hvx' & Hex').
  pose proof (shl_align_spec md ed (Z.min ex ed)) as (_ & Hvd' & Hed').
  specialize (Hex' ltac:(lia)). specialize (Hed' ltac:(lia)).
  set (ez := Z.min ex ed) in *.
  destruct (shl_align mx ex ez) as [mx' ex']. destruct (shl_align md ed ez) as [md' ed'].
  cbn [fst snd cond_Zopp] in *. subst ex' ed'.
  assert (Zpos mx' * 2 ^ (ez + 1074) = Zpos mx * 2 ^ (ex + 1074)) as Ex.
  { rewrite Hvx'. replace (ex + 1074) with ((ex - ez) + (ez + 1074)) by lia.
    rewrite (pow2_split (ex - ez) (ez + 1074)) by lia. ring. }
  assert (Zpos md' * 2 ^ (ez + 1074) = Zpos md * 2 ^ (ed + 1074)) as Ed.
  { rewrite Hvd'. replace (ed + 1074) with ((ed - ez) + (ez + 1074)) by lia.
    rewrite (pow2_split (ed - ez) (ez + 1074)) by lia. ring. }
  pose proof (pow2_pos (ez + 1074) ltac:(lia)) as Hpz.
  assert (0 <= 0 - ex) as Hnex.
  { destruct (Z.lt_ge_cases (0 - ex) 0); [|assumption]. rewrite pow2_neg in Hx by assumption. lia. }
  assert (Zpos mx' <= 2 ^ (0 - ez)) as Hbx.
  { rewrite Hvx'. replace (0 - ez) with ((0 - ex) + (ex - ez)) by lia.
    rewrite pow2_split by lia. pose proof (pow2_pos (ex - ez)). nia. }
  destruct (Z.pos mx' - Z.pos md') as [|p|p] eqn:E; cbn [binary_normalize]; [nia| |nia].
  pose proof (binary_round_error_low p ez ltac:(lia) ltac:(lia)) as Herr.
  rewrite <- Ex, <- Ed. replace (Zpos p) with (Zpos mx' - Zpos md') in Herr by lia. lia.
Qed.

Local Open Scope float_scope.

(** [a <= a + t] for a positive number [a] and [t >= 0]. *)
Lemma add_ge_l a t :
  positive_finite a -> (0 <=? t) = true -> (a <=? a + t) = true.
Proof.
  intros (ma & ea & Ha) Ht. rewrite leb_0_signed in Ht.
  pose proof (Prim2SF_valid a) as Hva. pose proof (Prim2SF_valid t) as Hvt.
  pose proof (Prim2SF_valid (a + t)) as Hvr.
  rewrite FloatAxioms.leb_spec. rewrite FloatAxioms.add_spec in *. unfold SF64add in *.
  rewrite Ha in *. cbn [valid_binary] in Hva.
  apply reaches_SFleb; [exact Hva|exact Hvr|]. apply SFadd_reaches; assumption.
Qed.

(** A decay of at least [c] has a reciprocal of at most that of [c]. *)
Lemma ceil_reciprocal_le c d n :
  positive_finite c -> (c <=? d) = true ->
  (2 ^ 1074 <= Z.of_nat n * scaledF c)%Z ->
  (ceil_reciprocal d <= n)%nat.
Proof.
  intros (mc & ec & Hc) Hle Hn. unfold ceil_reciprocal, scaledF in *.
  pose proof (Prim2SF_valid c) as Hvc. pose proof (Prim2SF_valid d) as Hvd.
  rewrite FloatAxioms.leb_spec in Hle. rewrite Hc in *. cbn [valid_binary] in Hvc.
  destruct (Prim2SF d) as [s|[]| |[] m e] eqn:E; try discriminate;
    [cbn [scaled]; rewrite Z.div_0_r; cbn; lia|].
  cbn [valid_binary] in Hvd. apply SFleb_scaled in Hle; [|assumption|assumption].
  cbn [scaled cond_Zopp] in *.
  set (C := (Z.pos mc * 2 ^ (ec + 1074))%Z) in *.
  set (D := (Z.pos m * 2 ^ (e + 1074))%Z) in *.
  pose proof (bounded_canonical mc ec Hvc) as (_ & Hec & _).
  assert (0 < C)%Z by (subst C; pose proof (pow2_pos (ec + 1074) ltac:(lia)); nia).
  assert (((2 ^ 1074 + D - 1) / D < Z.of_nat n + 1)%Z); [|lia].
  apply Z.div_lt_upper_bound; [lia|]. nia.
Qed.

Lemma scaledF_positive x : (0 < scaledF x)%Z -> positive_finite x /\ (0 <? x) = true.
Proof.
  unfold scaledF. intros H. rewrite FloatAxioms.ltb_spec, Prim2SF_0.
  destruct (Prim2SF x) as [s|s| |[] m e] eqn:E; cbn [scaled cond_Zopp] in H; try lia.
  split; [exists m, e; exact E|reflexivity].
Qed.

Lemma sub_step_low l d :
  positive_finite l -> (l <=? 1) = true -> positive_finite d ->
  (scaledF d < scaledF l)%Z ->
  (scaledF l - scaledF d - 2 ^ 1021 <= scaledF (l - d))%Z.
Proof.
  intros (ml & el & Hl) Hl1 (md & ed & Hd) Hlt. unfold scaledF in *.
  rewrite leb_1_at_most in Hl1.
  pose proof (Prim2SF_valid l) as Hvl. pose proof (Prim2SF_valid d) as Hvd.
  rewrite FloatAxioms.sub_spec. unfold SF64sub. rewrite Hl, Hd in *.
  cbn [valid_binary at_most scaled cond_Zopp] in *.
  apply SFsub_step_low; assumption.
Qed.

(** The life left after [k] decay steps, from below. *)
Lemma lifeAfter_low d k : forall l,
  positive_finite l -> (l <=? 1) = true -> positive_finite d ->
  (Z.of_nat k * (scaledF d + 2 ^ 1021) < scaledF l)%Z ->
  (scaledF l - Z.of_nat k * (scaledF d + 2 ^ 1021) <= scaledF (lifeAfter k l d))%Z.
Proof.
  induction k as [|k IH]; intros l Hl Hl1 Hd Hk; [cbn [lifeAfter]; lia|].
  assert (0 < scaledF d)%Z as Hdpos.
  { destruct Hd as (m & e & Hd). unfold scaledF. rewrite Hd. cbn [scaled cond_Zopp].
    pose proof (Prim2SF_valid d) as Hv. rewrite Hd in Hv. cbn [valid_binary] in Hv.
    pose proof (bounded_canonical m e Hv) as (_ & He & _).
    pose proof (pow2_pos (e + 1074) ltac:(lia)). nia. }
  rewrite Nat2Z.inj_succ in *.
  pose proof (sub_step_low l d Hl Hl1 Hd ltac:(nia)) as Hs.
  cbn [lifeAfter].
  assert (0 <= Z.of_nat k)%Z by lia.
  destruct (scaledF_positive (l - d) ltac:(nia)) as [Hp _].
  specialize (IH (l - d) Hp).
  assert ((l - d <=? 1) = true) as H1.
  { apply sub_le_1; [exact Hl1|]. destruct Hd as (m & e & Hd).
    rewrite leb_0_signed, Hd. reflexivity. }
  specialize (IH H1 Hd ltac:(nia)). nia.
Qed.

(** A particle of life 1 whose decay is at most [c] is alive after each
    of the first [k] decay steps, when [k * (c + 2^-53) < 1]. *)
Lemma lifeAfter_positive c d k j :
  positive_finite c -> positive_finite d -> (d <=? c) = true ->
  (Z.of_nat k * (scaledF c + 2 ^ 1021) < 2 ^ 1074)%Z -> (j <= k)%nat ->
  (0 <? lifeAfter j 1 d) = true.
Proof.
  intros (mc & ec & Hc) Hd Hle Hk Hj.
  assert (scaledF d <= scaledF c)%Z as Hdc.
  { destruct Hd as (m & e & Hd). unfold scaledF. rewrite FloatAxioms.leb_spec in Hle.
    pose proof (Prim2SF_valid c) as Hvc. pose proof (Prim2SF_valid d) as Hvd.
    rewrite Hc, Hd in *. cbn [valid_binary scaled cond_Zopp] in *.
    apply SFleb_scaled; assumption. }
  assert (0 < scaledF d)%Z as Hdpos.
  { destruct Hd as (m & e & Hd). unfold scaledF. rewrite Hd. cbn [scaled cond_Zopp].
    pose proof (Prim2SF_valid d) as Hv. rewrite Hd in Hv. cbn [valid_binary] in Hv.
    pose proof (bounded_canonical m e Hv) as (_ & He & _).
    pose proof (pow2_pos (e + 1074) ltac:(lia)). nia. }
  assert (scaledF 1 = 2 ^ 1074)%Z as E1 by reflexivity.
  assert (Z.of_nat j * (scaledF d + 2 ^ 1021) < 2 ^ 1074)%Z as Hjlt.
  { assert (Z.of_nat j <= Z.of_nat k)%Z by lia.
    assert (0 <= Z.of_nat j)%Z by lia. pose proof (pow2_pos 1021 ltac:(lia)). nia. }
  pose proof (lifeAfter_low d j 1 ltac:(eapply positive_finite_intro; reflexivity)
                eq_refl Hd ltac:(rewrite E1; exact Hjlt)) as Hlow.
  apply scaledF_positive. rewrite E1 in Hlow. lia.
Qed.

(** [a + x * k <= c] for [x] in [[0, 1]], when the exact [a + k] is at
    most [c]. *)
Lemma add_mul_le a k c x :
  positive_finite a -> positive_finite k -> positive_finite c ->
  (0 <=? x) = true -> (x <=? 1) = true ->
  (scaledF a + scaledF k <= scaledF c)%Z ->
  (a + x * k <=? c) = true.
Proof.
  intros (ma & ea & Ha) (mk & ek & Hk) (mc & ec & Hc) H0 H1 Hsum. unfold scaledF in Hsum.
  rewrite leb_0_signed in H0. rewrite leb_1_at_most in H1.
  pose proof (Prim2SF_valid a) as Hva. pose proof (Prim2SF_valid k) as Hvk.
  pose proof (Prim2SF_valid c) as Hvc. pose proof (Prim2SF_valid x) as Hvx.
  pose proof (Prim2SF_valid (x * k)) as Hvt. pose proof (Prim2SF_valid (a + x * k)) as Hvr.
  rewrite FloatAxioms.leb_spec. rewrite FloatAxioms.add_spec in *.
  rewrite FloatAxioms.mul_spec in *. unfold SF64add, SF64mul in *.
  rewrite Ha, Hk, Hc in *. cbn [valid_binary scaled cond_Zopp] in *.
  apply under_SFleb; [exact Hvc|exact Hvr|].
  apply (SFadd_under ma ea _ mk ek mc ec); try assumption.
  apply SFmul_under; assumption.
Qed.

Lemma ticks_single_alive n width height : forall p,
  (forall j, (1 <= j <= n)%nat ->
             (0 <? lifeAfter j (Particle.life p) (Particle.decay p)) = true) ->
  length (ticks n [p] width height) = 1%nat.
Proof.
  induction n as [|n IH]; intros p Hpos; [reflexivity|].
  cbn [ticks]. rewrite updateParticles_single.
  pose proof (Hpos 1%nat ltac:(lia)) as H1. cbn [lifeAfter] in H1. rewrite H1.
  apply IH. intros j Hj. destruct (stepParticle_life height p) as [-> ->].
  apply (Hpos (S j)). lia.
Qed.

Lemma reciprocal_of_0_02 : (2 ^ 1074 <= Z.of_nat 50 * scaledF 0.02)%Z.
Proof. vm_compute. discriminate. Qed.

Lemma reciprocal_of_0_01 : (2 ^ 1074 <= Z.of_nat 100 * scaledF 0.01)%Z.
Proof. vm_compute. discriminate. Qed.

Lemma reciprocal_of_0_05 : (Z.of_nat 19 * (scaledF 0.05 + 2 ^ 1021) < 2 ^ 1074)%Z.
Proof. vm_compute. reflexivity. Qed.

Lemma reciprocal_of_0_03 :
  (Z.of_nat 33 * (scaledF 0.030000000000000002 + 2 ^ 1021) < 2 ^ 1074)%Z.
Proof. vm_compute. reflexivity. Qed.

Section Lifetimes.

Variable Math_cos Math_sin : number -> number.
Variable Math_random : nat -> number.

Local Abbreviation createTrailParticle := (createTrailParticle Math_cos Math_sin Math_random).
Local Abbreviation createBurstParticle := (createBurstParticle Math_cos Math_sin Math_random).
Local Abbreviation made := (made Math_cos Math_sin Math_random).

Hypothesis random_range :
  forall k, (0 <=? Math_random k) = true /\ (Math_random k <? 1) = true.

(** The decay of a particle, by its type: [0.02 + r * 0.03] is in
    [[0.02, 0.05]], and [0.01 + r * 0.02] at most the number next above
    0.03, which the sum of 0.01 and 0.02 rounds to or stays under. *)
Lemma made_decay p :
  made p ->
  Particle.life p = 1 /\
  match Particle.type p with
  | trail => (0.02 <=? Particle.decay p) = true /\ (Particle.decay p <=? 0.05) = true
  | burst => (0.01 <=? Particle.decay p) = true /\
             (Particle.decay p <=? 0.030000000000000002) = true
  end.
Proof.
  intros [(x & y & n & ->)|(x & y & v & i & n & Hi & ->)];
    cbn [createBurstParticle createTrailParticle
         Particle.type Particle.decay Particle.life];
    (split; [reflexivity|]); split.
  - apply add_ge_l; [eapply positive_finite_intro; reflexivity|].
    apply mul_nonneg; [apply random_range|eapply positive_finite_intro; reflexivity].
  - destruct (random_unit _ random_range (n + 3)) as [H0 H1].
    apply add_mul_le; try (eapply positive_finite_intro; reflexivity); try assumption.
    vm_compute. discriminate.
  - apply add_ge_l; [eapply positive_finite_intro; reflexivity|].
    apply mul_nonneg; [apply random_range|eapply positive_finite_intro; reflexivity].
  - destruct (random_unit _ random_range (n + 2)) as [H0 H1].
    apply add_mul_le; try (eapply positive_finite_intro; reflexivity); try assumption.
    vm_compute. discriminate.
Qed.

Lemma between_positive_finite c1 c2 d :
  positive_finite c1 -> positive_finite c2 ->
  (c1 <=? d) = true -> (d <=? c2) = true -> positive_finite d.
Proof.
  intros (m1 & e1 & H1) (m2 & e2 & H2). rewrite !FloatAxioms.leb_spec, H1, H2.
  destruct (Prim2SF d) as [s|[]| |[] m e] eqn:E; cbn; try discriminate.
  intros _ _. exists m, e. exact E.
Qed.

(** X20.  A trail particle is still in the population 19 ticks after its
    making and has left it after 51; a burst particle is still there after
    33 ticks and has left after 101.  Their decays are in [[0.02, 0.05]]
    and in [[0.01, 0.030000000000000002]]; each decay step adds a rounding
    error to the life. *)
Theorem lifetimes_are_bounded p width height :
  made p ->
  match Particle.type p with
  | trail =>
      (0.02 <=? Particle.decay p) = true /\ (Particle.decay p <=? 0.05) = true /\
      (forall n, (n <= 19)%nat -> length (ticks n [p] width height) = 1%nat) /\
      (forall n, (51 <= n)%nat -> ticks n [p] width height = [])
  | burst =>
      (0.01 <=? Particle.decay p) = true /\
      (Particle.decay p <=? 0.030000000000000002) = true /\
      (forall n, (n <= 33)%nat -> length (ticks n [p] width height) = 1%nat) /\
      (forall n, (101 <= n)%nat -> ticks n [p] width height = [])
  end.
Proof.
  intros Hm. pose proof (made_decay p Hm) as [Hlife Hd].
  pose proof (made_sound _ _ _ random_range p Hm) as Hs.
  destruct (Particle.type p); destruct Hd as [Hlo Hhi];
    (split; [exact Hlo|]); (split; [exact Hhi|]); split.
  - intros n Hn. apply ticks_single_alive. intros j Hj. rewrite Hlife.
    apply (lifeAfter_positive 0.05 (Particle.decay p) 19 j);
      [eapply positive_finite_intro; reflexivity| |exact Hhi|exact reciprocal_of_0_05|lia].
    apply (between_positive_finite 0.02 0.05); try assumption;
      eapply positive_finite_intro; reflexivity.
  - intros n Hn. apply (expiry_sound p n [] [] width height Hs).
    pose proof (ceil_reciprocal_le 0.02 (Particle.decay p) 50
                  ltac:(eapply positive_finite_intro; reflexivity) Hlo reciprocal_of_0_02).
    lia.
  - intros n Hn. apply ticks_single_alive. intros j Hj. rewrite Hlife.
    apply (lifeAfter_positive 0.030000000000000002 (Particle.decay p) 33 j);
      [eapply positive_finite_intro; reflexivity| |exact Hhi|exact reciprocal_of_0_03|lia].
    apply (between_positive_finite 0.01 0.030000000000000002); try assumption;
      eapply positive_finite_intro; reflexivity.
  - intros n Hn. apply (expiry_sound p n [] [] width height Hs).
    pose proof (ceil_reciprocal_le 0.01 (Particle.decay p) 100
                  ltac:(eapply positive_finite_intro; reflexivity) Hlo reciprocal_of_0_01).
    lia.
Qed.

End Lifetimes.

(** * The claims on sample inputs *)

Lemma sampleRandom_range k :
  (0 <=? sampleRandom k) = true /\ (sampleRandom k <? 1) = true.
Proof. split; reflexivity. Qed.

(** C1 on an emitter at rest at the origin whose target is at 80, then 100,
    then 52 pixels: speeds 20, 20, 3. *)
Lemma C1_witness :
  let w0 := setEmitter "0-0" restingEmitter initialWorld in
  let w1 := updateEmitter sampleCos sampleSin sampleRandom "0-0" 80 0 0.2 TRAIL_COLOR w0 in
  let w2 := updateEmitter sampleCos sampleSin sampleRandom "0-0" 100 0 0.2 TRAIL_COLOR w1 in
  let w3 := updateEmitter sampleCos sampleSin sampleRandom "0-0" 52 0 0.2 TRAIL_COLOR w2 in
  tickSpeed "0-0" 80 0 w0 = Some 20 /\ tickSpeed "0-0" 100 0 w1 = Some 20 /\
  tickSpeed "0-0" 52 0 w2 = Some 3 /\
  armedAt "0-0" w1 = Some true /\ armedAt "0-0" w2 = Some true /\
  armedAt "0-0" w3 = Some false /\ length (spawned w2 w3) = 60%nat.
Proof.
  intros w0 w1 w2 w3.
  assert (tickSpeed "0-0" 80 0 w0 = Some 20) as H1 by (vm_compute; reflexivity).
  assert (tickSpeed "0-0" 100 0 w1 = Some 20) as H2 by (vm_compute; reflexivity).
  assert (tickSpeed "0-0" 52 0 w2 = Some 3) as H3 by (vm_compute; reflexivity).
  destruct (C1_arm_trigger_hysteresis sampleCos sampleSin sampleRandom "0-0" w0
              80 0 0.2 TRAIL_COLOR 100 0 0.2 TRAIL_COLOR 52 0 0.2 TRAIL_COLOR H1 H2)
    as ((A1 & _) & (A2 & _) & B & _).
  destruct (B H3) as (e3 & He3 & Ha3 & _ & Hlen & _).
  assert (armedAt "0-0" w3 = Some false) as A3.
  { unfold armedAt. subst w3 w2 w1. rewrite He3. cbn [fmap option_fmap option_map].
    rewrite Ha3. reflexivity. }
  repeat split; assumption.
Defined.

(** C2: the falling particle claimed to leave the floor at [-0.6 * vy]
    leaves it at [-0.6 * (vy + gravity)]. *)
Lemma C2_counterexample :
  Particle.y fallingParticle = 720 /\
  (Particle.vy fallingParticle >? 0) = true /\
  snd (stepParticle 720 fallingParticle) = true /\
  Particle.y (fst (stepParticle 720 fallingParticle)) = 720 /\
  (Particle.vy (fst (stepParticle 720 fallingParticle)) =? -0.6 * Particle.vy fallingParticle)
    = false.
Proof. vm_compute. repeat split. Qed.

Lemma C2_witness :
  (Particle.life fallingParticle - Particle.decay fallingParticle >? 0) = true /\
  (Particle.y fallingParticle + Particle.vy fallingParticle >? 720) = true /\
  (Particle.vy fallingParticle + Particle.gravity fallingParticle >? 0) = true /\
  Particle.vy (fst (stepParticle 720 fallingParticle)) = (1 + 0.1) * -0.6 /\
  Particle.y (fst (stepParticle 720 fallingParticle)) = 720.
Proof.
  assert ((Particle.life fallingParticle - Particle.decay fallingParticle >? 0) = true)
    as H1 by reflexivity.
  assert ((Particle.y fallingParticle + Particle.vy fallingParticle >? 720) = true)
    as H2 by reflexivity.
  assert ((Particle.vy fallingParticle + Particle.gravity fallingParticle >? 0) = true)
    as H3 by reflexivity.
  destruct (C2_floor_bounce 720 fallingParticle H1 H2 H3) as (_ & Hv & Hy & _).
  repeat split; assumption.
Defined.

(** C3: forty frames after the bursts of the flick the flash is stuck at a
    positive value that the next frame does not decay. *)
Lemma C3_counterexample :
  exists w w' ops,
    frames sampleCos sampleSin sampleRandom (flickFrames ++ idleFrames) initialWorld = Some w /\
    animate sampleCos sampleSin sampleRandom (frameOf []) w = Some (w', ops) /\
    (0 <? lightingIntensityRef w) = true /\
    lightingIntensityRef w' = lightingIntensityRef w /\
    (lightingIntensityRef w' =? lightingIntensityRef w * 0.85) = false.
Proof.
  destruct (frames sampleCos sampleSin sampleRandom (flickFrames ++ idleFrames) initialWorld)
    as [w|] eqn:E; [|vm_compute in E; discriminate E].
  destruct (animate sampleCos sampleSin sampleRandom (frameOf []) w) as [[w' ops]|] eqn:E';
    [|vm_compute in E; injection E as <-; vm_compute in E'; discriminate E'].
  exists w, w', ops. split; [reflexivity|]. split; [exact E'|].
  vm_compute in E. injection E as <-. vm_compute in E'. injection E' as <- _.
  vm_compute. repeat split.
Qed.

Lemma C3_witness :
  (forall k, (0 <=? sampleRandom k) = true /\ (sampleRandom k <? 1) = true) /\
  exists w, frames sampleCos sampleSin sampleRandom flickFrames initialWorld = Some w /\
            unit_interval (lightingIntensityRef w).
Proof.
  split; [exact sampleRandom_range|].
  destruct (C3_flash_in_unit_interval sampleCos sampleSin sampleRandom sampleRandom_range)
    as (H & _).
  apply H. unfold flickFrames, wellFormed.
  repeat (apply Forall_cons; split; [repeat constructor; cbn; lia|]). constructor.
Defined.

(** C4: the gold of the palette is the trail colour. *)
Lemma C4_counterexample :
  TRAIL_COLOR ∈ BURST_COLORS /\
  Particle.color (createBurstParticle sampleCos sampleSin (fun _ => 0.25) 0 0 0) =
  Particle.color (createTrailParticle sampleCos sampleSin (fun _ => 0.25) 0 0
                    (Point.mk 0 0) TRAIL_COLOR 0).
Proof. split; [|reflexivity]. unfold BURST_COLORS, TRAIL_COLOR. set_solver. Qed.

Lemma C4_witness :
  (forall k, (0 <=? sampleRandom k) = true /\ (sampleRandom k <? 1) = true) /\
  exists c, c ∈ BURST_COLORS /\
    Particle.color (createBurstParticle sampleCos sampleSin sampleRandom 0 0 0) =
    "rgba(" +:+ c +:+ ",".
Proof.
  split; [exact sampleRandom_range|].
  destruct (C4_burst_palette sampleCos sampleSin sampleRandom sampleRandom_range 0 0 0%nat)
    as ((c & Hc & Hcol) & _).
  exists c. split; [|exact Hcol]. eapply list_elem_of_lookup_2. exact Hc.
Defined.

(** C6: a burst particle whose decay draw is 0.125 has decay 0.0125;
    [ceil (1 / decay)] is 80, for the exact quotient and for the number
    [1 / decay] alike, and after 80 ticks the particle is still in the
    population; the 81st removes it.  So it is in the run of the sample
    frames: after the emission phase of the twelfth frame every particle
    of the population has [ceil (1 / decay) <= 80], and 80 ticks later the
    300 particles of the five bursts are still there. *)
Lemma C6_counterexample :
  Particle.life sampleBurstParticle = 1 /\
  Particle.decay sampleBurstParticle = 0.0125 /\
  ceil_reciprocal (Particle.decay sampleBurstParticle) = 80%nat /\
  1 / Particle.decay sampleBurstParticle = 80 /\
  length (ticks 80 [sampleBurstParticle] 1280 720) = 1%nat /\
  ticks 81 [sampleBurstParticle] 1280 720 = [] /\
  (w0 ← frames sampleCos sampleSin sampleRandom (take 11 flickFrames) initialWorld;
   w1 ← processTracking sampleCos sampleSin sampleRandom (frameOf [handAt 0.25 0.5]) w0;
   Some (forallb (fun q => ceil_reciprocal (Particle.decay q) <=? 80)%nat (particlesRef w1),
         length (ticks 80 (particlesRef w1) 1280 720),
         length (ticks 81 (particlesRef w1) 1280 720)))
  = Some (true, 300%nat, 0%nat).
Proof. vm_compute. repeat split. Qed.

Lemma C6_witness :
  let w := setParticles [sampleBurstParticle] initialWorld in
  WorldOk w /\
  (ceil_reciprocal (Particle.decay sampleBurstParticle) + 1 <= 81)%nat /\
  ticks 81 (particlesRef w) 1280 720 = [].
Proof.
  intros w.
  assert (WorldOk w) as Hw.
  { split; [|split; reflexivity]. repeat constructor; reflexivity. }
  assert (ceil_reciprocal (Particle.decay sampleBurstParticle) + 1 <= 81)%nat as Hn
    by (vm_compute; lia).
  destruct (C6_expiry_one_tick_later sampleCos sampleSin sampleRandom sampleRandom_range)
    as (_ & _ & H).
  destruct (H w sampleBurstParticle [] [] 81%nat 1280 720 Hw eq_refl Hn) as (_ & E).
  split; [exact Hw|]. split; [exact Hn|exact E].
Defined.

(** C5 on two hands, ten fingertips, whose emitters are 80 pixels per
    frame fast: the chance is 0.2, each call draws twice, and with every
    draw at 0.5 no particle is pushed, with every draw at 0.125 two per
    fingertip. *)
Lemma C5_witness :
  let f0 := frameOf [handAt 0.5 0.5; handAt 0.5 0.5] in
  let f1 := frameOf [handAt 0.25 0.5; handAt 0.25 0.5] in
  let half := fun _ : nat => 0.5 in
  particleMultiplierOf (array_length (landmarks f1) * 5) = 0.2 /\
  length (fingertipCalls f1) = 10%nat /\
  (w0 ← frames sampleCos sampleSin half [f0] initialWorld;
   w1 ← processTracking sampleCos sampleSin half f1 w0;
   Some (size (emittersRef w0), length (particlesRef w1), randomCalls w1))
  = Some (10%nat, 0%nat, 20%nat) /\
  (w0 ← frames sampleCos sampleSin sampleRandom [f0] initialWorld;
   w1 ← processTracking sampleCos sampleSin sampleRandom f1 w0;
   Some (size (emittersRef w0), length (particlesRef w1), randomCalls w1))
  = Some (10%nat, 20%nat, 100%nat).
Proof.
  intros f0 f1 half.
  assert (wellFormed f1) as Hwf by (repeat constructor; cbn; lia).
  destruct (C5_density_multiplier sampleCos sampleSin half) as (Hhalf & _ & _ & Htwo & _).
  destruct (C5_density_multiplier sampleCos sampleSin sampleRandom) as (Hsample & _).
  split; [apply Htwo; reflexivity|].
  split; [exact (proj1 (proj2 (Hhalf f1 initialWorld eq_refl Hwf)))|]. split.
  - destruct (frames sampleCos sampleSin half [f0] initialWorld) as [w0|] eqn:E0;
      [|vm_compute in E0; discriminate E0].
    cbn [mbind option_bind]. destruct (Hhalf f1 w0 eq_refl Hwf) as (_ & _ & ->).
    vm_compute in E0. injection E0 as <-. vm_compute. reflexivity.
  - destruct (frames sampleCos sampleSin sampleRandom [f0] initialWorld) as [w0|] eqn:E0;
      [|vm_compute in E0; discriminate E0].
    cbn [mbind option_bind]. destruct (Hsample f1 w0 eq_refl Hwf) as (_ & _ & ->).
    vm_compute in E0. injection E0 as <-. vm_compute. reflexivity.
Defined.

Lemma C7_witness :
  (forall k, (0 <=? sampleRandom k) = true /\ (sampleRandom k <? 1) = true) /\
  exists w, frames sampleCos sampleSin sampleRandom flickFrames initialWorld = Some w /\
            Forall alive (particlesRef w).
Proof.
  split; [exact sampleRandom_range|].
  destruct (C7_live_particles sampleCos sampleSin sampleRandom sampleRandom_range)
    as (H & _).
  apply H. unfold flickFrames, wellFormed.
  repeat (apply Forall_cons; split; [repeat constructor; cbn; lia|]). constructor.
Defined.

Lemma C8_witness :
  emittersRef initialWorld !! "0-0" = None /\
  emittersRef (updateEmitter sampleCos sampleSin sampleRandom "0-0" 640 360 1 TRAIL_COLOR
                 initialWorld) !! "0-0" =
    Some {| EmitterState.x := 640; EmitterState.y := 360; EmitterState.vx := 0;
            EmitterState.vy := 0; EmitterState.isBurstArmed := false |} /\
  spawned initialWorld
    (updateEmitter sampleCos sampleSin sampleRandom "0-0" 640 360 1 TRAIL_COLOR initialWorld)
    = [].
Proof.
  assert (emittersRef initialWorld !! "0-0" = None) as H by reflexivity.
  destruct (C8_create_seeds_and_emits_nothing sampleCos sampleSin sampleRandom
              "0-0" 640 360 1 TRAIL_COLOR initialWorld H) as (He & _ & Hs & _).
  repeat split; assumption.
Defined.

(** C9: a second hand's thumb emitter, in the registry when a frame with
    one hand begins, is still there when the emission phase of that frame
    ends; and it is still there after a whole frame with no hand in which
    the video is paused. *)
Lemma C9_counterexample :
  let w := setEmitter "1-0" restingEmitter initialWorld in
  let f := frameOf [handAt 0.5 0.5] in
  let paused := {| ready := true; playing := false; canvasWidth := 1280;
                   canvasHeight := 720; landmarks := [] |} in
  is_Some (emittersRef w !! "1-0") /\ ("1-0" ∉ trackedKeys f) /\
  (st ← trackHands sampleCos sampleSin sampleRandom f (Some (∅, w));
   emittersRef st.2 !! "1-0") = Some restingEmitter /\
  trackedKeys paused = ∅ /\
  (r ← animate sampleCos sampleSin sampleRandom paused w;
   emittersRef r.1 !! "1-0") = Some restingEmitter.
Proof.
  intros w f paused. split; [eexists; reflexivity|]. split; [vm_compute; set_solver|].
  split; [vm_compute; reflexivity|]. split; reflexivity.
Qed.

(** C9 on the same emitter: a playing frame with one hand removes it, and
    runs as it does without it; a paused frame with no hand keeps it. *)
Lemma C9_witness :
  let w := setEmitter "1-0" restingEmitter initialWorld in
  let f := frameOf [handAt 0.5 0.5] in
  let paused := {| ready := true; playing := false; canvasWidth := 1280;
                   canvasHeight := 720; landmarks := [] |} in
  is_Some (emittersRef w !! "1-0") /\ ("1-0" ∉ trackedKeys f) /\
  ("1-0" ∉ trackedKeys paused) /\
  (exists w' ops,
     animate sampleCos sampleSin sampleRandom f w = Some (w', ops) /\
     emittersRef w' !! "1-0" = None /\
     animate sampleCos sampleSin sampleRandom f (forget "1-0" w) = Some (w', ops)) /\
  (exists w' ops,
     animate sampleCos sampleSin sampleRandom paused w = Some (w', ops) /\
     animate sampleCos sampleSin sampleRandom paused (forget "1-0" w) =
       Some (forget "1-0" w', ops) /\
     emittersRef w' !! "1-0" = Some restingEmitter).
Proof.
  intros w f paused.
  assert (is_Some (emittersRef w !! "1-0")) as Hin by (eexists; reflexivity).
  assert ("1-0" ∉ trackedKeys f) as Hkey by (vm_compute; set_solver).
  assert ("1-0" ∉ trackedKeys paused) as Hkey' by (vm_compute; set_solver).
  assert (wellFormed f) as Hwf by (repeat constructor; cbn; lia).
  assert (wellFormed paused) as Hwf' by constructor.
  destruct (C9_untracked_emitter_removed sampleCos sampleSin sampleRandom f w "1-0"
              Hwf Hin Hkey) as (w1 & ops1 & E1 & _ & Hrun & _).
  destruct (Hrun eq_refl eq_refl) as (_ & _ & Hnone & Hsame & _).
  destruct (C9_untracked_emitter_removed sampleCos sampleSin sampleRandom paused w "1-0"
              Hwf' Hin Hkey') as (w2 & ops2 & E2 & Hsame2 & _ & Hskip).
  destruct (Hskip eq_refl) as [Hreg _].
  split; [exact Hin|]. split; [exact Hkey|]. split; [exact Hkey'|]. split.
  - exists w1, ops1. repeat split; assumption.
  - exists w2, ops2. split; [exact E2|]. split; [exact Hsame2|]. rewrite Hreg. reflexivity.
Defined.

Lemma C10_witness :
  let e := {| EmitterState.x := 0; EmitterState.y := 0; EmitterState.vx := 0;
              EmitterState.vy := 0; EmitterState.isBurstArmed := true |} in
  let w := setEmitter "0-0" e initialWorld in
  let w' := updateEmitter sampleCos sampleSin sampleRandom "0-0" 16 0 0.2 TRAIL_COLOR w in
  emittersRef w !! "0-0" = Some e /\
  speedOf e 16 0 = 4 /\
  length (spawned w w') = 61%nat.
Proof.
  intros e w w'.
  assert (emittersRef w !! "0-0" = Some e) as H by reflexivity.
  destruct (C10_spawn_bound sampleCos sampleSin sampleRandom "0-0" 16 0 0.2 TRAIL_COLOR w e H)
    as (_ & _ & Hboth).
  destruct (Hboth eq_refl eq_refl eq_refl eq_refl) as (_ & Hlen).
  split; [exact H|]. split; [reflexivity|exact Hlen].
Defined.

(** * Further properties on sample inputs *)

Lemma oneHand_wellFormed : wellFormed (frameOf [handAt 0.5 0.5]).
Proof. repeat constructor; cbn; lia. Qed.

(** One hand in front of an empty registry: five emitters. *)
Lemma registry_is_tracked_fingertips_witness :
  exists w',
    processTracking sampleCos sampleSin sampleRandom (frameOf [handAt 0.5 0.5]) initialWorld
      = Some w' /\
    size (emittersRef w') = 5%nat.
Proof.
  destruct (processTracking_total sampleCos sampleSin sampleRandom
              (frameOf [handAt 0.5 0.5]) initialWorld oneHand_wellFormed) as [w' E].
  exists w'. split; [exact E|].
  destruct (registry_is_tracked_fingertips sampleCos sampleSin sampleRandom
              (frameOf [handAt 0.5 0.5]) initialWorld w' eq_refl E) as (_ & H & _).
  exact H.
Defined.

Lemma entering_hands_emit_nothing_witness :
  exists w',
    processTracking sampleCos sampleSin sampleRandom (frameOf [handAt 0.5 0.5]) initialWorld
      = Some w' /\
    particlesRef w' = [] /\
    emittersRef w' !! "0-1" = Some (seedEmitter ((1 - 0.5) * 1280) (0.5 * 720)).
Proof.
  destruct (processTracking_total sampleCos sampleSin sampleRandom
              (frameOf [handAt 0.5 0.5]) initialWorld oneHand_wellFormed) as [w' E].
  exists w'. split; [exact E|].
  assert (forall key, key ∈ trackedKeys (frameOf [handAt 0.5 0.5]) ->
                      emittersRef initialWorld !! key = None) as Hfresh
    by (intros key _; reflexivity).
  destruct (entering_hands_emit_nothing sampleCos sampleSin sampleRandom
              (frameOf [handAt 0.5 0.5]) initialWorld w' eq_refl E Hfresh)
    as (Hp & _ & _ & Hseed).
  split; [exact Hp|]. exact (Hseed 0%nat 1%nat (Point.mk 0.5 0.5) eq_refl).
Defined.

(** A lone burst particle and 129 frames without hands. *)
Lemma idle_frames_clear_population_witness :
  exists w',
    frames sampleCos sampleSin sampleRandom (replicate 129 (frameOf []))
      (setParticles [sampleBurstParticle] initialWorld) = Some w' /\
    particlesRef w' = [].
Proof.
  apply idle_frames_clear_population.
  - split; [|split; reflexivity]. repeat constructor; reflexivity.
  - apply Forall_replicate. split; [reflexivity|right; reflexivity].
  - rewrite length_replicate. lia.
Defined.

Lemma idle_frame_effect_witness :
  exists w' ops,
    animate sampleCos sampleSin sampleRandom (frameOf [])
      (setEmitter "0-0" restingEmitter initialWorld) = Some (w', ops) /\
    emittersRef w' = ∅.
Proof.
  destruct (idle_frame_effect sampleCos sampleSin sampleRandom (frameOf [])
              (setEmitter "0-0" restingEmitter initialWorld))
    as (w' & ops & E & _ & He & _).
  - split; [reflexivity|right; reflexivity].
  - exists w', ops. split; [exact E|exact He].
Defined.

(** An emitter at rest at the origin and a hand in the middle of the
    canvas: the frame pushes trail particles, and draws them. *)
Lemma emitted_particles_are_drawn_witness :
  (forall k, (0 <=? sampleRandom k) = true /\ (sampleRandom k <? 1) = true) /\
  exists w' ops w1 ps,
    animate sampleCos sampleSin sampleRandom (frameOf [handAt 0.5 0.5])
      (setEmitter "0-0" restingEmitter initialWorld) = Some (w', ops) /\
    processTracking sampleCos sampleSin sampleRandom (frameOf [handAt 0.5 0.5])
      (setEmitter "0-0" restingEmitter initialWorld) = Some w1 /\
    particlesRef w1 = ps /\
    particlesRef w' = (fun p => fst (stepParticle 720 p)) <$> ps.
Proof.
  split; [exact sampleRandom_range|].
  destruct (animate_total sampleCos sampleSin sampleRandom (frameOf [handAt 0.5 0.5])
              (setEmitter "0-0" restingEmitter initialWorld) oneHand_wellFormed)
    as [[w' ops] E].
  destruct (emitted_particles_are_drawn sampleCos sampleSin sampleRandom sampleRandom_range
              (frameOf [handAt 0.5 0.5]) (setEmitter "0-0" restingEmitter initialWorld)
              w' ops eq_refl E) as (w1 & ps & E1 & Hps & _ & Hp & _).
  exists w', ops, w1, ps. repeat split; assumption.
Defined.

Lemma population_is_well_made_witness :
  (forall k, (0 <=? sampleRandom k) = true /\ (sampleRandom k <? 1) = true) /\
  exists w, frames sampleCos sampleSin sampleRandom flickFrames initialWorld = Some w /\
            Forall wellMade (particlesRef w).
Proof.
  split; [exact sampleRandom_range|].
  assert (Forall wellFormed flickFrames) as Hwf.
  { unfold flickFrames, wellFormed.
    repeat (apply Forall_cons; split; [repeat constructor; cbn; lia|]). constructor. }
  destruct (frames_live sampleCos sampleSin sampleRandom sampleRandom_range
              flickFrames initialWorld Hwf (initialWorld_live)) as (w & E & _).
  exists w. split; [exact E|].
  destruct (population_is_well_made sampleCos sampleSin sampleRandom sampleRandom_range)
    as (H & _).
  exact (H flickFrames w E).
Defined.

Lemma frame_drawing_witness :
  (forall k, (0 <=? sampleRandom k) = true /\ (sampleRandom k <? 1) = true) /\
  exists w' ops,
    animate sampleCos sampleSin sampleRandom (frameOf [handAt 0.5 0.5]) initialWorld
      = Some (w', ops) /\
    exists overlay, ops = DrawVideo :: overlay ++ drawParticles (particlesRef w').
Proof.
  split; [exact sampleRandom_range|].
  destruct (animate_total sampleCos sampleSin sampleRandom (frameOf [handAt 0.5 0.5])
              initialWorld oneHand_wellFormed) as [[w' ops] E].
  exists w', ops. split; [exact E|].
  destruct (frame_drawing sampleCos sampleSin sampleRandom sampleRandom_range
              [] initialWorld (frameOf [handAt 0.5 0.5]) w' ops eq_refl eq_refl E)
    as (overlay & H & _).
  exists overlay. exact H.
Defined.

(** An armed emitter at the origin whose target is 16 pixels away: speed
    4, a burst, and the flag reset. *)
Lemma burst_fires_only_if_armed_before_witness :
  let e := {| EmitterState.x := 0; EmitterState.y := 0; EmitterState.vx := 0;
              EmitterState.vy := 0; EmitterState.isBurstArmed := true |} in
  let w := setEmitter "0-0" e initialWorld in
  let w' := updateEmitter sampleCos sampleSin sampleRandom "0-0" 16 0 0.2 TRAIL_COLOR w in
  emittersRef w !! "0-0" = Some e /\
  armedAt "0-0" w' = Some false /\
  lightingIntensityRef w' = 0.5.
Proof.
  intros e w w'.
  assert (emittersRef w !! "0-0" = Some e) as H by reflexivity.
  destruct (burst_fires_only_if_armed_before sampleCos sampleSin sampleRandom
              "0-0" 16 0 0.2 TRAIL_COLOR w e H) as (_ & Ha & Hl & _).
  split; [exact H|]. split; [exact Ha|exact Hl].
Defined.

(** A NaN target for an emitter at rest. *)
Lemma nan_silences_emitter_witness :
  let w := setEmitter "0-0" restingEmitter initialWorld in
  let w' := updateEmitter sampleCos sampleSin sampleRandom "0-0" nan 360 1 TRAIL_COLOR w in
  emittersRef w !! "0-0" = Some restingEmitter /\
  is_nan nan = true /\
  particlesRef w' = [] /\
  exists e', emittersRef w' !! "0-0" = Some e' /\ poisoned e'.
Proof.
  intros w w'.
  assert (emittersRef w !! "0-0" = Some restingEmitter) as H by reflexivity.
  assert (is_nan nan = true) as Hn by reflexivity.
  destruct (nan_silences_emitter sampleCos sampleSin sampleRandom
              "0-0" nan 360 1 TRAIL_COLOR w restingEmitter H (or_intror (or_introl Hn)))
    as (Hp & _ & _ & e' & He' & Hpo & _).
  split; [exact H|]. split; [exact Hn|]. split; [exact Hp|].
  exists e'. split; [exact He'|exact Hpo].
Defined.

Lemma particles_start_at_the_emitter_witness :
  let e := {| EmitterState.x := 0; EmitterState.y := 0; EmitterState.vx := 0;
              EmitterState.vy := 0; EmitterState.isBurstArmed := true |} in
  let w := setEmitter "0-0" e initialWorld in
  let w' := updateEmitter sampleCos sampleSin sampleRandom "0-0" 16 0 0.2 TRAIL_COLOR w in
  emittersRef w !! "0-0" = Some e /\
  Forall (fun p => Particle.x p = 4 /\ Particle.y p = 0) (spawned w w').
Proof.
  intros e w w'.
  assert (emittersRef w !! "0-0" = Some e) as H by reflexivity.
  destruct (particles_start_at_the_emitter sampleCos sampleSin sampleRandom
              "0-0" 16 0 0.2 TRAIL_COLOR w e H) as (e' & _ & Hx & Hy & Hall).
  split; [exact H|]. eapply Forall_impl; [exact Hall|].
  intros p (Hpx & Hpy & _). rewrite Hpx, Hpy, Hx, Hy. split; reflexivity.
Defined.

Lemma idle_frames_are_ticks_witness :
  exists w',
    frames sampleCos sampleSin sampleRandom idleFrames
      (setParticles [sampleBurstParticle] initialWorld) = Some w' /\
    particlesRef w' = ticks 40 [sampleBurstParticle] 1280 720.
Proof.
  apply (idle_frames_are_ticks sampleCos sampleSin sampleRandom 1280 720 idleFrames).
  apply Forall_replicate. split; [split; [reflexivity|right; reflexivity]|split; reflexivity].
Defined.

Lemma each_emitter_follows_its_fingertip_witness :
  let w := setEmitter "0-1" restingEmitter initialWorld in
  exists w' e',
    processTracking sampleCos sampleSin sampleRandom (frameOf [handAt 0.5 0.5]) w = Some w' /\
    emittersRef w' !! "0-1" = Some e' /\
    EmitterState.x e' = 160 /\ EmitterState.y e' = 90.
Proof.
  intros w.
  destruct (processTracking_total sampleCos sampleSin sampleRandom
              (frameOf [handAt 0.5 0.5]) w oneHand_wellFormed) as [w' E].
  destruct (each_emitter_follows_its_fingertip sampleCos sampleSin sampleRandom
              (frameOf [handAt 0.5 0.5]) w w' 0%nat 1%nat (Point.mk 0.5 0.5) restingEmitter
              eq_refl E eq_refl eq_refl) as (e' & He' & _ & Hx & Hy & _).
  exists w', e'. split; [exact E|]. split; [exact He'|].
  rewrite Hx, Hy. split; reflexivity.
Defined.

(** X20 on a burst particle made with the sample draws. *)
Lemma lifetimes_are_bounded_witness :
  let p := createBurstParticle sampleCos sampleSin sampleRandom 4 0 0 in
  Particle.type p = burst /\
  length (ticks 33 [p] 640 480) = 1%nat /\ ticks 101 [p] 640 480 = [].
Proof.
  intros p.
  pose proof (lifetimes_are_bounded sampleCos sampleSin sampleRandom sampleRandom_range
                p 640 480 (or_introl (ex_intro _ 4 (ex_intro _ 0 (ex_intro _ 0%nat eq_refl)))))
    as H.
  change (Particle.type p) with burst in H. destruct H as (_ & _ & Hlive & Hdead).
  split; [reflexivity|].
  split; [apply Hlive; lia|apply Hdead; lia].
Defined.
